(** * Card-game engines: PickPass and BidWiser

    A shallow embedding of [logic_pickpass.py] and [logic_bidwiser.py].

    Conventions of the embedding:
    - Python integers are [Z]; list positions are [nat].
    - Python dictionaries with a fixed set of keys are records; the
      dictionary of the bot memory and the weight table are [gmap]s.
    - A dictionary stored in a list and mutated in place is an update of the
      list at that position.
    - The floating-point numbers of the program are idealised by exact
      rationals ([Qc]).
    - Calls of [random] read their result from an explicit oracle.
    - A raised exception is a constructor of the result type. *)

From Stdlib Require Import ZArith QArith Qcanon List Lia.
From stdpp Require Import base decidable option list sorting numbers strings gmap pretty.

Local Open Scope Z_scope.

(** ** Python built-ins *)

Module Py.

Section Sort.
Context {A : Type} (key : A → Z).

(** Insertion below the first element whose key is not smaller: an
    element stays in front of the later elements of equal key. *)
Fixpoint insert_by (x : A) (l : list A) : list A :=
  match l with
  | [] => [x]
  | y :: t => if key x <=? key y then x :: y :: t else y :: insert_by x t
  end.

(** [list.sort(key=...)] and [sorted]: a stable ascending sort. *)
Definition sort_by (l : list A) : list A := foldr insert_by [] l.

(** The order the sort establishes. *)
Definition key_le (a b : A) : Prop := key a ≤ key b.
End Sort.

(** [sorted(cards)] *)
Definition sorted (l : list Z) : list Z := sort_by id l.

(** [sorted(cards, reverse=True)]: descending, equal elements keep their
    order. *)
Definition sorted_reverse (l : list Z) : list Z := sort_by Z.opp l.

(** [sum(l)] *)
Definition sum (l : list Z) : Z := foldl Z.add 0 l.

(** [x in l] *)
Definition contains (x : Z) (l : list Z) : bool := bool_decide (x ∈ l).

(** [l.remove(x)] on a list that holds [x]: the first occurrence goes. *)
Fixpoint remove (x : Z) (l : list Z) : list Z :=
  match l with
  | [] => []
  | y :: t => if bool_decide (x = y) then t else y :: remove x t
  end.

(** Truth value of an optional string argument: [None] and the empty
    string are false. *)
Definition truthy (s : option string) : bool :=
  match s with
  | None => false
  | Some EmptyString => false
  | Some _ => true
  end.

(** Outcome of a call: a value, or a raised exception. [OutOfFuel] is the
    embedding's own: the recursion bound of a recursive method ran out. *)
Inductive outcome (A : Type) : Type :=
| Return (a : A)
| IndexError
| KeyError
| TypeError
| AttributeError
| OutOfFuel.
Global Arguments Return {A} a.
Global Arguments IndexError {A}.
Global Arguments KeyError {A}.
Global Arguments TypeError {A}.
Global Arguments AttributeError {A}.
Global Arguments OutOfFuel {A}.

(** Sequencing: an exception of the first call ends the method. *)
Global Instance outcome_bind : MBind outcome := λ A B f m,
  match m with
  | Return a => f a
  | IndexError => IndexError
  | KeyError => KeyError
  | TypeError => TypeError
  | AttributeError => AttributeError
  | OutOfFuel => OutOfFuel
  end.

End Py.

(** ** logic_pickpass.py *)

Module PickPass.
Import Py.

(** *** Math and strategy utilities *)

(** One step of the loop of [calculate_score]; the state is
    [(score, previous)]. *)
Definition score_step (st : Z * Z) (card : Z) : Z * Z :=
  let '(score, previous) := st in
  ((if bool_decide (card ≠ previous + 1) then score + card else score), card).

Definition calculate_score (cards : list Z) : Z :=
  match cards with
  | [] => 0
  | _ => fst (foldl score_step (0, -1) (sorted cards))
  end.

(** A player dictionary. *)
Record player := Player {
  name : string;
  cards : list Z;
  chips : Z;
  is_human : bool
}.

(** The probability literals returned by [predict_opponent_action]. *)
Definition p_1_0 : Qc := Q2Qc (10 # 10).
Definition p_0_9 : Qc := Q2Qc (9 # 10).
Definition p_0_8 : Qc := Q2Qc (8 # 10).
Definition p_0_6 : Qc := Q2Qc (6 # 10).
Definition p_0_1 : Qc := Q2Qc (1 # 10).

Definition predict_opponent_action (opponent_dict : player) (card projected_pot : Z) : Qc :=
  if bool_decide (chips opponent_dict = 0) then p_1_0
  else
    let opp_score := calculate_score (cards opponent_dict) in
    let opp_new_score := calculate_score (cards opponent_dict ++ [card]) in
    if bool_decide (opp_new_score < opp_score) then
      if bool_decide (chips opponent_dict < 3) then p_1_0 else p_0_8
    else if bool_decide (chips opponent_dict ≤ 2) && bool_decide (3 ≤ projected_pot) then p_0_9
    else if bool_decide (Qc_of_Z card / 2 < Qc_of_Z projected_pot)%Qc then p_0_6
    else p_0_1.

(** *** The game engine *)

(** An entry of the leaderboard. *)
Record entry := Entry {
  e_name : string;
  card_total : Z;
  e_chips : Z;
  final_score : Z;
  e_is_human : bool
}.

Record game := Game {
  players : list player;
  deck : list Z;
  pot : Z;
  current_card : Z;
  current_player_idx : nat;
  game_over : bool;
  leaderboard : list entry
}.

Definition min_card : Z := 3.
Definition max_card : Z := 35.
Definition cards_removed : nat := 9.
Definition start_chips : Z := 11.
Definition bot_names : list string :=
  ["Vector"; "Matrix"; "Tensor"; "Scalar"; "Logit"]%string.

(** [list(range(min_card, max_card + 1))] *)
Definition full_deck : list Z := seqZ min_card (max_card + 1 - min_card).

(** [__init__]. The oracle gives the deck after [random.shuffle] and the
    result of [random.randint]. The bot names never run out: at most five
    bots are needed. [deck.pop(0)] raises on an empty list. *)
Definition init (human_players : list string) (shuffled : list Z) (start : nat)
  : outcome game :=
  let humans := (λ n, Player n [] start_chips true) <$> human_players in
  let needed := (5 - length humans)%nat in
  let bots := (λ n, Player n [] start_chips false) <$> take needed bot_names in
  match drop cards_removed shuffled with
  | [] => IndexError
  | c :: rest =>
      Return (Game (humans ++ bots) rest 0 c start false [])
  end.

(** The dictionary returned by [get_state]. *)
Record snapshot := Snapshot {
  s_pot : Z;
  s_current_card : Z;
  s_current_player : nat;
  s_current_player_name : string;
  s_deck_count : nat;
  s_game_over : bool;
  s_players : list player;
  s_leaderboard : list entry
}.

Definition get_state (g : game) : outcome snapshot :=
  match players g !! current_player_idx g with
  | None => IndexError
  | Some p =>
      Return (Snapshot (pot g) (current_card g) (current_player_idx g) (name p)
                (length (deck g)) (game_over g) (players g) (leaderboard g))
  end.

Definition entry_of (p : player) : entry :=
  let card_total := calculate_score (cards p) in
  let final_score := card_total - chips p in
  Entry (name p) card_total (chips p) final_score (is_human p).

Definition end_game (g : game) : game :=
  Game (players g) (deck g) (pot g) (current_card g) (current_player_idx g)
    true (sort_by final_score (entry_of <$> players g)).

(** The branch [action == 'take'] of [play_turn], [current_p] being the
    dictionary at [current_player_idx]. *)
Definition take_branch (g : game) (current_p : player) : game :=
  let current_p' :=
    Player (name current_p) (cards current_p ++ [current_card g])
      (chips current_p + pot g) (is_human current_p) in
  let players' := <[current_player_idx g := current_p']> (players g) in
  let idx' := ((current_player_idx g + 1) `mod` length players')%nat in
  match deck g with
  | [] => end_game (Game players' [] 0 (current_card g) idx'
                      (game_over g) (leaderboard g))
  | c :: rest => Game players' rest 0 c idx' (game_over g) (leaderboard g)
  end.

(** The branch [action == 'pass'] of a player who holds a chip. *)
Definition pass_branch (g : game) (current_p : player) : game :=
  let current_p' :=
    Player (name current_p) (cards current_p) (chips current_p - 1)
      (is_human current_p) in
  let players' := <[current_player_idx g := current_p']> (players g) in
  let idx' := ((current_player_idx g + 1) `mod` length players')%nat in
  Game players' (deck g) (pot g + 1) (current_card g) idx'
    (game_over g) (leaderboard g).

(** [play_turn]. The method calls itself once, for the forced take; [fuel]
    bounds the depth of the recursion. *)
Fixpoint play_turn_rec (fuel : nat) (g : game) (action : string)
    (player_name_check : option string) : outcome (game * snapshot) :=
  match fuel with
  | O => OutOfFuel
  | S fuel' =>
    match players g !! current_player_idx g with
    | None => IndexError
    | Some current_p =>
      if truthy player_name_check
         && bool_decide (Some (name current_p) ≠ player_name_check)
      then st ← get_state g; Return (g, st)
      else if bool_decide (action = "take"%string) then
        let g' := take_branch g current_p in
        st ← get_state g'; Return (g', st)
      else if bool_decide (action = "pass"%string) then
        if bool_decide (0 < chips current_p) then
          let g' := pass_branch g current_p in
          st ← get_state g'; Return (g', st)
        else play_turn_rec fuel' g "take" None
      else st ← get_state g; Return (g, st)
    end
  end.

Definition play_turn (g : game) (action : string) (player_name_check : option string)
  : outcome (game * snapshot) :=
  play_turn_rec 2 g action player_name_check.

(** Chips in the system: the players' chips and the pot. *)
Definition total_chips (g : game) : Z :=
  foldr Z.add 0 (chips <$> players g) + pot g.

End PickPass.

(** ** logic_bidwiser.py *)

Module BidWiser.
Import Py.

(** *** Game logic utilities *)

(** Returns [(p1_points, p2_points, is_tie)]. *)
Definition resolve_round_logic (p1_card p2_card current_pot : Z) : Z * Z * bool :=
  if bool_decide (p2_card < p1_card) then (current_pot, 0, false)
  else if bool_decide (p1_card < p2_card) then (0, current_pot, false)
  else (0, 0, true).

(** *** SmartBot *)

(** Utilities of the search: a rational, or one of the two infinities the
    loops start from. *)
Inductive ext : Type := NegInf | Fin (q : Qc) | PosInf.

Definition ext_lt (a b : ext) : bool :=
  match a, b with
  | NegInf, NegInf => false
  | NegInf, _ => true
  | Fin _, NegInf => false
  | Fin x, Fin y => bool_decide (x < y)%Qc
  | Fin _, PosInf => true
  | PosInf, _ => false
  end.

Definition ext_eq (a b : ext) : bool :=
  match a, b with
  | NegInf, NegInf => true
  | Fin x, Fin y => bool_decide (x = y)
  | PosInf, PosInf => true
  | _, _ => false
  end.

(** What one call of [decide_move] reads from [random]: the position
    drawn by [random.choice] and the value of the [i]-th
    [random.uniform(-0.1, 0.1)]. *)
Record oracle := Oracle {
  choice : nat;
  jitter : nat → Qc
}.

Record smart_bot := SmartBot {
  bot_name : string;
  opponent_history : gmap Z (list Z)
}.

(** [SmartBot()] *)
Definition new_bot : smart_bot :=
  SmartBot "DeepGoof" (list_to_map ((λ i, (i, [])) <$> seqZ 1 13)).

Definition record_move (b : smart_bot) (prize_card opponent_move : Z)
  : outcome smart_bot :=
  match opponent_history b !! prize_card with
  | None => KeyError
  | Some l =>
      Return (SmartBot (bot_name b)
                (<[prize_card := l ++ [opponent_move]]> (opponent_history b)))
  end.

(** The bound computed, and left unused, by [minimax_move]. *)
Definition depth_limit (bot_hand : list Z) : Z :=
  if bool_decide (length bot_hand ≤ 4)%nat then 99 else 1.

(** [total_outcome] of the candidate [b] against the reply [p]. *)
Definition total_outcome (bot_hand player_hand : list Z) (current_pot : Z)
    (remaining_prizes : list Z) (bot_score player_score : Qc) (b p : Z) : Qc :=
  let '(b_won, p_won, is_tie) := resolve_round_logic b p current_pot in
  let current_diff := b_won - p_won in
  let future_diff :=
    match remaining_prizes with
    | [] => 0
    | _ =>
        let new_b := filter (λ x, x ≠ b) bot_hand in
        let new_p := filter (λ x, x ≠ p) player_hand in
        sum new_b - sum new_p
    end in
  let current_diff :=
    if is_tie && bool_decide (remaining_prizes = []) then 0 else current_diff in
  ((bot_score - player_score) + Qc_of_Z current_diff + Qc_of_Z future_diff)%Qc.

(** The inner loop of [minimax_move]: the worst outcome of [b]. *)
Definition min_utility_of (bot_hand player_hand : list Z) (current_pot : Z)
    (remaining_prizes : list Z) (bot_score player_score : Qc) (b : Z) : ext :=
  foldl (λ min_utility p,
           let total := Fin (total_outcome bot_hand player_hand current_pot
                               remaining_prizes bot_score player_score b p) in
           if ext_lt total min_utility then total else min_utility)
        PosInf player_hand.

(** The body of the outer loop of [minimax_move]; the state is
    [(max_min_utility, best_options)]. *)
Definition options_step (bot_hand player_hand : list Z) (current_pot : Z)
    (remaining_prizes : list Z) (bot_score player_score : Qc)
    (st : ext * list Z) (b : Z) : ext * list Z :=
  let '(max_min_utility, best_options) := st in
  let min_utility := min_utility_of bot_hand player_hand current_pot
                       remaining_prizes bot_score player_score b in
  if ext_lt max_min_utility min_utility then (min_utility, [b])
  else if ext_eq min_utility max_min_utility
       then (max_min_utility, best_options ++ [b])
       else (max_min_utility, best_options).

(** The outer loop of [minimax_move]. *)
Definition best_options_of (bot_hand player_hand : list Z) (current_pot : Z)
    (remaining_prizes : list Z) (bot_score player_score : Qc) : ext * list Z :=
  let depth_limit := depth_limit bot_hand in
  let candidates := sorted_reverse bot_hand in
  foldl (options_step bot_hand player_hand current_pot remaining_prizes
           bot_score player_score)
        (NegInf, []) candidates.

(** [random.choice(seq)] *)
Definition random_choice (o : oracle) (seq : list Z) : outcome Z :=
  match seq !! (choice o `mod` length seq)%nat with
  | Some x => Return x
  | None => IndexError
  end.

Definition minimax_move (o : oracle) (bot_hand player_hand : list Z) (current_pot : Z)
    (remaining_prizes : list Z) (bot_score player_score : Qc) : outcome Z :=
  match bot_hand with
  | [] => IndexError
  | best_card :: _ =>
      random_choice o
        (snd (best_options_of bot_hand player_hand current_pot remaining_prizes
                bot_score player_score))
  end.

(** [max(l)] on a list that is not empty. *)
Definition max_of (l : list Z) : Z :=
  match l with
  | [] => 0
  | x :: t => foldl Z.max x t
  end.

Definition w_1_0 : Qc := Q2Qc (10 # 10).
Definition w_2_0 : Qc := Q2Qc (20 # 10).
Definition w_3_0 : Qc := Q2Qc (30 # 10).
Definition w_0_1 : Qc := Q2Qc (1 # 10).
Definition c_0_9 : Qc := Q2Qc (9 # 10).
Definition c_0_8 : Qc := Q2Qc (8 # 10).

(** The first loop of [heuristic_move]; the state is [(weights, total_w)]. *)
Definition weights_of (player_hand : list Z) (current_pot : Z) : gmap Z Qc * Qc :=
  let effective_val := Z.min current_pot 15 in
  foldl (λ '(weights, total_w) c,
           let w := w_1_0 in
           let w :=
             if bool_decide (10 < current_pot) then
               let w := if bool_decide (max_of player_hand - 1 ≤ c)
                        then (w + w_3_0)%Qc else w in
               if bool_decide (c < 5) then (w * w_0_1)%Qc else w
             else
               if bool_decide (Z.abs (c - effective_val) ≤ 1)
               then (w + w_2_0)%Qc else w in
           (<[c := w]> weights, (total_w + w)%Qc))
        (∅, 0%Qc) player_hand.

(** The expected value of [my_card], before the jitter. Every card of
    [player_hand] has a weight, so the lookup finds one. *)
Definition ev_of (weights : gmap Z Qc) (total_w : Qc) (player_hand : list Z)
    (current_pot my_card : Z) : Qc :=
  foldl (λ ev opp_card,
           let prob := (default 0 (weights !! opp_card) / total_w)%Qc in
           let '(b_pts, p_pts, is_tie) := resolve_round_logic my_card opp_card current_pot in
           let cost := Qc_of_Z my_card in
           let u := if is_tie then (- (cost * c_0_9))%Qc
                    else (Qc_of_Z (b_pts - p_pts) - cost * c_0_8)%Qc in
           (ev + u * prob)%Qc)
        0%Qc player_hand.

Definition heuristic_move (o : oracle) (bot_hand player_hand : list Z) (current_pot : Z)
  : outcome Z :=
  let '(weights, total_w) := weights_of player_hand current_pot in
  match bot_hand with
  | [] => IndexError
  | first :: _ =>
      Return (fst (foldl (λ '(best_card, best_ev, i) my_card,
                            let ev := (ev_of weights total_w player_hand current_pot my_card
                                       + jitter o i)%Qc in
                            if ext_lt best_ev (Fin ev)
                            then (my_card, Fin ev, S i)
                            else (best_card, best_ev, S i))
                         (first, NegInf, O) bot_hand).1)
  end.

Definition decide_move (o : oracle) (bot_hand player_hand : list Z) (current_pot_value : Z)
    (remaining_prizes : list Z) (bot_score player_score : Qc) : outcome Z :=
  if bool_decide (length bot_hand ≤ 6)%nat then
    minimax_move o bot_hand player_hand current_pot_value remaining_prizes
      bot_score player_score
  else heuristic_move o bot_hand player_hand current_pot_value.

(** *** The game engine *)

(** An entry of [round_history]. *)
Record round := Round {
  r_prize : Z;
  r_p1_card : Z;
  r_p2_card : Z;
  r_result : string
}.

Record game := Game {
  prizes : list Z;
  p1_name : string;
  p1_hand : list Z;
  p1_score : Qc;
  p1_move : option Z;
  p2_name : string;
  p2_is_bot : bool;
  bot : option smart_bot;
  p2_hand : list Z;
  p2_score : Qc;
  p2_move : option Z;
  carry_over_pot : Z;
  round_history : list round;
  current_prize : Z;
  game_over : bool
}.

(** [__init__]; [shuffled] is [list(range(1, 14))] after [random.shuffle]. *)
Definition init (human_players : list string) (shuffled : list Z) : outcome game :=
  match human_players with
  | [] => IndexError
  | h0 :: others =>
      let '(n2, is_bot, b) :=
        match others with
        | h1 :: _ => (h1, false, None)
        | [] => ("DeepGoof (Bot)"%string, true, Some new_bot)
        end in
      match shuffled with
      | [] => IndexError
      | prize :: rest =>
          Return (Game rest h0 (seqZ 1 13) 0%Qc None n2 is_bot b (seqZ 1 13) 0%Qc None
                    0 [] prize false)
      end
  end.

Definition resolve_round (g : game) : outcome game :=
  match p1_move g, p2_move g with
  | Some p1_card, Some p2_card =>
      let pot_val := current_prize g + carry_over_pot g in
      let p1_hand' := if contains p1_card (p1_hand g)
                      then remove p1_card (p1_hand g) else p1_hand g in
      let p2_hand' := if contains p2_card (p2_hand g)
                      then remove p2_card (p2_hand g) else p2_hand g in
      let '(p1_pts, p2_pts, is_tie) := resolve_round_logic p1_card p2_card pot_val in
      let '(p1_score', p2_score', carry', result) :=
        if negb is_tie then
          if bool_decide (0 < p1_pts) then
            ((p1_score g + Qc_of_Z p1_pts)%Qc, p2_score g, 0,
             (p1_name g ++ " Wins")%string)
          else
            (p1_score g, (p2_score g + Qc_of_Z p2_pts)%Qc, 0,
             (p2_name g ++ " Wins")%string)
        else
          let carry := carry_over_pot g + current_prize g in
          match prizes g with
          | [] =>
              let split := (Qc_of_Z pot_val / 2)%Qc in
              ((p1_score g + split)%Qc, (p2_score g + split)%Qc, 0, "Split"%string)
          | _ => (p1_score g, p2_score g, carry, "Tie"%string)
          end in
      let history' :=
        round_history g ++ [Round (current_prize g) p1_card p2_card result] in
      match prizes g with
      | [] =>
          Return (Game [] (p1_name g) p1_hand' p1_score' None (p2_name g) (p2_is_bot g)
                    (bot g) p2_hand' p2_score' None carry' history' 0 true)
      | next :: rest =>
          Return (Game rest (p1_name g) p1_hand' p1_score' None (p2_name g) (p2_is_bot g)
                    (bot g) p2_hand' p2_score' None carry' history' next (game_over g))
      end
  | _, _ => TypeError
  end.

Definition set_p1_move (g : game) (m : option Z) : game :=
  Game (prizes g) (p1_name g) (p1_hand g) (p1_score g) m (p2_name g) (p2_is_bot g)
    (bot g) (p2_hand g) (p2_score g) (p2_move g) (carry_over_pot g) (round_history g)
    (current_prize g) (game_over g).

Definition set_p2_move (g : game) (m : option Z) : game :=
  Game (prizes g) (p1_name g) (p1_hand g) (p1_score g) (p1_move g) (p2_name g)
    (p2_is_bot g) (bot g) (p2_hand g) (p2_score g) m (carry_over_pot g)
    (round_history g) (current_prize g) (game_over g).

Definition set_bot (g : game) (b : option smart_bot) : game :=
  Game (prizes g) (p1_name g) (p1_hand g) (p1_score g) (p1_move g) (p2_name g)
    (p2_is_bot g) b (p2_hand g) (p2_score g) (p2_move g) (carry_over_pot g)
    (round_history g) (current_prize g) (game_over g).

(** The first step of [register_move]: who moved. *)
Definition identify (g : game) (player_name : string) (card : Z) : game :=
  if bool_decide (player_name = p1_name g) then
    if contains card (p1_hand g) then set_p1_move g (Some card) else g
  else if bool_decide (player_name = p2_name g) && negb (p2_is_bot g) then
    if contains card (p2_hand g) then set_p2_move g (Some card) else g
  else g.

(** The second step: the bot answers a move of the first player. *)
Definition bot_reply (o : oracle) (g : game) : outcome game :=
  match p1_move g with
  | Some m1 =>
      if p2_is_bot g then
        match bot g with
        | None => AttributeError
        | Some b =>
            let pot_val := current_prize g + carry_over_pot g in
            m2 ← decide_move o (p2_hand g) (p1_hand g) pot_val (prizes g)
                   (p2_score g) (p1_score g);
            b' ← record_move b (current_prize g) m1;
            Return (set_bot (set_p2_move g (Some m2)) (Some b'))
        end
      else Return g
  | None => Return g
  end.

Definition register_move (o : oracle) (g : game) (player_name : string) (card : Z)
  : outcome (game * bool) :=
  if game_over g then Return (g, false)
  else
    g2 ← bot_reply o (identify g player_name card);
    match p1_move g2, p2_move g2 with
    | Some _, Some _ => g3 ← resolve_round g2; Return (g3, true)
    | _, _ => Return (g2, true)
    end.

End BidWiser.

(** ** The properties as the specification words them *)

Module Spec.
Import Py PickPass.

(** The cards of an ascending list that do not immediately follow their
    predecessor; the first card has no predecessor. *)
Fixpoint run_openers (predecessor : option Z) (l : list Z) : list Z :=
  match l with
  | [] => []
  | c :: t =>
      (if bool_decide (predecessor = Some (c - 1)) then [] else [c])
        ++ run_openers (Some c) t
  end.

(** The score in the words of the specification. *)
Definition score (cards : list Z) : Z :=
  foldr Z.add 0 (run_openers None (sorted cards)).

(** The take probability in the words of the specification. *)
Definition take_probability (opponent : player) (card projected_pot : Z) : Qc :=
  if bool_decide (chips opponent = 0) then p_1_0
  else if bool_decide (calculate_score (cards opponent ++ [card])
                       < calculate_score (cards opponent))
          && bool_decide (chips opponent < 3) then p_0_8
  else if bool_decide (chips opponent ≤ 2) && bool_decide (3 ≤ projected_pot) then p_0_9
  else if bool_decide (Qc_of_Z card / 2 < Qc_of_Z projected_pot)%Qc then p_0_6
  else p_0_1.

(** The identity check of [play_turn] lets the call through: no identity
    is given, or it is the name of the current player. *)
Definition accepted (player_name_check : option string) (current_p : player) : Prop :=
  truthy player_name_check = false ∨ player_name_check = Some (name current_p).

(** The three ways a call of [play_turn] ends for the current player [p]:
    the call is ignored, the player takes, or the player pays a chip. *)
Inductive turn (g : game) (action : string) (chk : option string) (p : player)
  : game → Prop :=
| turn_ignored :
    ¬ accepted chk p ∨ (action ≠ "take"%string ∧ action ≠ "pass"%string) →
    turn g action chk p g
| turn_take :
    accepted chk p →
    action = "take"%string ∨ (action = "pass"%string ∧ chips p ≤ 0) →
    turn g action chk p (take_branch g p)
| turn_pass :
    accepted chk p → action = "pass"%string → 0 < chips p →
    turn g action chk p (pass_branch g p).

(** The states of a game: a new game over a shuffle of the full deck, and
    what [play_turn] makes of them. *)
Inductive reachable : game → Prop :=
| reachable_init human_players shuffled start g :
    shuffled ≡ₚ full_deck →
    init human_players shuffled start = Return g →
    (start < length (players g))%nat →
    reachable g
| reachable_play_turn g action player_name_check g' st :
    reachable g →
    play_turn g action player_name_check = Return (g', st) →
    reachable g'.

End Spec.

Module BidSpec.
Import Py BidWiser.

Definition ext_min (a b : ext) : ext := if ext_lt b a then b else a.
Definition ext_max (a b : ext) : ext := if ext_lt a b then b else a.

(** A search to the end of the game: the final score difference when the
    bot plays [b] against [p] and both sides then play the remaining
    prizes by the same worst-case rule. *)
Fixpoint end_value (remaining bot_hand player_hand : list Z) (pot : Z)
    (bot_score player_score : Qc) (b p : Z) : ext :=
  let '(b_won, p_won, is_tie) := resolve_round_logic b p pot in
  match remaining with
  | [] =>
      if is_tie
      then Fin ((bot_score + Qc_of_Z pot / 2) - (player_score + Qc_of_Z pot / 2))%Qc
      else Fin ((bot_score + Qc_of_Z b_won) - (player_score + Qc_of_Z p_won))%Qc
  | next :: rest =>
      let new_b := filter (λ x, x ≠ b) bot_hand in
      let new_p := filter (λ x, x ≠ p) player_hand in
      let pot' := next + (if is_tie then pot else 0) in
      foldl ext_max NegInf
        ((λ b', foldl ext_min PosInf
                  ((λ p', end_value rest new_b new_p pot'
                            (bot_score + Qc_of_Z b_won)%Qc
                            (player_score + Qc_of_Z p_won)%Qc b' p') <$> new_p))
           <$> new_b)
  end.

(** The candidates a full-depth search keeps: those whose worst final
    difference is the largest. *)
Definition full_depth_options (bot_hand player_hand : list Z) (pot : Z)
    (remaining : list Z) (bot_score player_score : Qc) : list Z :=
  snd (foldl (λ '(best, options) b,
                let worst := foldl ext_min PosInf
                               (end_value remaining bot_hand player_hand pot
                                  bot_score player_score b <$> player_hand) in
                if ext_lt best worst then (worst, [b])
                else if ext_eq worst best then (best, options ++ [b])
                else (best, options))
             (NegInf, []) (sorted_reverse bot_hand)).

(** The state a round leaves, up to the scores, the carry-over and the
    label of the round. *)
Definition resolved (g : game) (c1 c2 : Z) (s1 s2 : Qc) (carry : Z) (label : string)
  : game :=
  Game (tail (prizes g)) (p1_name g) (remove c1 (p1_hand g)) s1 None (p2_name g)
    (p2_is_bot g) (bot g) (remove c2 (p2_hand g)) s2 None carry
    (round_history g ++ [Round (current_prize g) c1 c2 label])
    (hd 0 (prizes g)) (game_over g || bool_decide (prizes g = [])).

(** What holds of the hands, the history and the bot in every state, also
    between the steps of [register_move]. *)
Record sound (g : game) : Prop := {
  wf_nodup1 : NoDup (p1_hand g);
  wf_nodup2 : NoDup (p2_hand g);
  wf_played1 : ∀ r, r ∈ round_history g → r_p1_card r ∉ p1_hand g;
  wf_played2 : ∀ r, r ∈ round_history g → r_p2_card r ∉ p2_hand g;
  wf_once1 : NoDup (r_p1_card <$> round_history g);
  wf_once2 : NoDup (r_p2_card <$> round_history g);
  wf_move1 : ∀ c, p1_move g = Some c → c ∈ p1_hand g;
  wf_move2 : ∀ c, p2_move g = Some c → c ∈ p2_hand g;
  wf_bot : p2_is_bot g = true → is_Some (bot g);
  wf_memory : ∀ b, bot g = Some b → game_over g = false →
              is_Some (opponent_history b !! current_prize g) ∧
              ∀ z, z ∈ prizes g → is_Some (opponent_history b !! z);
  wf_hands : game_over g = false →
             length (p1_hand g) = S (length (prizes g)) ∧
             length (p2_hand g) = S (length (prizes g));
  wf_carry : 0 ≤ carry_over_pot g;
  wf_prize : game_over g = false →
             0 < current_prize g ∧ Forall (λ z, 0 < z) (prizes g)
}.

(** What holds between two calls of [register_move]: at most one move is
    pending, and none against the bot. *)
Record idle (g : game) : Prop := {
  wf_waiting : p1_move g = None ∨ p2_move g = None;
  wf_bot_waits : p2_is_bot g = true → p1_move g = None
}.

Definition wf (g : game) : Prop := sound g ∧ idle g.

(** What a call of [register_move] does to the hands and the history: it
    resolves a round, or it leaves them as they are. *)
Definition round_played (g g' : game) : Prop :=
  ∃ c1 c2 label,
    c1 ∈ p1_hand g ∧ c2 ∈ p2_hand g ∧
    p1_hand g' = remove c1 (p1_hand g) ∧ p2_hand g' = remove c2 (p2_hand g) ∧
    round_history g'
    = round_history g ++ [Round (current_prize g) c1 c2 label].

Definition no_round (g g' : game) : Prop :=
  p1_hand g' = p1_hand g ∧ p2_hand g' = p2_hand g ∧
  round_history g' = round_history g.

(** The states of a game: a new game over a shuffle of the prizes, and
    what [register_move] makes of them. *)
Inductive reachable : game → Prop :=
| reachable_init human_players shuffled g :
    shuffled ≡ₚ seqZ 1 13 →
    init human_players shuffled = Return g →
    reachable g
| reachable_register_move o g player_name card g' changed :
    reachable g →
    register_move o g player_name card = Return (g', changed) →
    reachable g'.

End BidSpec.

(** ** Quantities of the further properties *)

Module Laws.

(** The cards of a PickPass game that are in a pile of a player, face-up
    or in the draw pile. *)
Definition in_play (g : PickPass.game) : list Z :=
  concat (PickPass.cards <$> PickPass.players g)
    ++ PickPass.current_card g :: PickPass.deck g.

(** The cards of the game: 3 to 35. *)
Definition card_range (c : Z) : Prop :=
  PickPass.min_card ≤ c ≤ PickPass.max_card.

(** The cards the players have won. *)
Definition won (g : PickPass.game) : list Z :=
  concat (PickPass.cards <$> PickPass.players g).

(** The order of the utilities of the search. *)
Definition ext_le (a b : BidWiser.ext) : Prop := BidWiser.ext_lt b a = false.

(** A BidWiser state with other pending moves and another bot memory. *)
Definition with_moves (g : BidWiser.game) (m1 m2 : option Z)
    (bt : option BidWiser.smart_bot) : BidWiser.game :=
  BidWiser.Game (BidWiser.prizes g) (BidWiser.p1_name g) (BidWiser.p1_hand g)
    (BidWiser.p1_score g) m1 (BidWiser.p2_name g) (BidWiser.p2_is_bot g) bt
    (BidWiser.p2_hand g) (BidWiser.p2_score g) m2 (BidWiser.carry_over_pot g)
    (BidWiser.round_history g) (BidWiser.current_prize g) (BidWiser.game_over g).

(** The prizes of the rounds played. *)
Definition prizes_won (g : BidWiser.game) : list Z :=
  BidWiser.r_prize <$> BidWiser.round_history g.

(** The prizes still to be played for: the current one and the queue. *)
Definition prizes_left (g : BidWiser.game) : list Z :=
  if BidWiser.game_over g then []
  else BidWiser.current_prize g :: BidWiser.prizes g.

(** The memory of the bot holds, for each prize from 1 to 13, the cards the
    opponent played for it, in the order of the rounds, and no other key. *)
Definition remembers (b : BidWiser.smart_bot) (history : list BidWiser.round) : Prop :=
  ∀ z,
    BidWiser.opponent_history b !! z
    = if bool_decide (z ∈ seqZ 1 13)
      then Some (BidWiser.r_p1_card
                   <$> filter (λ r, BidWiser.r_prize r = z) history)
      else None.

(** What the rounds played account for: the cards gone from the hands, the
    prizes, and the points scored or carried over. *)
Definition ledger (g : BidWiser.game) : Prop :=
  (length (BidWiser.round_history g) + length (BidWiser.p1_hand g) = 13)%nat ∧
  (length (BidWiser.round_history g) + length (BidWiser.p2_hand g) = 13)%nat ∧
  prizes_won g ++ prizes_left g ≡ₚ seqZ 1 13 ∧
  (BidWiser.p1_score g + BidWiser.p2_score g
   + Qc_of_Z (BidWiser.carry_over_pot g))%Qc
  = Qc_of_Z (foldr Z.add 0 (prizes_won g)) ∧
  (BidWiser.game_over g = true →
   BidWiser.carry_over_pot g = 0 ∧ BidWiser.prizes g = [] ∧
   BidWiser.current_prize g = 0).

End Laws.

(** ** logic_pickpass.py: the bot *)

Module PickPassBot.
Import Py PickPass.

(** The exceptions of the bot and of the event handlers. *)
Inductive error : Type :=
| IndexErr
| KeyErr
| TypeErr
| AttributeErr
| ZeroDivisionErr
| ValueErr
| FuelOut.

(** A value, or a raised exception. *)
Inductive answer (A : Type) : Type :=
| Answer (a : A)
| Raised (e : error).
Global Arguments Answer {A} a.
Global Arguments Raised {A} e.

Definition of_outcome {A : Type} (m : outcome A) : answer A :=
  match m with
  | Return a => Answer a
  | IndexError => Raised IndexErr
  | KeyError => Raised KeyErr
  | TypeError => Raised TypeErr
  | AttributeError => Raised AttributeErr
  | OutOfFuel => Raised FuelOut
  end.

Global Instance answer_bind : MBind answer := λ A B f m,
  match m with
  | Answer a => f a
  | Raised e => Raised e
  end.

Definition e_15_0 : Qc := Q2Qc (150 # 10).
Definition e_2_0 : Qc := Q2Qc (20 # 10).
Definition e_9_0 : Qc := Q2Qc (90 # 10).
Definition e_0_4 : Qc := Q2Qc (4 # 10).
Definition e_1_0 : Qc := Q2Qc (10 # 10).
Definition e_12_0 : Qc := Q2Qc (120 # 10).
Definition e_3_0 : Qc := Q2Qc (30 # 10).

(** The body of the loop of [get_run_equity] over the two neighbours. *)
Definition equity_step (hand : list Z) (deck_size : Z) (visible_cards : gset Z)
    (equity : Qc) (n : Z) : Qc :=
  if contains n hand then (equity + e_15_0)%Qc
  else if bool_decide (n ∈ visible_cards) then (equity - e_2_0)%Qc
  else
    let unknowns := deck_size + 9 in
    let removed : Qc :=
      if bool_decide (0 < unknowns) then (e_9_0 / Qc_of_Z unknowns)%Qc else 0%Qc in
    let prob_in_play := (e_1_0 - removed)%Qc in
    (equity + (Qc_of_Z n * e_0_4) * prob_in_play)%Qc.

Definition get_run_equity (card : Z) (hand : list Z) (deck_size : Z)
    (visible_cards : gset Z) : Qc :=
  let neighbors := [card - 1; card + 1] in
  foldl (equity_step hand deck_size visible_cards) 0%Qc neighbors.

(** The orbit simulation of [bot_move]: the loop over [range(1, num_players)],
    with [prob_card_dies] as state. *)
Fixpoint orbit (g : game) (card : Z) (my_seat num_players : nat) (steps : list nat)
    (prob_card_dies : Qc) : answer Qc :=
  match steps with
  | [] => Answer prob_card_dies
  | i :: rest =>
      let seat := ((my_seat + i) `mod` num_players)%nat in
      match players g !! seat with
      | None => Raised IndexErr
      | Some opponent =>
          let p_take := predict_opponent_action opponent card (pot g + Z.of_nat i) in
          let prob_survived_until_here := (e_1_0 - prob_card_dies)%Qc in
          orbit g card my_seat num_players rest
            (prob_card_dies + prob_survived_until_here * p_take)%Qc
      end
  end.

(** [bot_move]: [True] is take, [False] is pass. *)
Definition bot_move (g : game) : answer bool :=
  match players g !! current_player_idx g with
  | None => Raised IndexErr
  | Some me =>
    if is_human me then Answer false
    else
      let card := current_card g in
      if bool_decide (chips me = 0) then Answer true
      else
        let current_score := calculate_score (cards me) in
        let new_score := calculate_score (cards me ++ [card]) in
        let point_delta := new_score - current_score in
        if bool_decide (chips me + 1 = 0) then Raised ZeroDivisionErr
        else
          let chip_value := (e_1_0 + e_12_0 / Qc_of_Z (chips me + 1))%Qc in
          let economic_impact := (Qc_of_Z point_delta - Qc_of_Z (pot g) * chip_value)%Qc in
          let visible_cards : gset Z :=
            foldl (λ visible p, foldl (λ visible c, {[c]} ∪ visible) visible (cards p))
              ∅ (players g) in
          let gap_bonus :=
            get_run_equity card (cards me) (Z.of_nat (length (deck g))) visible_cards in
          let adjusted_cost := (economic_impact - gap_bonus)%Qc in
          let my_seat := current_player_idx g in
          let num_players := length (players g) in
          prob_card_dies ← orbit g card my_seat num_players
                             (seq 1 (num_players - 1)) 0%Qc;
          let prob_return := (e_1_0 - prob_card_dies)%Qc in
          let u_take := (- adjusted_cost)%Qc in
          let future_pot := pot g + Z.of_nat num_players in
          let economic_impact_future :=
            (Qc_of_Z point_delta - Qc_of_Z future_pot * chip_value)%Qc in
          let u_return := (- (economic_impact_future - gap_bonus))%Qc in
          let u_loss := (- (e_1_0 * chip_value))%Qc in
          let u_pass := (u_return * prob_return + u_loss * prob_card_dies)%Qc in
          let greed_bias := if bool_decide (8 < chips me) then e_3_0 else 0%Qc in
          let diff := (u_take - (u_pass - greed_bias))%Qc in
          Answer (bool_decide (0 < diff)%Qc)
  end.

End PickPassBot.

(** ** logic_bidwiser.py: the state sent to the clients *)

Module BidWiserState.
Import BidWiser.

(** The dictionary under ['p1']. *)
Record p1_view := P1View {
  v1_name : string;
  v1_score : Qc;
  v1_hand : list Z;
  v1_has_moved : bool
}.

(** The dictionary under ['p2']. *)
Record p2_view := P2View {
  v2_name : string;
  v2_score : Qc;
  v2_hand : list Z;
  v2_hand_count : nat;
  v2_has_moved : bool;
  v2_is_bot : bool
}.

Record snapshot := Snapshot {
  s_current_prize : Z;
  s_carry_over : Z;
  s_total_pot : Z;
  s_p1 : p1_view;
  s_p2 : p2_view;
  s_history : list round;
  s_game_over : bool
}.

Definition get_state (g : game) : snapshot :=
  Snapshot (current_prize g) (carry_over_pot g) (current_prize g + carry_over_pot g)
    (P1View (p1_name g) (p1_score g) (p1_hand g) (bool_decide (p1_move g ≠ None)))
    (P2View (p2_name g) (p2_score g) (p2_hand g) (length (p2_hand g))
       (bool_decide (p2_move g ≠ None)) (p2_is_bot g))
    (round_history g) (game_over g).

End BidWiserState.

(** ** app.py: rooms and events

    The handlers are modelled for the session of a logged-in user, which
    holds a user name. What a handler sends and when it sleeps is a list of
    effects; the membership of a connection in the rooms of the transport
    is not modelled. *)

Module App.
Import Py PickPassBot.

(** The game object of a room. *)
Inductive engine : Type :=
| PickPassEngine (g : PickPass.game)
| BidWiserEngine (g : BidWiser.game).

(** An entry of [ROOMS]. *)
Record room := Room {
  code : string;
  host : string;
  game_type : option string;
  players : list string;
  game_instance : option engine;
  status : string
}.

(** The state dictionary of either game. *)
Inductive state_view : Type :=
| PickPassView (st : PickPass.snapshot)
| BidWiserView (st : BidWiserState.snapshot).

Inductive effect : Type :=
| EmitRoomJoined (code : string) (players : list string) (host your_name : string)
| EmitRoomUpdate (code : string) (r : room)
| EmitErrorMsg (msg : string)
| EmitGameStarted (code : string) (state : state_view) (game_type : string)
| EmitUpdateGame (code : string) (state : state_view) (game_type : string)
| Sleep.

Record session := Session {
  username : string;
  room_code : option string
}.

(** What a handler leaves: the rooms, the session, what was sent, and the
    exception that ended it, if any. *)
Record handled := Handled {
  h_rooms : gmap string room;
  h_session : session;
  h_effects : list effect;
  h_raised : option error
}.

(** [generate_room_code]; [draws] are the codes [random.choices] gives, one
    per round of the loop. *)
Fixpoint generate_room_code (draws : list string) (rooms : gmap string room)
  : answer string :=
  match draws with
  | [] => Raised FuelOut
  | code :: rest =>
      if bool_decide (is_Some (rooms !! code)) then generate_room_code rest rooms
      else Answer code
  end.

Definition handle_create_room (draws : list string) (rooms : gmap string room)
    (sess : session) : handled :=
  match generate_room_code draws rooms with
  | Raised e => Handled rooms sess [] (Some e)
  | Answer code =>
      let r := Room code (username sess) None [username sess] None "lobby" in
      Handled (<[code := r]> rooms) (Session (username sess) (Some code))
        [EmitRoomJoined code (players r) (username sess) (username sess)] None
  end.

(** The loop of [handle_join_room] that looks for a name not in the room. *)
Fixpoint unique_name (fuel : nat) (original_name temp_name : string) (counter : N)
    (members : list string) : answer string :=
  match fuel with
  | O => Raised FuelOut
  | S fuel' =>
      if bool_decide (temp_name ∈ members) then
        unique_name fuel' original_name
          (original_name +:+ " #" +:+ pretty counter) (counter + 1)%N members
      else Answer temp_name
  end.

Definition handle_join_room (fuel : nat) (rooms : gmap string room) (sess : session)
    (code : string) : handled :=
  match rooms !! code with
  | Some r =>
      if bool_decide (status r ≠ "lobby"%string) then
        Handled rooms sess [EmitErrorMsg "Game already started!"] None
      else
        match unique_name fuel (username sess) (username sess) 2 (players r) with
        | Raised e => Handled rooms sess [] (Some e)
        | Answer name =>
            let r' :=
              if bool_decide (name ∉ players r)
              then Room (App.code r) (host r) (game_type r) (players r ++ [name])
                     (game_instance r) (status r)
              else r in
            Handled (<[code := r']> rooms) (Session name (Some code))
              [EmitRoomUpdate code r';
               EmitRoomJoined code (players r') (host r') name] None
        end
  | None => Handled rooms sess [EmitErrorMsg "Invalid Room Code"] None
  end.

(** The result of [check_bot_turn_pickpass]: the game as the bots leave it,
    what was sent, and the exception that ended the loop, if any. *)
Record cascade := Cascade {
  c_game : PickPass.game;
  c_effects : list effect;
  c_raised : option error
}.

Definition after (pre : list effect) (c : cascade) : cascade :=
  Cascade (c_game c) (pre ++ c_effects c) (c_raised c).

(** The loop of [check_bot_turn_pickpass]; [state] is the dictionary the
    condition reads. *)
Fixpoint bot_turns (fuel : nat) (code : string) (g : PickPass.game)
    (state : PickPass.snapshot) : cascade :=
  match fuel with
  | O => Cascade g [] (Some FuelOut)
  | S fuel' =>
      if PickPass.s_game_over state then Cascade g [] None
      else
        match PickPass.s_players state !! PickPass.s_current_player state with
        | None => Cascade g [] (Some IndexErr)
        | Some p =>
            if PickPass.is_human p then Cascade g [] None
            else
              match bot_move g with
              | Raised e => Cascade g [Sleep] (Some e)
              | Answer take =>
                  let action := if take then "take"%string else "pass"%string in
                  match of_outcome (PickPass.play_turn g action None) with
                  | Raised e => Cascade g [Sleep] (Some e)
                  | Answer (g', state') =>
                      after [Sleep; EmitUpdateGame code (PickPassView state') "pickpass"]
                        (bot_turns fuel' code g' state')
                  end
              end
        end
  end.

Definition check_bot_turn_pickpass (fuel : nat) (code : string) (g : PickPass.game)
  : cascade :=
  match of_outcome (PickPass.get_state g) with
  | Raised e => Cascade g [] (Some e)
  | Answer state => bot_turns fuel code g state
  end.




(** What [random] gives to the constructor of a game. *)
Record deal := Deal {
  shuffled_deck : list Z;
  start_seat : nat;
  shuffled_prizes : list Z
}.

Definition set_game (r : room) (gt : option string) (e : option engine) (st : string)
  : room :=
  Room (code r) (host r) gt (players r) e st.

Definition handle_start_game (fuel : nat) (d : deal) (rooms : gmap string room)
    (sess : session) (game_type : string) : handled :=
  match room_code sess with
  | None => Handled rooms sess [] None
  | Some code =>
    match rooms !! code with
    | None => Handled rooms sess [] None
    | Some r =>
      if bool_decide (host r ≠ username sess) then Handled rooms sess [] None
      else
        let r1 := set_game r (Some game_type) (game_instance r) "playing" in
        let made : answer room :=
          if bool_decide (game_type = "pickpass"%string) then
            g ← of_outcome (PickPass.init (players r1) (shuffled_deck d) (start_seat d));
            Answer (set_game r1 (App.game_type r1) (Some (PickPassEngine g)) (status r1))
          else if bool_decide (game_type = "bidwiser"%string) then
            g ← of_outcome (BidWiser.init (players r1) (shuffled_prizes d));
            Answer (set_game r1 (App.game_type r1) (Some (BidWiserEngine g)) (status r1))
          else Answer r1 in
        match made with
        | Raised e => Handled (<[code := r1]> rooms) sess [] (Some e)
        | Answer r2 =>
          match game_instance r2 with
          | None => Handled (<[code := r2]> rooms) sess [] (Some AttributeErr)
          | Some (BidWiserEngine g) =>
              Handled (<[code := r2]> rooms) sess
                [EmitGameStarted code (BidWiserView (BidWiserState.get_state g)) game_type]
                None
          | Some (PickPassEngine g) =>
            match of_outcome (PickPass.get_state g) with
            | Raised e => Handled (<[code := r2]> rooms) sess [] (Some e)
            | Answer state =>
                let started := EmitGameStarted code (PickPassView state) game_type in
                if bool_decide (game_type = "pickpass"%string) then
                  let c := check_bot_turn_pickpass fuel code g in
                  Handled
                    (<[code := set_game r2 (App.game_type r2)
                                 (Some (PickPassEngine (c_game c))) (status r2)]> rooms)
                    sess (started :: c_effects c) (c_raised c)
                else Handled (<[code := r2]> rooms) sess [started] None
            end
          end
        end
    end
  end.

(** The payload of [player_action], as far as [handle_action] reads it:
    [data['action']], which is missing or a string (a value that is no
    string compares like a string that is neither ['take'] nor ['pass']),
    and what [int(data['card'])] gives: the integer, or the exception it
    raises, [KeyError] without the key, [ValueError] for a text that is no
    number and [TypeError] for a value [int] does not take. *)
Record action_data := ActionData {
  d_action : option string;
  d_card : answer Z
}.

Definition handle_action (fuel : nat) (o : BidWiser.oracle) (rooms : gmap string room)
    (sess : session) (data : action_data) : handled :=
  match room_code sess with
  | None => Handled rooms sess [] None
  | Some code =>
    match rooms !! code with
    | None => Handled rooms sess [] None
    | Some r =>
      if bool_decide (game_type r = Some "pickpass"%string) then
        match game_instance r with
        | Some (PickPassEngine g) =>
          match d_action data with
          | None => Handled rooms sess [] (Some KeyErr)
          | Some action =>
            match of_outcome (PickPass.play_turn g action (Some (username sess))) with
            | Raised e => Handled rooms sess [] (Some e)
            | Answer (g', state) =>
                let c := check_bot_turn_pickpass fuel code g' in
                Handled
                  (<[code := set_game r (game_type r)
                               (Some (PickPassEngine (c_game c))) (status r)]> rooms)
                  sess
                  (EmitUpdateGame code (PickPassView state) "pickpass" :: c_effects c)
                  (c_raised c)
            end
          end
        | _ => Handled rooms sess [] (Some AttributeErr)
        end
      else if bool_decide (game_type r = Some "bidwiser"%string) then
        match game_instance r with
        | Some (BidWiserEngine g) =>
          match d_card data with
          | Raised e => Handled rooms sess [] (Some e)
          | Answer card =>
            match of_outcome (BidWiser.register_move o g (username sess) card) with
            | Raised e => Handled rooms sess [] (Some e)
            | Answer (g', has_changed) =>
                let rooms' :=
                  <[code := set_game r (game_type r) (Some (BidWiserEngine g'))
                              (status r)]> rooms in
                if has_changed then
                  Handled rooms' sess
                    [EmitUpdateGame code (BidWiserView (BidWiserState.get_state g'))
                       "bidwiser"] None
                else Handled rooms' sess [] None
            end
          end
        | _ => Handled rooms sess [] (Some AttributeErr)
        end
      else Handled rooms sess [] None
    end
  end.

End App.

(** ** Quantities of the properties of the bot turns and of the rooms *)

Module Flow.
Import PickPass.

(** A table the bots can play at: the seat at turn exists, and no chip
    count and no pot is negative. *)
Definition table_ok (g : game) : Prop :=
  (current_player_idx g < length (players g))%nat ∧
  0 ≤ pot g ∧ Forall (λ q, 0 ≤ chips q) (players g).




(** The name [handle_join_room] tries with the counter [k]. *)
Definition numbered (original_name : string) (k : N) : string :=
  original_name +:+ " #" +:+ pretty k.

End Flow.

(** ** The forecast of [heuristic_move] *)

Module Forecast.
Import Py BidWiser.


(** The sum of a list of rationals. *)
Definition total (l : list Qc) : Qc := foldr Qcplus 0%Qc l.

End Forecast.

(** ** The value of a neighbour in [get_run_equity] *)

Module Gap.
Import Py PickPass PickPassBot.





End Gap.

(** ** The moves of a call of [register_move] *)

Module Played.
Import Py BidWiser.

(** The move of the first player once [register_move] has read the call of
    [player_name] with [card]: the card, when the first player calls with a
    card of the own hand, and else the move that was pending. *)
Definition first_move (g : game) (player_name : string) (card : Z) : option Z :=
  if bool_decide (player_name = p1_name g ∧ card ∈ p1_hand g) then Some card
  else p1_move g.

(** The same for a human second player, who is only looked at when the name
    is not the name of the first player. *)
Definition second_move (g : game) (player_name : string) (card : Z) : option Z :=
  if bool_decide (player_name ≠ p1_name g ∧ player_name = p2_name g ∧
                  p2_is_bot g = false ∧ card ∈ p2_hand g)
  then Some card
  else p2_move g.

(** Between [g] and [g'] one round was resolved, with the card [c1] of the
    first and the card [c2] of the second player. *)
Definition round_of (g g' : game) (c1 c2 : Z) : Prop :=
  c1 ∈ p1_hand g ∧ c2 ∈ p2_hand g ∧
  p1_hand g' = remove c1 (p1_hand g) ∧ p2_hand g' = remove c2 (p2_hand g) ∧
  (∃ label,
     round_history g' = round_history g ++ [Round (current_prize g) c1 c2 label]) ∧
  p1_move g' = None ∧ p2_move g' = None.

End Played.

(** ** Games played through *)

Module Replay.
Import Py.

(** The game after the calls of [register_move] in [calls], in their order;
    a call that raises ends the replay. *)
Fixpoint bidwiser (o : BidWiser.oracle) (calls : list (string * Z))
    (g : BidWiser.game) : BidWiser.game :=
  match calls with
  | [] => g
  | (player_name, card) :: rest =>
      match BidWiser.register_move o g player_name card with
      | Return (g', _) => bidwiser o rest g'
      | _ => g
      end
  end.

(** An oracle: [random.choice] takes the first option and
    [random.uniform] gives 0. *)
Definition first_option : BidWiser.oracle := BidWiser.Oracle 0 (λ _, 0%Qc).

(** A new game of two humans and a new game against the bot, both over the
    prizes in ascending order. *)
Definition two_humans : BidWiser.game :=
  BidWiser.Game (seqZ 2 12) "Ann" (seqZ 1 13) 0%Qc None "Bob" false None
    (seqZ 1 13) 0%Qc None 0 [] 1 false.

Definition against_bot : BidWiser.game :=
  BidWiser.Game (seqZ 2 12) "Ann" (seqZ 1 13) 0%Qc None "DeepGoof (Bot)" true
    (Some BidWiser.new_bot) (seqZ 1 13) 0%Qc None 0 [] 1 false.

(** The calls of a whole game of two humans: for the prize [i] Ann plays
    [i] and Bob [14 - i]; the round for the prize 7 is a tie. *)
Definition whole_game : list (string * Z) :=
  flat_map (λ i, [("Ann"%string, i); ("Bob"%string, 14 - i)]) (seqZ 1 13).

(** The game of two humans at its end, and the game against the bot after
    two rounds. *)
Definition finished : BidWiser.game := bidwiser first_option whole_game two_humans.

Definition two_rounds : BidWiser.game :=
  bidwiser first_option [("Ann"%string, 5); ("Ann"%string, 9)] against_bot.

End Replay.

(** ** Sorting *)

Section SortFacts.
Context {A : Type} (key : A → Z).

Lemma insert_by_perm (x : A) (l : list A) : Py.insert_by key x l ≡ₚ x :: l.
Proof.
  induction l as [|y t IH]; simpl; [done|].
  destruct (key x <=? key y); [done|].
  rewrite IH. apply Permutation_swap.
Qed.

Lemma sort_by_cons (x : A) (l : list A) :
  Py.sort_by key (x :: l) = Py.insert_by key x (Py.sort_by key l).
Proof. reflexivity. Qed.

Lemma sort_by_perm (l : list A) : Py.sort_by key l ≡ₚ l.
Proof.
  induction l as [|x t IH]; [done|].
  by rewrite sort_by_cons, insert_by_perm, IH.
Qed.

Lemma sort_by_length (l : list A) : length (Py.sort_by key l) = length l.
Proof. by rewrite sort_by_perm. Qed.

Lemma insert_by_sorted (x : A) (l : list A) :
  Sorted (Py.key_le key) l → Sorted (Py.key_le key) (Py.insert_by key x l).
Proof.
  induction 1 as [|y t Ht IH Hy]; simpl.
  - repeat constructor.
  - destruct (Z.leb_spec (key x) (key y)) as [Hle|Hgt].
    + constructor; [by constructor|]. by constructor.
    + constructor; [done|].
      destruct Hy as [|z t' Hz]; simpl.
      * constructor. unfold Py.key_le. lia.
      * destruct (key x <=? key z); constructor; unfold Py.key_le in *; lia.
Qed.

Lemma sort_by_sorted (l : list A) : Sorted (Py.key_le key) (Py.sort_by key l).
Proof.
  induction l as [|x t IH]; [constructor|].
  rewrite sort_by_cons. by apply insert_by_sorted.
Qed.

(** Stability: the elements of one key keep their order. *)
Lemma insert_by_filter (k : Z) (x : A) (l : list A) :
  Sorted (Py.key_le key) l →
  filter (λ a, key a = k) (Py.insert_by key x l) = filter (λ a, key a = k) (x :: l).
Proof.
  induction 1 as [|y t Ht IH Hy]; simpl; [done|].
  destruct (Z.leb_spec (key x) (key y)) as [Hle|Hgt]; [done|].
  rewrite !filter_cons in *. rewrite IH.
  destruct (decide (key x = k)), (decide (key y = k)); try done. lia.
Qed.

Lemma sort_by_stable (k : Z) (l : list A) :
  filter (λ a, key a = k) (Py.sort_by key l) = filter (λ a, key a = k) l.
Proof.
  induction l as [|x t IH]; [done|].
  rewrite sort_by_cons, insert_by_filter by apply sort_by_sorted.
  by rewrite !filter_cons, IH.
Qed.
End SortFacts.

Lemma sorted_Sorted (l : list Z) : Sorted Z.le (Py.sorted l).
Proof. apply (sort_by_sorted id). Qed.

Lemma sorted_perm (l : list Z) : Py.sorted l ≡ₚ l.
Proof. apply sort_by_perm. Qed.

Lemma sorted_of_perm (l1 l2 : list Z) : l1 ≡ₚ l2 → Py.sorted l1 = Py.sorted l2.
Proof.
  intros H. apply (Sorted_unique Z.le); try apply sorted_Sorted.
  by rewrite !sorted_perm.
Qed.

Lemma sorted_fixed (l : list Z) : Sorted Z.le l → Py.sorted l = l.
Proof.
  intros H. apply (Sorted_unique Z.le); [apply sorted_Sorted|done|apply sorted_perm].
Qed.

(** ** PickPass: scoring *)

Section Score.
Import Py PickPass.

Lemma score_loop (l : list Z) (score previous : Z) :
  fst (foldl score_step (score, previous) l)
  = score + foldr Z.add 0 (Spec.run_openers (Some previous) l).
Proof.
  revert score previous. induction l as [|c t IH]; intros score previous; simpl.
  - lia.
  - rewrite IH.
    destruct (decide (c = previous + 1)) as [->|Hne].
    + rewrite bool_decide_eq_false_2 by tauto.
      rewrite bool_decide_eq_true_2 by (f_equal; lia). simpl. lia.
    + rewrite bool_decide_eq_true_2 by done.
      rewrite bool_decide_eq_false_2 by (intros [= ?]; lia). simpl. lia.
Qed.

(** The sentinel [-1] of the loop and a missing predecessor give the same
    sum: they differ on a first card [0] only, which adds nothing. *)
Lemma run_openers_sentinel (l : list Z) :
  foldr Z.add 0 (Spec.run_openers (Some (-1)) l)
  = foldr Z.add 0 (Spec.run_openers None l).
Proof.
  destruct l as [|c t]; simpl; [done|].
  case_bool_decide as H; simpl; [|done].
  injection H as H. replace c with 0 by lia. done.
Qed.

Lemma calculate_score_sorted (cards : list Z) :
  calculate_score cards = fst (foldl score_step (0, -1) (sorted cards)).
Proof. by destruct cards. Qed.

Lemma calculate_score_perm (c1 c2 : list Z) :
  c1 ≡ₚ c2 → calculate_score c1 = calculate_score c2.
Proof.
  intros H. rewrite !calculate_score_sorted. by rewrite (sorted_of_perm c1 c2).
Qed.
End Score.

(** C1. The score of a collection of cards is the sum of the cards that do
    not immediately follow their predecessor in ascending order; the empty
    collection scores 0; the score does not depend on the order of the
    cards; [[]], [[5]], [[5,6,7]] and [[5,7]] score 0, 5, 5 and 12. The
    order in question is the ascending rearrangement of the cards. *)
Theorem calculate_score_runs :
  (∀ cards, PickPass.calculate_score cards = Spec.score cards) ∧
  PickPass.calculate_score [] = 0 ∧
  (∀ c1 c2, c1 ≡ₚ c2 → PickPass.calculate_score c1 = PickPass.calculate_score c2) ∧
  PickPass.calculate_score [5] = 5 ∧
  PickPass.calculate_score [5; 6; 7] = 5 ∧
  PickPass.calculate_score [5; 7] = 12 ∧
  (∀ cards, Sorted Z.le (Py.sorted cards) ∧ Py.sorted cards ≡ₚ cards).
Proof.
  split_and!; try (by vm_compute).
  - intros cards. rewrite calculate_score_sorted, score_loop, run_openers_sentinel.
    unfold Spec.score. lia.
  - apply calculate_score_perm.
  - intros cards. split; [apply sorted_Sorted|apply sorted_perm].
Qed.

Lemma calculate_score_runs_witness :
  PickPass.calculate_score [7; 5; 6] = PickPass.calculate_score [5; 6; 7].
Proof.
  apply (proj1 (proj2 (proj2 calculate_score_runs))).
  change ([7; 5; 6] ≡ₚ [5; 6] ++ [7]). apply Permutation_cons_append.
Defined.

(** ** PickPass: the take probability of an opponent *)

Section Predict.
Import Py PickPass.

(** The comparison with half the card, over the integers. *)
Lemma half_card_lt (card projected_pot : Z) :
  (Qc_of_Z card / 2 < Qc_of_Z projected_pot)%Qc ↔ card < 2 * projected_pot.
Proof.
  assert (H2 : (0 < 2)%Qc) by done.
  assert (Hhalf : (Qc_of_Z card / 2 * 2 = Qc_of_Z card)%Qc) by (field; done).
  rewrite Z2Qc_inj_lt, Z2Qc_inj_mul, Z2Qc_inj_2. split; intros H.
  - rewrite <- Hhalf, (Qcmult_comm 2). by apply Qcmult_lt_compat_r.
  - apply (Qcmult_lt_compat_r _ _ (/ 2)%Qc) in H; [|done].
    replace (2 * Qc_of_Z projected_pot * / 2)%Qc with (Qc_of_Z projected_pot) in H
      by (field; done).
    done.
Qed.
End Predict.

(** C2, as amended. The forced take of an opponent without chips is 1.0;
    a card that lowers the opponent's score is taken with 1.0 under 3 chips
    and with 0.8 from 3 chips on; otherwise 0.9 with at most 2 chips and a
    projected pot of at least 3, 0.6 when the pot exceeds half the card, and
    0.1 in the remaining case. *)
Theorem predict_opponent_action_cases (opp : PickPass.player) (card projected_pot : Z) :
  let r := PickPass.predict_opponent_action opp card projected_pot in
  let lowers := PickPass.calculate_score (PickPass.cards opp ++ [card])
                < PickPass.calculate_score (PickPass.cards opp) in
  let desperate := PickPass.chips opp ≤ 2 ∧ 3 ≤ projected_pot in
  (PickPass.chips opp = 0 → r = PickPass.p_1_0) ∧
  (PickPass.chips opp ≠ 0 → lowers → PickPass.chips opp < 3 → r = PickPass.p_1_0) ∧
  (PickPass.chips opp ≠ 0 → lowers → 3 ≤ PickPass.chips opp → r = PickPass.p_0_8) ∧
  (PickPass.chips opp ≠ 0 → ¬ lowers → desperate → r = PickPass.p_0_9) ∧
  (PickPass.chips opp ≠ 0 → ¬ lowers → ¬ desperate → card < 2 * projected_pot →
     r = PickPass.p_0_6) ∧
  (PickPass.chips opp ≠ 0 → ¬ lowers → ¬ desperate → 2 * projected_pot ≤ card →
     r = PickPass.p_0_1).
Proof.
  intros r lowers desperate. subst r lowers desperate.
  unfold PickPass.predict_opponent_action.
  repeat case_bool_decide; simpl; repeat split; intros;
    try done; try lia;
    match goal with
    | H : (_ < _)%Qc |- _ => apply half_card_lt in H; lia
    | H : ¬ (_ < _)%Qc |- _ => rewrite half_card_lt in H; lia
    end.
Qed.

Lemma predict_opponent_action_cases_witness :
  PickPass.predict_opponent_action (PickPass.Player "Ann" [6] 5 true) 5 0
  = PickPass.p_0_8.
Proof.
  apply (proj1 (proj2 (proj2
           (predict_opponent_action_cases (PickPass.Player "Ann" [6] 5 true) 5 0))));
    simpl; [lia|by vm_compute|lia].
Defined.

(** C2, as the specification words it, fails: an opponent with one chip
    whose score the card lowers takes with 1.0, not 0.8; and with five
    chips the answer is 0.8 although the opponent does not hold under 3. *)
Lemma predict_opponent_action_counterexample :
  let opp := PickPass.Player "Ann" [6] 1 true in
  PickPass.chips opp ≠ 0 ∧
  PickPass.calculate_score (PickPass.cards opp ++ [5])
    < PickPass.calculate_score (PickPass.cards opp) ∧
  PickPass.chips opp < 3 ∧
  PickPass.predict_opponent_action opp 5 0 = PickPass.p_1_0 ∧
  PickPass.predict_opponent_action opp 5 0 ≠ PickPass.p_0_8 ∧
  PickPass.predict_opponent_action opp 5 0 ≠ Spec.take_probability opp 5 0.
Proof. vm_compute. repeat split; discriminate. Qed.

(** ** PickPass: the transitions *)

Section PlayTurn.
Import Py PickPass.

Lemma get_state_valid (g : game) :
  (current_player_idx g < length (players g))%nat →
  ∃ st, get_state g = Return st ∧ s_players st = players g ∧ s_pot st = pot g.
Proof.
  intros H. apply lookup_lt_is_Some_2 in H as [p Hp].
  unfold get_state. rewrite Hp. eauto.
Qed.

Lemma next_seat_valid (i n : nat) : (i < n)%nat → ((i + 1) `mod` n < n)%nat.
Proof. intros H. apply Nat.mod_upper_bound. lia. Qed.

Lemma take_branch_idx (g : game) (p : player) :
  (current_player_idx g < length (players g))%nat →
  (current_player_idx (take_branch g p) < length (players (take_branch g p)))%nat.
Proof.
  intros H. unfold take_branch.
  destruct (deck g); simpl; rewrite length_insert; by apply next_seat_valid.
Qed.

Lemma pass_branch_idx (g : game) (p : player) :
  (current_player_idx g < length (players g))%nat →
  (current_player_idx (pass_branch g p) < length (players (pass_branch g p)))%nat.
Proof.
  intros H. unfold pass_branch. simpl. rewrite length_insert. by apply next_seat_valid.
Qed.

Lemma returns_with_state (g : game) :
  (current_player_idx g < length (players g))%nat →
  ∃ st, get_state g = Return st ∧
        (st ← get_state g; Return (g, st)) = Return (g, st).
Proof.
  intros H. destruct (get_state_valid g H) as (st & Hst & _).
  exists st. by rewrite Hst.
Qed.

(** The identity check, decided. *)
Lemma check_accepted (chk : option string) (p : player) :
  truthy chk && bool_decide (Some (name p) ≠ chk) = false ↔ Spec.accepted chk p.
Proof.
  unfold Spec.accepted. destruct (truthy chk); simpl.
  - rewrite bool_decide_eq_false. split.
    + intros H. right. by destruct (decide (Some (name p) = chk)).
    + intros [|]; [done|]. naive_solver.
  - naive_solver.
Qed.

Lemma play_turn_turn (g : game) (action : string) (chk : option string) (p : player) :
  players g !! current_player_idx g = Some p →
  ∃ g' st, play_turn g action chk = Return (g', st) ∧ get_state g' = Return st
           ∧ Spec.turn g action chk p g'.
Proof.
  intros Hp.
  assert (Hidx : (current_player_idx g < length (players g))%nat)
    by (apply lookup_lt_is_Some_1; eauto).
  destruct (returns_with_state g Hidx) as (st & Hst & Hret).
  destruct (returns_with_state _ (take_branch_idx g p Hidx)) as (stt & Hstt & Hrett).
  destruct (returns_with_state _ (pass_branch_idx g p Hidx)) as (stp & Hstp & Hretp).
  unfold play_turn. simpl. rewrite Hp.
  destruct (truthy chk && bool_decide (Some (name p) ≠ chk)) eqn:Hchk.
  { exists g, st. split_and!; [done..|]. constructor. left.
    rewrite <- check_accepted. by rewrite Hchk. }
  apply check_accepted in Hchk.
  case_bool_decide as Htake.
  { exists (take_branch g p), stt. split_and!; [done..|]. constructor 2; auto. }
  case_bool_decide as Hpass.
  - case_bool_decide as Hchips.
    + exists (pass_branch g p), stp. split_and!; [done..|]. by constructor 3.
    + simpl. exists (take_branch g p), stt. split_and!; [done..|].
      constructor 2; [done|]. right. split; [done|lia].
  - exists g, st. split_and!; [done..|]. constructor. by right.
Qed.
End PlayTurn.

Section PickPassFacts.
Import Py PickPass.

Lemma take_branch_players (g : game) (p : player) :
  players (take_branch g p)
  = <[current_player_idx g :=
        Player (name p) (cards p ++ [current_card g]) (chips p + pot g) (is_human p)]>
      (players g).
Proof. unfold take_branch. by destruct (deck g). Qed.

Lemma take_branch_pot (g : game) (p : player) : pot (take_branch g p) = 0.
Proof. unfold take_branch. by destruct (deck g). Qed.

(** Replacing one summand. *)
Lemma sum_insert (l : list Z) (i : nat) (x y : Z) :
  l !! i = Some x →
  foldr Z.add 0 (<[i:=y]> l) = foldr Z.add 0 l - x + y.
Proof.
  revert i. induction l as [|a t IH]; intros [|i] H; simplify_eq/=; [lia|].
  rewrite (IH i H). lia.
Qed.

Lemma chips_insert (l : list player) (i : nat) (q : player) :
  chips <$> <[i:=q]> l = <[i:=chips q]> (chips <$> l).
Proof. apply list_fmap_insert. Qed.

Lemma turn_total_chips (g g' : game) (action : string) (chk : option string)
    (p : player) :
  players g !! current_player_idx g = Some p →
  Spec.turn g action chk p g' → total_chips g' = total_chips g.
Proof.
  intros Hp Ht.
  assert (Hc : (chips <$> players g) !! current_player_idx g = Some (chips p))
    by (by rewrite list_lookup_fmap, Hp).
  destruct Ht; [done| |]; unfold total_chips.
  - rewrite take_branch_players, take_branch_pot, chips_insert.
    rewrite (sum_insert _ _ _ _ Hc). simpl. lia.
  - unfold pass_branch. simpl. rewrite chips_insert.
    rewrite (sum_insert _ _ _ _ Hc). simpl. lia.
Qed.

Lemma turn_nonneg (g g' : game) (action : string) (chk : option string) (p : player) :
  players g !! current_player_idx g = Some p →
  Spec.turn g action chk p g' →
  0 ≤ pot g → Forall (λ q, 0 ≤ chips q) (players g) →
  0 ≤ pot g' ∧ Forall (λ q, 0 ≤ chips q) (players g').
Proof.
  intros Hp Ht Hpot Hall.
  assert (Hq : 0 ≤ chips p) by (by eapply (Forall_lookup_1 _ _ _ _ Hall)).
  destruct Ht; [done| |].
  - rewrite take_branch_players, take_branch_pot. split; [done|].
    apply Forall_insert; [done|]. simpl. lia.
  - unfold pass_branch. simpl. split; [lia|].
    apply Forall_insert; [done|]. simpl. lia.
Qed.

Lemma play_turn_lookup (g g' : game) (action : string) (chk : option string)
    (st : snapshot) :
  play_turn g action chk = Return (g', st) →
  ∃ p, players g !! current_player_idx g = Some p ∧ Spec.turn g action chk p g'.
Proof.
  intros H.
  destruct (players g !! current_player_idx g) as [p|] eqn:Hp.
  - destruct (play_turn_turn g action chk p Hp) as (g2 & st2 & Hr & _ & Ht).
    rewrite Hr in H. simplify_eq. eauto.
  - unfold play_turn in H. simpl in H. by rewrite Hp in H.
Qed.

Lemma init_nonneg (human_players : list string) (shuffled : list Z) (start : nat)
    (g : game) :
  init human_players shuffled start = Return g →
  pot g = 0 ∧ Forall (λ q, chips q = start_chips) (players g).
Proof.
  unfold init. destruct (drop cards_removed shuffled); [done|].
  intros [= <-]. simpl. split; [done|].
  apply Forall_app. split; apply Forall_fmap, Forall_true; done.
Qed.

Lemma reachable_nonneg (g : game) :
  Spec.reachable g → 0 ≤ pot g ∧ Forall (λ q, 0 ≤ chips q) (players g).
Proof.
  induction 1 as [hp sh start g _ Hinit _|g action chk g' st _ [IH1 IH2] Hplay].
  - apply init_nonneg in Hinit as [-> Hall]. split; [done|].
    eapply Forall_impl; [exact Hall|]. intros q ->. done.
  - apply play_turn_lookup in Hplay as (p & Hp & Ht).
    by eapply turn_nonneg.
Qed.
End PickPassFacts.




(** C5. The chips of the players and the pot add up to the same total after
    every call of [play_turn]; a pass moves one chip of the acting player to
    the pot; a take moves the whole pot to the acting player and nothing
    else. *)
Theorem play_turn_conserves_chips (g : PickPass.game) (action : string)
    (chk : option string) (p : PickPass.player) :
  PickPass.players g !! PickPass.current_player_idx g = Some p →
  ∃ g' st,
    PickPass.play_turn g action chk = Py.Return (g', st) ∧
    PickPass.total_chips g' = PickPass.total_chips g ∧
    (action = "pass"%string → Spec.accepted chk p → 0 < PickPass.chips p →
       PickPass.pot g' = PickPass.pot g + 1 ∧
       PickPass.chips <$> PickPass.players g'
       = <[PickPass.current_player_idx g := PickPass.chips p - 1]>
           (PickPass.chips <$> PickPass.players g)) ∧
    (action = "take"%string → Spec.accepted chk p →
       PickPass.pot g' = 0 ∧
       PickPass.chips <$> PickPass.players g'
       = <[PickPass.current_player_idx g := PickPass.chips p + PickPass.pot g]>
           (PickPass.chips <$> PickPass.players g)).
Proof.
  intros Hp.
  destruct (play_turn_turn g action chk p Hp) as (g' & st & Hr & Hst & Ht).
  exists g', st. split; [done|]. split; [by eapply turn_total_chips|].
  split; intros Ha Hacc; [intros Hchips|].
  - destruct Ht as [[?|[_ ?]]|_ [?|[_ ?]]|_ _ _]; try done; try (subst; done); try lia.
    unfold PickPass.pass_branch. simpl. by rewrite chips_insert.
  - destruct Ht as [[?|[? _]]|_ _|_ ? _]; try done; try (subst; done).
    by rewrite take_branch_players, take_branch_pot, chips_insert.
Qed.

Lemma play_turn_conserves_chips_witness :
  let g := PickPass.Game
             [PickPass.Player "Ann" [] 11 true; PickPass.Player "Bob" [] 11 true]
             [4; 5] 2 7 0 false [] in
  ∃ g' st,
    PickPass.play_turn g "take" None = Py.Return (g', st) ∧
    PickPass.total_chips g' = PickPass.total_chips g.
Proof.
  destruct (play_turn_conserves_chips
              (PickPass.Game
                 [PickPass.Player "Ann" [] 11 true; PickPass.Player "Bob" [] 11 true]
                 [4; 5] 2 7 0 false [])
              "take" None (PickPass.Player "Ann" [] 11 true) eq_refl)
    as (g' & st & H1 & H2 & _).
  exists g', st. split; assumption.
Defined.

(** C6. A pass of the current player who holds no chip is the forced take:
    the player receives the face-up card and the pot. No chip count of a
    game is below zero, and no transition takes one below zero. *)
Theorem pass_without_chips_is_take :
  (∀ (g : PickPass.game) (chk : option string) (p : PickPass.player),
     PickPass.players g !! PickPass.current_player_idx g = Some p →
     Spec.accepted chk p →
     PickPass.chips p = 0 →
     PickPass.play_turn g "pass" chk = PickPass.play_turn g "take" None ∧
     ∃ st,
       PickPass.play_turn g "pass" chk = Py.Return (PickPass.take_branch g p, st) ∧
       PickPass.players (PickPass.take_branch g p) !! PickPass.current_player_idx g
       = Some (PickPass.Player (PickPass.name p)
                 (PickPass.cards p ++ [PickPass.current_card g])
                 (PickPass.pot g) (PickPass.is_human p)) ∧
       PickPass.pot (PickPass.take_branch g p) = 0) ∧
  (∀ (g g' : PickPass.game) (action : string) (chk : option string)
     (st : PickPass.snapshot),
     PickPass.play_turn g action chk = Py.Return (g', st) →
     0 ≤ PickPass.pot g →
     Forall (λ q, 0 ≤ PickPass.chips q) (PickPass.players g) →
     0 ≤ PickPass.pot g' ∧ Forall (λ q, 0 ≤ PickPass.chips q) (PickPass.players g')) ∧
  (∀ g : PickPass.game,
     Spec.reachable g →
     0 ≤ PickPass.pot g ∧ Forall (λ q, 0 ≤ PickPass.chips q) (PickPass.players g)).
Proof.
  split; [|split; [|apply reachable_nonneg]].
  - intros g chk p Hp Hacc Hchips.
    destruct (play_turn_turn g "pass" chk p Hp) as (g1 & st1 & Hr1 & _ & Ht1).
    destruct (play_turn_turn g "take" None p Hp) as (g2 & st2 & Hr2 & Hst2 & Ht2).
    assert (g1 = PickPass.take_branch g p) as ->.
    { destruct Ht1 as [[?|[_ ?]]|_ _|_ _ ?]; try done. lia. }
    assert (g2 = PickPass.take_branch g p) as ->.
    { destruct Ht2 as [[Hrej|[? _]]|_ _|_ [=] _]; try done.
      destruct Hrej. by left. }
    assert (st1 = st2) as ->.
    { unfold PickPass.play_turn in Hr1.
      simpl in Hr1. rewrite Hp in Hr1.
      apply check_accepted in Hacc. rewrite Hacc in Hr1.
      rewrite bool_decide_eq_false_2 in Hr1 by lia.
      simpl in Hr1. rewrite Hst2 in Hr1. by simplify_eq/=. }
    split; [congruence|]. exists st2. split; [done|].
    rewrite take_branch_players, take_branch_pot. split; [|done].
    rewrite list_lookup_insert_eq by (apply lookup_lt_is_Some_1; eauto).
    by rewrite Hchips, Z.add_0_l.
  - intros g g' action chk st Hplay Hpot Hall.
    apply play_turn_lookup in Hplay as (p & Hp & Ht). by eapply turn_nonneg.
Qed.

Lemma pass_without_chips_is_take_witness :
  let g := PickPass.Game
             [PickPass.Player "Ann" [30] 0 true; PickPass.Player "Bob" [] 19 true]
             [4; 5] 3 7 0 false [] in
  PickPass.play_turn g "pass" (Some "Ann"%string) = PickPass.play_turn g "take" None.
Proof.
  apply (proj1 (proj1 pass_without_chips_is_take
                  (PickPass.Game
                     [PickPass.Player "Ann" [30] 0 true; PickPass.Player "Bob" [] 19 true]
                     [4; 5] 3 7 0 false [])
                  (Some "Ann"%string) (PickPass.Player "Ann" [30] 0 true)
                  eq_refl (or_intror eq_refl) eq_refl)).
Defined.

Section EndGame.
Import Py PickPass.

Lemma take_branch_last (g : game) (p : player) :
  deck g = [] →
  game_over (take_branch g p) = true ∧
  leaderboard (take_branch g p)
  = sort_by final_score (entry_of <$> players (take_branch g p)).
Proof. intros H. unfold take_branch. rewrite H. done. Qed.

Lemma take_branch_draw (g : game) (p : player) :
  deck g ≠ [] →
  game_over (take_branch g p) = game_over g ∧
  leaderboard (take_branch g p) = leaderboard g.
Proof. intros H. unfold take_branch. destruct (deck g); done. Qed.

Lemma take_branch_game_over (g : game) (p : player) :
  game_over g = true → game_over (take_branch g p) = true.
Proof. intros H. unfold take_branch. destruct (deck g); done. Qed.

Lemma get_state_game_over (g : game) (st : snapshot) :
  get_state g = Return st →
  s_game_over st = game_over g ∧ s_leaderboard st = leaderboard g.
Proof.
  unfold get_state. destruct (players g !! current_player_idx g); [|done].
  by intros [= <-].
Qed.
End EndGame.

(** C9, as amended. A take while the draw pile is empty, the card taken
    being the last one, ends the game: [game_over] is true from then on, and
    the leaderboard holds one entry per player, whose [final_score] is the
    score of the player's cards minus the player's chips, in ascending order
    of [final_score], players of equal [final_score] in their seat order. A
    transition while the draw pile holds a card leaves [game_over] and the
    leaderboard as they are. *)
Theorem take_of_last_card_ends_game :
  (∀ (g : PickPass.game) (chk : option string) (p : PickPass.player),
     PickPass.players g !! PickPass.current_player_idx g = Some p →
     Spec.accepted chk p →
     PickPass.deck g = [] →
     ∃ g' st,
       PickPass.play_turn g "take" chk = Py.Return (g', st) ∧
       PickPass.game_over g' = true ∧
       PickPass.s_game_over st = true ∧
       PickPass.s_leaderboard st = PickPass.leaderboard g' ∧
       length (PickPass.leaderboard g') = length (PickPass.players g') ∧
       PickPass.leaderboard g' ≡ₚ PickPass.entry_of <$> PickPass.players g' ∧
       (∀ e, e ∈ PickPass.leaderboard g' →
             ∃ q, q ∈ PickPass.players g' ∧
                  PickPass.e_name e = PickPass.name q ∧
                  PickPass.final_score e
                  = PickPass.calculate_score (PickPass.cards q) - PickPass.chips q) ∧
       Sorted (Py.key_le PickPass.final_score) (PickPass.leaderboard g') ∧
       (∀ k, filter (λ e, PickPass.final_score e = k) (PickPass.leaderboard g')
             = filter (λ e, PickPass.final_score e = k)
                 (PickPass.entry_of <$> PickPass.players g'))) ∧
  (∀ (g g' : PickPass.game) (action : string) (chk : option string)
     (st : PickPass.snapshot),
     PickPass.play_turn g action chk = Py.Return (g', st) →
     (PickPass.game_over g = true → PickPass.game_over g' = true) ∧
     (PickPass.deck g ≠ [] →
      PickPass.game_over g' = PickPass.game_over g ∧
      PickPass.leaderboard g' = PickPass.leaderboard g)).
Proof.
  split.
  - intros g chk p Hp Hacc Hdeck.
    destruct (play_turn_turn g "take" chk p Hp) as (g' & st & Hr & Hst & Ht).
    assert (g' = PickPass.take_branch g p) as ->.
    { destruct Ht as [[?|[? _]]|_ _|_ [=] _]; done. }
    destruct (take_branch_last g p Hdeck) as [Hover Hboard].
    destruct (get_state_game_over _ _ Hst) as [Hso Hsl].
    exists (PickPass.take_branch g p), st.
    split_and!; try done; try congruence; rewrite Hboard.
    + by rewrite sort_by_length, length_fmap.
    + apply sort_by_perm.
    + intros e He. rewrite sort_by_perm in He.
      apply list_elem_of_fmap in He as (q & -> & Hq). by exists q.
    + apply sort_by_sorted.
    + intros k. apply sort_by_stable.
  - intros g g' action chk st Hplay.
    apply play_turn_lookup in Hplay as (p & Hp & Ht).
    destruct Ht; split; try done.
    + by apply take_branch_game_over.
    + by apply take_branch_draw.
Qed.

Lemma take_of_last_card_ends_game_witness :
  let g := PickPass.Game
             [PickPass.Player "Ann" [30] 4 true; PickPass.Player "Bob" [8; 9] 15 true]
             [] 3 7 0 false [] in
  ∃ g' st,
    PickPass.play_turn g "take" (Some "Ann"%string) = Py.Return (g', st) ∧
    PickPass.game_over g' = true ∧
    length (PickPass.leaderboard g') = length (PickPass.players g').
Proof.
  destruct (proj1 take_of_last_card_ends_game
              (PickPass.Game
                 [PickPass.Player "Ann" [30] 4 true; PickPass.Player "Bob" [8; 9] 15 true]
                 [] 3 7 0 false [])
              (Some "Ann"%string) (PickPass.Player "Ann" [30] 4 true)
              eq_refl (or_intror eq_refl) eq_refl)
    as (g' & st & H1 & H2 & _ & _ & H3 & _).
  exists g', st. split; [assumption|]. split; assumption.
Defined.

(** C9, as the specification words it, fails: the take that draws the last
    card empties the draw pile, and the game goes on with an empty
    leaderboard; the game ends with the take of that last card. *)
Lemma take_emptying_pile_counterexample :
  let g := PickPass.Game
             [PickPass.Player "Ann" [30] 4 true; PickPass.Player "Bob" [8; 9] 15 true]
             [12] 3 7 0 false [] in
  ∃ g' st,
    PickPass.play_turn g "take" (Some "Ann"%string) = Py.Return (g', st) ∧
    PickPass.deck g ≠ [] ∧
    PickPass.deck g' = [] ∧
    PickPass.current_card g' = 12 ∧
    PickPass.game_over g' = false ∧
    PickPass.s_game_over st = false ∧
    PickPass.leaderboard g' = [].
Proof.
  eexists _, _. split; [reflexivity|]. split; [discriminate|]. repeat split.
Qed.

(** ** BidWiser: the bot *)

Section Bot.
Import Py BidWiser.

Lemma foldl_agree {A B : Type} (f g : A → B → A) (l : list B) (a : A) :
  (∀ x y, f x y = g x y) → foldl f a l = foldl g a l.
Proof.
  intros H. revert a. induction l as [|y t IH]; intros a; simpl; [done|].
  by rewrite H, IH.
Qed.

(** The prizes still to come enter the search only through the question
    whether there are any. *)
Lemma total_outcome_remaining (bh ph : list Z) (pot : Z) (rem1 rem2 : list Z)
    (bs ps : Qc) (b p : Z) :
  rem1 ≠ [] → rem2 ≠ [] →
  total_outcome bh ph pot rem1 bs ps b p = total_outcome bh ph pot rem2 bs ps b p.
Proof.
  intros H1 H2. unfold total_outcome.
  destruct rem1 as [|z1 r1], rem2 as [|z2 r2]; try done.
Qed.

Lemma best_options_remaining (bh ph : list Z) (pot : Z) (rem1 rem2 : list Z)
    (bs ps : Qc) :
  rem1 ≠ [] → rem2 ≠ [] →
  best_options_of bh ph pot rem1 bs ps = best_options_of bh ph pot rem2 bs ps.
Proof.
  intros H1 H2. unfold best_options_of. apply foldl_agree.
  intros [m opts] b. unfold options_step, min_utility_of.
  rewrite (foldl_agree _
             (λ min_utility p,
                let total := Fin (total_outcome bh ph pot rem2 bs ps b p) in
                if ext_lt total min_utility then total else min_utility)); [done|].
  intros x y. simpl. by rewrite (total_outcome_remaining _ _ _ rem1 rem2).
Qed.

Lemma min_utility_of_not_NegInf (bh ph : list Z) (pot : Z) (rem : list Z)
    (bs ps : Qc) (b : Z) :
  min_utility_of bh ph pot rem bs ps b ≠ NegInf.
Proof.
  unfold min_utility_of.
  assert (H : PosInf ≠ NegInf) by done. revert H.
  generalize PosInf. generalize (total_outcome bh ph pot rem bs ps b).
  intros f. induction ph as [|p t IH]; intros acc Hacc; simpl; [done|].
  apply IH. destruct acc; try case_bool_decide; done.
Qed.

Lemma ext_lt_NegInf (u : ext) : u ≠ NegInf → ext_lt NegInf u = true.
Proof. by destruct u. Qed.

Section Loop.
Context (bh ph : list Z) (pot : Z) (rem : list Z) (bs ps : Qc).

Lemma step_options (cs : list Z) (m : ext) (opts : list Z) (x : Z) :
  x ∈ snd (foldl (options_step bh ph pot rem bs ps) (m, opts) cs) → x ∈ opts ∨ x ∈ cs.
Proof.
  revert m opts. induction cs as [|c t IH]; intros m opts; simpl; [by left|].
  destruct (ext_lt m _); [|destruct (ext_eq _ m)]; intros H; apply IH in H;
    rewrite ?elem_of_app, ?list_elem_of_singleton in H; rewrite elem_of_cons;
    tauto.
Qed.

Lemma step_keeps (cs : list Z) (m : ext) (opts : list Z) :
  m ≠ NegInf → opts ≠ [] → snd (foldl (options_step bh ph pot rem bs ps) (m, opts) cs) ≠ [].
Proof.
  revert m opts. induction cs as [|c t IH]; intros m opts Hm Ho; simpl; [done|].
  destruct (ext_lt m _) eqn:Hlt; [|destruct (ext_eq _ m)]; apply IH; try done.
  - apply min_utility_of_not_NegInf.
  - by destruct opts.
Qed.

Lemma step_first (c : Z) (cs : list Z) :
  snd (foldl (options_step bh ph pot rem bs ps) (NegInf, []) (c :: cs)) ≠ [].
Proof.
  change (snd (foldl (options_step bh ph pot rem bs ps)
                 (options_step bh ph pot rem bs ps (NegInf, []) c) cs) ≠ []).
  unfold options_step at 2. rewrite ext_lt_NegInf by apply min_utility_of_not_NegInf.
  apply step_keeps; [apply min_utility_of_not_NegInf|done].
Qed.
End Loop.

Lemma sorted_reverse_perm (l : list Z) : sorted_reverse l ≡ₚ l.
Proof. apply sort_by_perm. Qed.

Lemma best_options_in_hand (bh ph : list Z) (pot : Z) (rem : list Z) (bs ps : Qc)
    (x : Z) :
  x ∈ snd (best_options_of bh ph pot rem bs ps) → x ∈ bh.
Proof.
  unfold best_options_of. intros H. apply step_options in H as [H|H]; [set_solver|].
  by rewrite sorted_reverse_perm in H.
Qed.

Lemma best_options_nonempty (bh ph : list Z) (pot : Z) (rem : list Z) (bs ps : Qc) :
  bh ≠ [] → snd (best_options_of bh ph pot rem bs ps) ≠ [].
Proof.
  intros H. unfold best_options_of.
  destruct (sorted_reverse bh) as [|c cs] eqn:Hs.
  - apply (f_equal length) in Hs. unfold sorted_reverse in Hs.
    rewrite sort_by_length in Hs. by destruct bh.
  - apply step_first.
Qed.

Lemma random_choice_in (o : oracle) (seq : list Z) :
  seq ≠ [] → ∃ x, random_choice o seq = Return x ∧ x ∈ seq.
Proof.
  intros H. unfold random_choice.
  destruct (lookup_lt_is_Some_2 seq (choice o `mod` length seq)%nat) as [x Hx].
  { apply Nat.mod_upper_bound. by destruct seq. }
  rewrite Hx. exists x. split; [done|]. by eapply list_elem_of_lookup_2.
Qed.

Lemma minimax_move_in_hand (o : oracle) (bh ph : list Z) (pot : Z) (rem : list Z)
    (bs ps : Qc) :
  bh ≠ [] → ∃ c, minimax_move o bh ph pot rem bs ps = Return c ∧ c ∈ bh.
Proof.
  intros H. unfold minimax_move.
  destruct (random_choice_in o _ (best_options_nonempty bh ph pot rem bs ps H))
    as (x & Hx & Hin).
  destruct bh; [done|]. exists x. split; [done|]. by eapply best_options_in_hand.
Qed.

Lemma heuristic_loop_in_hand (o : oracle) (w : gmap Z Qc) (tw : Qc) (ph : list Z)
    (pot : Z) (cs : list Z) (best : Z) (ev : ext) (i : nat) :
  let r := fst (foldl (λ '(best_card, best_ev, i) my_card,
                         let ev := (ev_of w tw ph pot my_card + jitter o i)%Qc in
                         if ext_lt best_ev (Fin ev)
                         then (my_card, Fin ev, S i)
                         else (best_card, best_ev, S i))
                      (best, ev, i) cs).1 in
  r = best ∨ r ∈ cs.
Proof.
  revert best ev i. induction cs as [|c t IH]; intros best ev i; simpl; [by left|].
  destruct (ext_lt ev _); [destruct (IH c (Fin (ev_of w tw ph pot c + jitter o i)%Qc) (S i))
                          |destruct (IH best ev (S i))]; set_solver.
Qed.

Lemma heuristic_move_in_hand (o : oracle) (bh ph : list Z) (pot : Z) :
  bh ≠ [] → ∃ c, heuristic_move o bh ph pot = Return c ∧ c ∈ bh.
Proof.
  intros H. unfold heuristic_move. destruct (weights_of ph pot) as [w tw].
  destruct bh as [|first t]; [done|].
  eexists. split; [done|].
  destruct (heuristic_loop_in_hand o w tw ph pot (first :: t) first NegInf O);
    set_solver.
Qed.

Lemma decide_move_in_hand (o : oracle) (bh ph : list Z) (pot : Z) (rem : list Z)
    (bs ps : Qc) :
  bh ≠ [] → ∃ c, decide_move o bh ph pot rem bs ps = Return c ∧ c ∈ bh.
Proof.
  intros H. unfold decide_move. case_bool_decide.
  - by apply minimax_move_in_hand.
  - by apply heuristic_move_in_hand.
Qed.
End Bot.

(** C3. [decide_move] uses [minimax_move] for a hand of at most 6 cards and
    [heuristic_move] above. The search of [minimax_move] does not scale with
    the hand: [depth_limit] is computed and never read, any two prize queues
    that are not empty give the same choice, and for the hands [[1,2]]
    against [[1,2]], a pot of 2, the last prize 7 and 41 points each it answers 2 where a
    search to the end of the game answers 1. *)
Theorem minimax_move_is_one_ply :
  (∀ o bh ph pot rem bs ps,
     (length bh ≤ 6)%nat →
     BidWiser.decide_move o bh ph pot rem bs ps
     = BidWiser.minimax_move o bh ph pot rem bs ps) ∧
  (∀ o bh ph pot rem bs ps,
     (6 < length bh)%nat →
     BidWiser.decide_move o bh ph pot rem bs ps = BidWiser.heuristic_move o bh ph pot) ∧
  (∀ o bh ph pot rem1 rem2 bs ps,
     rem1 ≠ [] → rem2 ≠ [] →
     BidWiser.minimax_move o bh ph pot rem1 bs ps
     = BidWiser.minimax_move o bh ph pot rem2 bs ps) ∧
  BidWiser.depth_limit [1; 2] = 99 ∧
  (∀ o, BidWiser.minimax_move o [1; 2] [1; 2] 2 [7] (Qc_of_Z 41) (Qc_of_Z 41) = Py.Return 2) ∧
  BidSpec.full_depth_options [1; 2] [1; 2] 2 [7] (Qc_of_Z 41) (Qc_of_Z 41) = [1].
Proof.
  split_and!.
  - intros. unfold BidWiser.decide_move. by rewrite bool_decide_eq_true_2.
  - intros. unfold BidWiser.decide_move. rewrite bool_decide_eq_false_2; [done|lia].
  - intros o bh ph pot rem1 rem2 bs ps H1 H2. unfold BidWiser.minimax_move.
    by rewrite (best_options_remaining bh ph pot rem1 rem2).
  - reflexivity.
  - intros o. unfold BidWiser.minimax_move.
    replace (BidWiser.best_options_of [1; 2] [1; 2] 2 [7] (Qc_of_Z 41) (Qc_of_Z 41)).2
      with [2]
      by (by vm_compute).
    unfold BidWiser.random_choice. simpl length.
    by rewrite Nat.mod_1_r.
  - by vm_compute.
Qed.

Lemma minimax_move_is_one_ply_witness :
  BidWiser.minimax_move (BidWiser.Oracle 0 (λ _, 0%Qc)) [1; 2] [1; 2] 2 [7] 0%Qc 0%Qc
  = BidWiser.minimax_move (BidWiser.Oracle 0 (λ _, 0%Qc)) [1; 2] [1; 2] 2 [3; 7] 0%Qc 0%Qc.
Proof.
  apply (proj1 (proj2 (proj2 minimax_move_is_one_ply))); discriminate.
Defined.

(** ** BidWiser: the rounds *)

Section Remove.
Import Py.

Lemma contains_true (x : Z) (l : list Z) : x ∈ l → contains x l = true.
Proof. intros H. unfold contains. by rewrite bool_decide_eq_true_2. Qed.

(** [l.remove(x)] takes one [x] out of [l]. *)
Lemma remove_perm (x : Z) (l : list Z) : x ∈ l → l ≡ₚ x :: remove x l.
Proof.
  induction l as [|y t IH]; intros H; [by apply elem_of_nil in H|].
  simpl. case_bool_decide as Hxy; [by subst|].
  apply elem_of_cons in H as [H|H]; [done|].
  rewrite (IH H) at 1. apply Permutation_swap.
Qed.

Lemma remove_length (x : Z) (l : list Z) :
  x ∈ l → length l = S (length (remove x l)).
Proof. intros H. rewrite (remove_perm x l H) at 1. done. Qed.

Lemma remove_NoDup (x : Z) (l : list Z) :
  x ∈ l → NoDup l → (x ∉ remove x l) ∧ NoDup (remove x l).
Proof.
  intros H Hnd. rewrite (remove_perm x l H) in Hnd. by apply NoDup_cons in Hnd.
Qed.

Lemma remove_subset (x y : Z) (l : list Z) : x ∈ l → y ∈ remove x l → y ∈ l.
Proof. intros H Hy. rewrite (remove_perm x l H). by apply elem_of_cons; right. Qed.
End Remove.

Section Rounds.
Import Py BidWiser.

Lemma resolve_round_resolved (g : game) (c1 c2 : Z) :
  p1_move g = Some c1 → p2_move g = Some c2 →
  c1 ∈ p1_hand g → c2 ∈ p2_hand g →
  let pot_val := current_prize g + carry_over_pot g in
  ∃ s1 s2 carry label,
    resolve_round g = Return (BidSpec.resolved g c1 c2 s1 s2 carry label) ∧
    (c1 ≠ c2 → carry = 0) ∧
    (c2 < c1 → 0 < pot_val →
       s1 = (p1_score g + Qc_of_Z pot_val)%Qc ∧ s2 = p2_score g) ∧
    (c1 < c2 → s1 = p1_score g ∧ s2 = (p2_score g + Qc_of_Z pot_val)%Qc) ∧
    (c1 = c2 → prizes g ≠ [] →
       carry = carry_over_pot g + current_prize g ∧
       s1 = p1_score g ∧ s2 = p2_score g) ∧
    (c1 = c2 → prizes g = [] →
       carry = 0 ∧
       s1 = (p1_score g + Qc_of_Z pot_val / 2)%Qc ∧
       s2 = (p2_score g + Qc_of_Z pot_val / 2)%Qc).
Proof.
  intros H1 H2 Hin1 Hin2 pot_val. subst pot_val.
  unfold resolve_round, BidSpec.resolved. rewrite H1, H2.
  rewrite (contains_true _ _ Hin1), (contains_true _ _ Hin2).
  unfold resolve_round_logic.
  destruct (prizes g) as [|n r]; destruct (game_over g);
    repeat case_bool_decide; simpl; try congruence;
    eexists _, _, _, _; (split; [reflexivity|]);
    split_and!; intros; try done; try lia.
Qed.
End Rounds.

Section Sound.
Import Py BidWiser.

(** Pending moves and the bot memory may change as long as the moves are
    cards of the hands and the memory keeps its keys. *)
Lemma sound_update (g : game) (m1 m2 : option Z) (bt : option smart_bot) :
  BidSpec.sound g →
  (∀ c, m1 = Some c → c ∈ p1_hand g) →
  (∀ c, m2 = Some c → c ∈ p2_hand g) →
  (p2_is_bot g = true → is_Some bt) →
  (∀ b', bt = Some b' →
     ∃ b, bot g = Some b ∧
          ∀ z, is_Some (opponent_history b !! z) → is_Some (opponent_history b' !! z)) →
  BidSpec.sound
    (Game (prizes g) (p1_name g) (p1_hand g) (p1_score g) m1 (p2_name g) (p2_is_bot g)
       bt (p2_hand g) (p2_score g) m2 (carry_over_pot g) (round_history g)
       (current_prize g) (game_over g)).
Proof.
  intros [] Hm1 Hm2 Hb Hmem. constructor; simpl; try done.
  intros b' Hb' Hover. destruct (Hmem b' Hb') as (b & Hbg & Hkeys).
  destruct (wf_memory b Hbg Hover) as [Hc Hp]. split; [by apply Hkeys|].
  intros z Hz. by apply Hkeys, Hp.
Qed.

Lemma identify_cases (g : game) (player_name : string) (card : Z) :
  identify g player_name card = g ∨
  (card ∈ p1_hand g ∧ identify g player_name card = set_p1_move g (Some card)) ∨
  (card ∈ p2_hand g ∧ p2_is_bot g = false ∧
   identify g player_name card = set_p2_move g (Some card)).
Proof.
  unfold identify, contains.
  case_bool_decide; [case_bool_decide; auto|].
  case_bool_decide; simpl; [|auto].
  destruct (p2_is_bot g); simpl; [auto|]. case_bool_decide; auto.
Qed.

Lemma set_p1_move_sound (g : game) (c : Z) :
  BidSpec.sound g → c ∈ p1_hand g → BidSpec.sound (set_p1_move g (Some c)).
Proof.
  intros Hs Hc. apply sound_update; try done.
  - by intros ? [= <-].
  - by destruct Hs.
  - by destruct Hs.
  - intros b' Hb'. exists b'. done.
Qed.

Lemma set_p2_move_sound (g : game) (c : Z) :
  BidSpec.sound g → c ∈ p2_hand g → BidSpec.sound (set_p2_move g (Some c)).
Proof.
  intros Hs Hc. apply sound_update; try done.
  - by destruct Hs.
  - by intros ? [= <-].
  - by destruct Hs.
  - intros b' Hb'. exists b'. done.
Qed.

Lemma identify_sound (g : game) (player_name : string) (card : Z) :
  BidSpec.sound g → BidSpec.sound (identify g player_name card).
Proof.
  intros Hs. destruct (identify_cases g player_name card) as [->|[[? ->]|(? & _ & ->)]];
    [done|by apply set_p1_move_sound|by apply set_p2_move_sound].
Qed.

Lemma record_move_keys (b : smart_bot) (prize_card opponent_move : Z) :
  is_Some (opponent_history b !! prize_card) →
  ∃ b', record_move b prize_card opponent_move = Return b' ∧
        ∀ z, is_Some (opponent_history b !! z) → is_Some (opponent_history b' !! z).
Proof.
  intros [l Hl]. unfold record_move. rewrite Hl. eexists. split; [done|].
  intros z Hz. simpl. rewrite lookup_insert_is_Some. destruct (decide (prize_card = z)); auto.
Qed.

(** The bot answers whenever it is asked. *)
Lemma bot_reply_sound (o : oracle) (g : game) :
  BidSpec.sound g → game_over g = false →
  ∃ g2, bot_reply o g = Return g2 ∧ BidSpec.sound g2 ∧
        prizes g2 = prizes g ∧ p1_hand g2 = p1_hand g ∧ p2_hand g2 = p2_hand g ∧
        round_history g2 = round_history g ∧ current_prize g2 = current_prize g ∧
        carry_over_pot g2 = carry_over_pot g ∧ game_over g2 = game_over g ∧
        p1_move g2 = p1_move g ∧ p2_is_bot g2 = p2_is_bot g ∧
        (p2_is_bot g = false → g2 = g) ∧
        (p1_move g = None → g2 = g) ∧
        (p2_is_bot g = true → is_Some (p1_move g) → is_Some (p2_move g2)).
Proof.
  intros Hs Hover. unfold bot_reply.
  destruct (p1_move g) as [m1|] eqn:Hm1; [|by exists g; split_and!].
  destruct (p2_is_bot g) eqn:Hbot; [|by exists g; split_and!].
  destruct (BidSpec.wf_bot g Hs Hbot) as [b Hb]. rewrite Hb.
  destruct (BidSpec.wf_hands g Hs Hover) as [_ Hlen].
  destruct (decide_move_in_hand o (p2_hand g) (p1_hand g)
              (current_prize g + carry_over_pot g) (prizes g) (p2_score g) (p1_score g))
    as (m2 & -> & Hin).
  { intros Hnil. by rewrite Hnil in Hlen. }
  destruct (BidSpec.wf_memory g Hs b Hb Hover) as [Hkey _].
  destruct (record_move_keys b (current_prize g) m1 Hkey) as (b' & Hrec & Hkeys).
  simpl. rewrite Hrec. simpl. eexists. split; [done|].
  split_and!; try done; try (by eauto).
  apply (sound_update g (p1_move g) (Some m2) (Some b')); try done.
  - by apply (BidSpec.wf_move1 g Hs).
  - by intros c [= <-].
  - intros b2 [= <-]. eauto.
Qed.

(** The history after one more round, for either participant: [card] reads
    the card of the participant from an entry. *)
Lemma played_snoc (card : round → Z) (hand : list Z) (c : Z) (h : list round)
    (r0 : round) :
  c ∈ hand → NoDup hand → card r0 = c →
  (∀ r, r ∈ h → card r ∉ hand) →
  ∀ r, r ∈ h ++ [r0] → card r ∉ remove c hand.
Proof.
  intros Hc Hnd H0 Hold r [Hr|Hr]%elem_of_app.
  - intros Hin. by apply (Hold r Hr), (remove_subset c).
  - apply list_elem_of_singleton in Hr as ->. rewrite H0.
    by apply remove_NoDup.
Qed.

Lemma once_snoc (card : round → Z) (hand : list Z) (c : Z) (h : list round)
    (r0 : round) :
  c ∈ hand → card r0 = c →
  (∀ r, r ∈ h → card r ∉ hand) →
  NoDup (card <$> h) → NoDup (card <$> h ++ [r0]).
Proof.
  intros Hc H0 Hold Hnd. rewrite fmap_app. apply NoDup_app. split_and!; [done| |].
  - intros x (r & -> & Hr)%list_elem_of_fmap Hx.
    apply list_elem_of_singleton in Hx. simpl in Hx.
    apply (Hold r Hr). by rewrite Hx, H0.
  - apply NoDup_singleton.
Qed.

Lemma resolved_sound (g : game) (c1 c2 : Z) (s1 s2 : Qc) (carry : Z) (label : string) :
  BidSpec.sound g → game_over g = false →
  c1 ∈ p1_hand g → c2 ∈ p2_hand g → 0 ≤ carry →
  BidSpec.sound (BidSpec.resolved g c1 c2 s1 s2 carry label)
  ∧ BidSpec.idle (BidSpec.resolved g c1 c2 s1 s2 carry label).
Proof.
  intros Hs Hover H1 H2 Hcarry. split; [|by constructor; simpl; auto].
  destruct (BidSpec.wf_hands g Hs Hover) as [Hl1 Hl2].
  destruct (BidSpec.wf_prize g Hs Hover) as [Hpos Hall].
  assert (Hnext : game_over g || bool_decide (prizes g = []) = false →
                  ∃ n r, prizes g = n :: r).
  { intros Hrun. rewrite Hover in Hrun. apply bool_decide_eq_false in Hrun.
    destruct (prizes g) as [|n r]; [done|eauto]. }
  constructor; cbn [BidSpec.resolved prizes p1_hand p2_hand p1_move p2_move bot
                    p2_is_bot round_history current_prize game_over carry_over_pot].
  - by apply remove_NoDup, Hs.
  - by apply remove_NoDup, Hs.
  - apply played_snoc; try done; apply Hs.
  - apply played_snoc; try done; apply Hs.
  - apply (once_snoc _ (p1_hand g) c1); try done; apply Hs.
  - apply (once_snoc _ (p2_hand g) c2); try done; apply Hs.
  - done.
  - done.
  - apply Hs.
  - intros b Hb Hrun. destruct (Hnext Hrun) as (n & r & Hp).
    destruct (BidSpec.wf_memory g Hs b Hb Hover) as [_ Hkeys].
    rewrite Hp in *. simpl. split; [apply Hkeys; by left|].
    intros z Hz. apply Hkeys. by right.
  - intros Hrun. destruct (Hnext Hrun) as (n & r & Hp). rewrite Hp in *. simpl in *.
    rewrite (remove_length c1 _ H1) in Hl1. rewrite (remove_length c2 _ H2) in Hl2.
    split; congruence.
  - done.
  - intros Hrun. destruct (Hnext Hrun) as (n & r & Hp). rewrite Hp in *. simpl.
    by apply Forall_cons in Hall.
Qed.
End Sound.

Section Register.
Import Py BidWiser.

Lemma identify_fields (g : game) (player_name : string) (card : Z) :
  let g1 := identify g player_name card in
  prizes g1 = prizes g ∧ p1_hand g1 = p1_hand g ∧ p2_hand g1 = p2_hand g ∧
  round_history g1 = round_history g ∧ current_prize g1 = current_prize g ∧
  carry_over_pot g1 = carry_over_pot g ∧ game_over g1 = game_over g ∧
  p2_is_bot g1 = p2_is_bot g.
Proof.
  intros g1. subst g1.
  by destruct (identify_cases g player_name card) as [->|[[? ->]|(? & _ & ->)]].
Qed.

Lemma register_move_step (o : oracle) (g : game) (player_name : string) (card : Z) :
  BidSpec.wf g → game_over g = false →
  ∃ g', register_move o g player_name card = Return (g', true) ∧
        BidSpec.wf g' ∧ (BidSpec.no_round g g' ∨ BidSpec.round_played g g').
Proof.
  intros [Hs Hi] Hover. unfold register_move. rewrite Hover.
  pose proof (identify_sound g player_name card Hs) as Hs1.
  destruct (identify_fields g player_name card)
    as (Hp1 & Hh1 & Hh2 & Hr1 & Hc1 & Hco1 & Ho1 & Hb1).
  rewrite <- Ho1 in Hover.
  destruct (bot_reply_sound o _ Hs1 Hover)
    as (g2 & -> & Hs2 & Hp2 & Hh12 & Hh22 & Hr2 & Hc2 & Hco2 & Ho2 & Hm2 & Hb2
        & _ & _ & Hans).
  simpl. rewrite <- Ho2 in Hover.
  destruct (p1_move g2) as [c1|] eqn:Hm1; [destruct (p2_move g2) as [c2|] eqn:Hm2'|].
  - pose proof (BidSpec.wf_move1 g2 Hs2 c1 Hm1) as Hin1.
    pose proof (BidSpec.wf_move2 g2 Hs2 c2 Hm2') as Hin2.
    destruct (resolve_round_resolved g2 c1 c2 Hm1 Hm2' Hin1 Hin2)
      as (s1 & s2 & carry & label & -> & Hdec & _ & _ & Htie & Hsplit).
    simpl. eexists. split; [done|].
    assert (Hcarry : 0 ≤ carry).
    { destruct (decide (c1 = c2)) as [Heq|Hne]; [|by rewrite Hdec].
      destruct (decide (prizes g2 = [])) as [He|He].
      - by destruct (Hsplit Heq He) as [-> _].
      - destruct (Htie Heq He) as [-> _].
        pose proof (BidSpec.wf_carry g2 Hs2).
        destruct (BidSpec.wf_prize g2 Hs2 Hover). lia. }
    split; [by apply resolved_sound|]. right.
    exists c1, c2, label. simpl. rewrite Hh12, Hh22, Hr2, Hc2, Hh1, Hh2, Hr1, Hc1 in *.
    done.
  - simpl. exists g2. split; [done|]. split; [split; [done|]|].
    + constructor; [by right|]. intros Hbot. exfalso.
      rewrite Hb2 in Hbot. destruct (Hans Hbot) as [m Hm]; [by rewrite <- Hm2|].
      congruence.
    + left. unfold BidSpec.no_round. by rewrite Hh12, Hh22, Hr2.
  - simpl. exists g2. split; [done|]. split; [split; [done|]|].
    + constructor; [by left|done].
    + left. unfold BidSpec.no_round. by rewrite Hh12, Hh22, Hr2.
Qed.

Lemma new_bot_keys (z : Z) :
  z ∈ seqZ 1 13 → is_Some (opponent_history new_bot !! z).
Proof.
  intros Hz. unfold new_bot. cbn [opponent_history].
  apply not_eq_None_Some. intros Hnone.
  apply not_elem_of_list_to_map_2 in Hnone. apply Hnone.
  rewrite <- list_fmap_compose. by rewrite list_fmap_id.
Qed.

Lemma init_wf (human_players : list string) (shuffled : list Z) (g : game) :
  shuffled ≡ₚ seqZ 1 13 → init human_players shuffled = Return g → BidSpec.wf g.
Proof.
  intros Hperm. unfold init.
  destruct human_players as [|h0 others]; [done|].
  assert (Hlen : length shuffled = 13%nat) by (by rewrite Hperm).
  assert (Hall : ∀ z, z ∈ shuffled → z ∈ seqZ 1 13) by (intros z; by rewrite Hperm).
  destruct shuffled as [|prize rest]; [done|].
  assert (Hb : ∀ bt b, bt = Some new_bot ∨ bt = None → bt = Some b →
               is_Some (opponent_history b !! prize) ∧
               ∀ z, z ∈ rest → is_Some (opponent_history b !! z)).
  { intros bt b [-> | ->] [= <-]. split; [apply new_bot_keys, Hall; by left|].
    intros z Hz. apply new_bot_keys, Hall. by right. }
  assert (Hpos : 0 < prize ∧ Forall (λ z, 0 < z) rest).
  { split; [|apply Forall_forall; intros z Hz];
      [assert (Hin : prize ∈ seqZ 1 13) by (apply Hall; by left)
      |assert (Hin : z ∈ seqZ 1 13) by (apply Hall; by right)];
      apply elem_of_seqZ in Hin; lia. }
  destruct others as [|h1 ?]; intros [= <-];
    (split; [constructor|constructor]); simpl; try done;
    try apply NoDup_seqZ; try (intros _; simpl in Hlen; split; congruence);
    try apply NoDup_nil_2; try (by intros r Hr%elem_of_nil); eauto.
Qed.

Lemma reachable_wf (g : game) : BidSpec.reachable g → BidSpec.wf g.
Proof.
  induction 1 as [hp sh g Hperm Hinit|o g n c g' changed _ IH Hreg].
  - by eapply init_wf.
  - destruct (game_over g) eqn:Hover.
    + unfold register_move in Hreg. rewrite Hover in Hreg. by simplify_eq.
    + destruct (register_move_step o g n c IH Hover) as (g2 & Hr & Hwf & _).
      rewrite Hr in Hreg. by simplify_eq.
Qed.
End Register.

(** C7. In a round resolution the carry-over is reset to 0 when the cards
    differ, and grows by the current prize when they tie and prizes remain;
    it grows in no other case. When the cards tie and no prize remains, each
    score grows by half the pot, the prize plus the carried-over amount, the
    two gains add up to the pot, and the carry-over is reset to 0. *)
Theorem resolve_round_carry_over (g : BidWiser.game) (c1 c2 : Z) :
  BidWiser.p1_move g = Some c1 →
  BidWiser.p2_move g = Some c2 →
  let pot_val := BidWiser.current_prize g + BidWiser.carry_over_pot g in
  ∃ g',
    BidWiser.resolve_round g = Py.Return g' ∧
    (c1 ≠ c2 → BidWiser.carry_over_pot g' = 0) ∧
    (c1 = c2 → BidWiser.prizes g ≠ [] →
       BidWiser.carry_over_pot g'
       = BidWiser.carry_over_pot g + BidWiser.current_prize g ∧
       BidWiser.p1_score g' = BidWiser.p1_score g ∧
       BidWiser.p2_score g' = BidWiser.p2_score g) ∧
    (c1 = c2 → BidWiser.prizes g = [] →
       BidWiser.carry_over_pot g' = 0 ∧
       (BidWiser.p1_score g' - BidWiser.p1_score g = Qc_of_Z pot_val / 2)%Qc ∧
       (BidWiser.p2_score g' - BidWiser.p2_score g = Qc_of_Z pot_val / 2)%Qc ∧
       ((BidWiser.p1_score g' - BidWiser.p1_score g)
        + (BidWiser.p2_score g' - BidWiser.p2_score g) = Qc_of_Z pot_val)%Qc) ∧
    (0 ≤ BidWiser.carry_over_pot g →
     BidWiser.carry_over_pot g < BidWiser.carry_over_pot g' →
     c1 = c2 ∧ BidWiser.prizes g ≠ [] ∧
     BidWiser.carry_over_pot g'
     = BidWiser.carry_over_pot g + BidWiser.current_prize g).
Proof.
  intros H1 H2 pot_val. subst pot_val.
  unfold BidWiser.resolve_round. rewrite H1, H2.
  unfold BidWiser.resolve_round_logic.
  destruct (BidWiser.prizes g) as [|n r]; repeat case_bool_decide; simpl;
    (eexists; split; [reflexivity|]); simpl;
    split_and!; intros; split_and?; try done; try lia; try ring; field; done.
Qed.

Lemma resolve_round_carry_over_witness :
  let g := BidWiser.Game [] "Ann" [4] (Qc_of_Z 40) (Some 4) "Bob" false None [4]
             (Qc_of_Z 39) (Some 4) 5 [] 7 false in
  ∃ g', BidWiser.resolve_round g = Py.Return g' ∧
        BidWiser.carry_over_pot g' = 0 ∧
        (BidWiser.p1_score g' - BidWiser.p1_score g = Qc_of_Z 12 / 2)%Qc.
Proof.
  destruct (resolve_round_carry_over
              (BidWiser.Game [] "Ann" [4] (Qc_of_Z 40) (Some 4) "Bob" false None [4]
                 (Qc_of_Z 39) (Some 4) 5 [] 7 false) 4 4 eq_refl eq_refl)
    as (g' & Hr & _ & _ & Hsplit & _).
  destruct (Hsplit eq_refl eq_refl) as (Hc & Hs1 & _).
  exists g'. split; [exact Hr|]. split; [exact Hc|exact Hs1].
Defined.

Section Moves.
Import Py BidWiser.

Lemma identify_moves (g : game) (player_name : string) (card : Z) :
  identify g player_name card
  = Laws.with_moves g (Played.first_move g player_name card)
      (Played.second_move g player_name card) (bot g).
Proof.
  unfold identify, Played.first_move, Played.second_move, contains.
  destruct g as [pz n1 h1 s1 m1 n2 isbot bt h2 s2 m2 co hist cp over]. simpl.
  destruct (decide (player_name = n1)) as [Hn1|Hn1].
  - rewrite (bool_decide_eq_true_2 (player_name = n1)) by done.
    rewrite (bool_decide_eq_false_2 (player_name ≠ n1 ∧ _)) by tauto.
    destruct (decide (card ∈ h1)) as [Hc|Hc].
    + rewrite (bool_decide_eq_true_2 (card ∈ h1)) by done.
      by rewrite bool_decide_eq_true_2 by done.
    + rewrite (bool_decide_eq_false_2 (card ∈ h1)) by done.
      by rewrite bool_decide_eq_false_2 by tauto.
  - rewrite (bool_decide_eq_false_2 (player_name = n1)) by done.
    rewrite (bool_decide_eq_false_2 (player_name = n1 ∧ _)) by tauto.
    destruct (decide (player_name = n2)) as [Hn2|Hn2]; destruct isbot; simpl;
      rewrite ?(bool_decide_eq_true_2 (player_name = n2)) by done;
      rewrite ?(bool_decide_eq_false_2 (player_name = n2)) by done; simpl;
      try (by rewrite bool_decide_eq_false_2 by (intros (_ & ? & ? & _); done)).
    destruct (decide (card ∈ h2)) as [Hc|Hc].
    + rewrite (bool_decide_eq_true_2 (card ∈ h2)) by done.
      by rewrite bool_decide_eq_true_2 by done.
    + rewrite (bool_decide_eq_false_2 (card ∈ h2)) by done.
      by rewrite bool_decide_eq_false_2 by tauto.
Qed.

Lemma first_move_in_hand (g : game) (player_name : string) (card c1 : Z) :
  BidSpec.sound g → Played.first_move g player_name card = Some c1 → c1 ∈ p1_hand g.
Proof.
  intros Hs. unfold Played.first_move. case_bool_decide as Hc.
  - intros [= <-]. tauto.
  - apply (BidSpec.wf_move1 g Hs).
Qed.

Lemma second_move_in_hand (g : game) (player_name : string) (card c2 : Z) :
  BidSpec.sound g → Played.second_move g player_name card = Some c2 → c2 ∈ p2_hand g.
Proof.
  intros Hs. unfold Played.second_move. case_bool_decide as Hc.
  - intros [= <-]. tauto.
  - apply (BidSpec.wf_move2 g Hs).
Qed.

(** The round [resolve_round] plays is the round of the two moves. *)
Lemma resolve_round_of (g : game) (m1 m2 : option Z) (bt : option smart_bot)
    (c1 c2 : Z) :
  m1 = Some c1 → m2 = Some c2 → c1 ∈ p1_hand g → c2 ∈ p2_hand g →
  ∃ g', resolve_round (Laws.with_moves g m1 m2 bt) = Return g' ∧
        Played.round_of g g' c1 c2.
Proof.
  intros -> -> Hin1 Hin2.
  destruct (resolve_round_resolved (Laws.with_moves g (Some c1) (Some c2) bt) c1 c2
              eq_refl eq_refl Hin1 Hin2) as (s1 & s2 & carry & label & Hr & _).
  eexists. split; [exact Hr|]. unfold Played.round_of. simpl. split_and!; eauto.
Qed.

(** What a call of [register_move] does with the moves. *)
Lemma register_move_moves (o : oracle) (g : game) (player_name : string) (card : Z) :
  BidSpec.wf g → game_over g = false →
  ∃ g',
    register_move o g player_name card = Return (g', true) ∧
    (p2_is_bot g = false →
     (∀ c1 c2, Played.first_move g player_name card = Some c1 →
               Played.second_move g player_name card = Some c2 →
               Played.round_of g g' c1 c2) ∧
     (Played.first_move g player_name card = None ∨
      Played.second_move g player_name card = None →
      g' = Laws.with_moves g (Played.first_move g player_name card)
             (Played.second_move g player_name card) (bot g))) ∧
    (p2_is_bot g = true →
     (∀ c1, Played.first_move g player_name card = Some c1 →
            c1 = card ∧
            ∃ c2, decide_move o (p2_hand g) (p1_hand g)
                    (current_prize g + carry_over_pot g) (prizes g)
                    (p2_score g) (p1_score g) = Return c2 ∧
                  Played.round_of g g' c1 c2) ∧
     (Played.first_move g player_name card = None → g' = g)).
Proof.
  intros [Hs [Hwait Hbotwait]] Hover.
  unfold register_move. rewrite Hover, identify_moves.
  pose proof (first_move_in_hand g player_name card) as Hin1.
  pose proof (second_move_in_hand g player_name card) as Hin2.
  destruct (p2_is_bot g) eqn:Hbot.
  - (* against the bot *)
    specialize (Hbotwait eq_refl).
    assert (Hm2 : Played.second_move g player_name card = p2_move g).
    { unfold Played.second_move. rewrite bool_decide_eq_false_2; [done|].
      intros (_ & _ & ? & _). congruence. }
    rewrite Hm2.
    destruct (Played.first_move g player_name card) as [c1|] eqn:Hm1.
    + assert (Hcard : c1 = card).
      { unfold Played.first_move in Hm1. case_bool_decide; congruence. }
      destruct (BidSpec.wf_bot g Hs Hbot) as [b Hb].
      destruct (BidSpec.wf_hands g Hs Hover) as [_ Hlen].
      destruct (decide_move_in_hand o (p2_hand g) (p1_hand g)
                  (current_prize g + carry_over_pot g) (prizes g) (p2_score g)
                  (p1_score g)) as (c2 & Hdec & Hc2).
      { intros Hnil. by rewrite Hnil in Hlen. }
      destruct (BidSpec.wf_memory g Hs b Hb Hover) as [Hkey _].
      destruct (record_move_keys b (current_prize g) c1 Hkey) as (b' & Hrec & _).
      destruct (resolve_round_of g (Some c1) (Some c2) (Some b') c1 c2
                  eq_refl eq_refl (Hin1 c1 Hs eq_refl) Hc2) as (g' & Hres & Hround).
      exists g'. split.
      * unfold bot_reply. cbn [Laws.with_moves p1_move p2_is_bot bot p2_hand p1_hand
          current_prize carry_over_pot prizes p2_score p1_score].
        rewrite Hbot, Hb, Hdec. cbn [mbind outcome_bind]. rewrite Hrec.
        cbn [mbind outcome_bind]. unfold set_bot, set_p2_move.
        cbn [Laws.with_moves prizes p1_name p1_hand p1_score p1_move p2_name
          p2_is_bot bot p2_hand p2_score p2_move carry_over_pot round_history
          current_prize game_over].
        change (Game (prizes g) (p1_name g) (p1_hand g) (p1_score g) (Some c1)
                  (p2_name g) (p2_is_bot g) (Some b') (p2_hand g) (p2_score g)
                  (Some c2) (carry_over_pot g) (round_history g) (current_prize g)
                  (game_over g))
          with (Laws.with_moves g (Some c1) (Some c2) (Some b')).
        by rewrite Hres.
      * split; [done|]. split; [|done]. intros c [= <-]. eauto.
    + exists g. split.
      * unfold bot_reply. cbn [Laws.with_moves p1_move]. cbn [mbind outcome_bind].
        unfold Played.first_move in Hm1. case_bool_decide; [done|].
        cbn [Laws.with_moves p1_move]. rewrite <- Hbotwait. by destruct g.
      * split; [done|]. split; [done|]. done.
  - (* two humans *)
    assert (Hreply : bot_reply o (Laws.with_moves g
                        (Played.first_move g player_name card)
                        (Played.second_move g player_name card) (bot g))
                     = Return (Laws.with_moves g
                                 (Played.first_move g player_name card)
                                 (Played.second_move g player_name card) (bot g))).
    { unfold bot_reply. cbn [Laws.with_moves p1_move p2_is_bot]. rewrite Hbot.
      by destruct (Played.first_move g player_name card). }
    rewrite Hreply. cbn [mbind outcome_bind]. cbn [Laws.with_moves p1_move p2_move].
    destruct (Played.first_move g player_name card) as [c1|] eqn:Hm1;
      [destruct (Played.second_move g player_name card) as [c2|] eqn:Hm2|].
    + destruct (resolve_round_of g (Some c1) (Some c2) (bot g) c1 c2
                  eq_refl eq_refl (Hin1 c1 Hs eq_refl) (Hin2 c2 Hs eq_refl))
        as (g' & Hres & Hround).
      exists g'. rewrite Hres. split; [done|]. split; [|done]. split.
      * by intros ? ? [= <-] [= <-].
      * by intros [|].
    + eexists. split; [done|]. split; [|done]. split; [done|]. done.
    + eexists. split; [done|]. split; [|done]. split; [done|]. done.
Qed.
End Moves.

(** C8. A call of [register_move] on a running game first takes the card
    of the caller as the move of that participant, when it is a card of the
    own hand. If both participants have moved then, the round of the two
    moves is resolved: each hand loses the card its owner played, and
    nothing else; against the bot the second card is the card [decide_move]
    chooses, a card of the hand of the bot. If a move is missing, no round
    is resolved and the hands stay. Over a game no participant plays a card
    twice: the cards of the history differ, none of them is in the hand any
    more, and a pending move is a card of the hand. *)
Theorem hands_lose_played_cards :
  (∀ (o : BidWiser.oracle) (g : BidWiser.game) (player_name : string) (card : Z),
     BidSpec.reachable g →
     BidWiser.game_over g = false →
     ∃ g',
       BidWiser.register_move o g player_name card = Py.Return (g', true) ∧
       (BidWiser.p2_is_bot g = false →
        (∀ c1 c2, Played.first_move g player_name card = Some c1 →
                  Played.second_move g player_name card = Some c2 →
                  Played.round_of g g' c1 c2) ∧
        (Played.first_move g player_name card = None ∨
         Played.second_move g player_name card = None →
         BidSpec.no_round g g' ∧
         BidWiser.p1_move g' = Played.first_move g player_name card ∧
         BidWiser.p2_move g' = Played.second_move g player_name card)) ∧
       (BidWiser.p2_is_bot g = true →
        (∀ c1, Played.first_move g player_name card = Some c1 →
               c1 = card ∧
               ∃ c2, BidWiser.decide_move o (BidWiser.p2_hand g) (BidWiser.p1_hand g)
                       (BidWiser.current_prize g + BidWiser.carry_over_pot g)
                       (BidWiser.prizes g) (BidWiser.p2_score g)
                       (BidWiser.p1_score g) = Py.Return c2 ∧
                     Played.round_of g g' c1 c2) ∧
        (Played.first_move g player_name card = None → g' = g)) ∧
       (∀ c1 c2, Played.round_of g g' c1 c2 →
          BidWiser.p1_hand g ≡ₚ c1 :: BidWiser.p1_hand g' ∧
          BidWiser.p2_hand g ≡ₚ c2 :: BidWiser.p2_hand g' ∧
          (c1 ∉ BidWiser.p1_hand g') ∧ (c2 ∉ BidWiser.p2_hand g') ∧
          length (BidWiser.p1_hand g) = S (length (BidWiser.p1_hand g')) ∧
          length (BidWiser.p2_hand g) = S (length (BidWiser.p2_hand g')))) ∧
  (∀ g : BidWiser.game,
     BidSpec.reachable g →
     NoDup (BidWiser.r_p1_card <$> BidWiser.round_history g) ∧
     NoDup (BidWiser.r_p2_card <$> BidWiser.round_history g) ∧
     (∀ r, r ∈ BidWiser.round_history g →
           (BidWiser.r_p1_card r ∉ BidWiser.p1_hand g) ∧
           (BidWiser.r_p2_card r ∉ BidWiser.p2_hand g)) ∧
     (∀ c, BidWiser.p1_move g = Some c → c ∈ BidWiser.p1_hand g) ∧
     (∀ c, BidWiser.p2_move g = Some c → c ∈ BidWiser.p2_hand g)).
Proof.
  split.
  - intros o g player_name card Hreach Hover.
    pose proof (reachable_wf g Hreach) as Hwf.
    destruct (register_move_moves o g player_name card Hwf Hover)
      as (g' & Hr & Hhuman & Hbot).
    exists g'. split_and!; [done| |done|].
    + intros Hb. destruct (Hhuman Hb) as [Hboth Hnone]. split; [done|].
      intros Hmiss. rewrite (Hnone Hmiss). by split_and!.
    + intros c1 c2 (Hin1 & Hin2 & Hh1 & Hh2 & _).
      destruct Hwf as [Hs _].
      destruct (remove_NoDup c1 _ Hin1 (BidSpec.wf_nodup1 g Hs)) as [Hout1 _].
      destruct (remove_NoDup c2 _ Hin2 (BidSpec.wf_nodup2 g Hs)) as [Hout2 _].
      rewrite Hh1, Hh2.
      split_and!; try done; first [by apply remove_perm|by apply remove_length].
  - intros g Hreach. destruct (reachable_wf g Hreach) as [Hs _].
    split_and!; [apply Hs..| |apply Hs|apply Hs].
    intros r Hr.
    split; first [by apply (BidSpec.wf_played1 g Hs)|by apply (BidSpec.wf_played2 g Hs)].
Qed.

Lemma hands_lose_played_cards_witness :
  ∃ g',
    BidWiser.register_move (BidWiser.Oracle 0 (λ _, 0%Qc))
      (BidWiser.Game (seqZ 2 12) "Ann" (seqZ 1 13) 0%Qc None "Bob" false None
         (seqZ 1 13) 0%Qc (Some 7) 0 [] 1 false)
      "Ann" 5
    = Py.Return (g', true) ∧
    Played.round_of
      (BidWiser.Game (seqZ 2 12) "Ann" (seqZ 1 13) 0%Qc None "Bob" false None
         (seqZ 1 13) 0%Qc (Some 7) 0 [] 1 false)
      g' 5 7 ∧
    BidWiser.p1_hand g' = [1; 2; 3; 4; 6; 7; 8; 9; 10; 11; 12; 13] ∧
    BidWiser.p2_hand g' = [1; 2; 3; 4; 5; 6; 8; 9; 10; 11; 12; 13].
Proof.
  destruct (proj1 hands_lose_played_cards (BidWiser.Oracle 0 (λ _, 0%Qc))
              (BidWiser.Game (seqZ 2 12) "Ann" (seqZ 1 13) 0%Qc None "Bob" false None
                 (seqZ 1 13) 0%Qc (Some 7) 0 [] 1 false)
              "Ann"%string 5
              (BidSpec.reachable_register_move (BidWiser.Oracle 0 (λ _, 0%Qc))
                 (BidWiser.Game (seqZ 2 12) "Ann" (seqZ 1 13) 0%Qc None "Bob" false
                    None (seqZ 1 13) 0%Qc None 0 [] 1 false)
                 "Bob" 7 _ true
                 (BidSpec.reachable_init ["Ann"; "Bob"]%string (seqZ 1 13) _
                    (Permutation_refl _) eq_refl)
                 eq_refl)
              eq_refl)
    as (g' & Hr & Hhuman & _).
  destruct (Hhuman eq_refl) as [Hboth _].
  pose proof (Hboth 5 7 eq_refl eq_refl) as Hround.
  exists g'. split; [exact Hr|]. split; [exact Hround|].
  destruct Hround as (_ & _ & Hh1 & Hh2 & _). split; [exact Hh1|exact Hh2].
Defined.

(** C10. Once the game is over [register_move] returns [False] and the state
    is the same. While the game runs it returns [True] on every call; a call
    under a name of neither participant, or with a card that is not in the
    hand of the caller, records no move and leaves the state as it is. *)
Theorem register_move_result :
  (∀ (o : BidWiser.oracle) (g : BidWiser.game) (player_name : string) (card : Z),
     BidWiser.game_over g = true →
     BidWiser.register_move o g player_name card = Py.Return (g, false)) ∧
  (∀ (o : BidWiser.oracle) (g : BidWiser.game) (player_name : string) (card : Z),
     BidSpec.reachable g →
     BidWiser.game_over g = false →
     ∃ g', BidWiser.register_move o g player_name card = Py.Return (g', true)) ∧
  (∀ (o : BidWiser.oracle) (g : BidWiser.game) (player_name : string) (card : Z),
     BidSpec.reachable g →
     BidWiser.game_over g = false →
     (player_name ≠ BidWiser.p1_name g ∧ player_name ≠ BidWiser.p2_name g) ∨
     (player_name = BidWiser.p1_name g ∧ card ∉ BidWiser.p1_hand g) ∨
     (player_name ≠ BidWiser.p1_name g ∧ player_name = BidWiser.p2_name g ∧
      card ∉ BidWiser.p2_hand g) →
     BidWiser.register_move o g player_name card = Py.Return (g, true)).
Proof.
  split_and!.
  - intros o g player_name card Hover. unfold BidWiser.register_move. by rewrite Hover.
  - intros o g player_name card Hreach Hover.
    destruct (register_move_step o g player_name card (reachable_wf g Hreach) Hover)
      as (g' & Hr & _). eauto.
  - intros o g player_name card Hreach Hover Hcase.
    destruct (reachable_wf g Hreach) as [Hs [Hwait Hbot]].
    assert (Hid : BidWiser.identify g player_name card = g).
    { unfold BidWiser.identify, Py.contains.
      destruct Hcase as [[Hn1 Hn2]|[[-> Hc]|(Hn1 & -> & Hc)]].
      - rewrite bool_decide_eq_false_2 by done.
        by rewrite (bool_decide_eq_false_2 (player_name = _)) by done.
      - rewrite bool_decide_eq_true_2 by done. by rewrite bool_decide_eq_false_2 by done.
      - rewrite bool_decide_eq_false_2 by done.
        destruct (_ && _); [|done]. by rewrite bool_decide_eq_false_2 by done. }
    unfold BidWiser.register_move. rewrite Hover, Hid.
    assert (Hrep : BidWiser.bot_reply o g = Py.Return g).
    { unfold BidWiser.bot_reply. destruct (BidWiser.p1_move g) eqn:Hm; [|done].
      destruct (BidWiser.p2_is_bot g) eqn:Hb; [|done]. specialize (Hbot eq_refl). congruence. }
    rewrite Hrep. simpl.
    destruct Hwait as [-> | ->]; [done|]. by destruct (BidWiser.p1_move g).
Qed.

Lemma register_move_result_witness :
  BidWiser.register_move (BidWiser.Oracle 0 (λ _, 0%Qc))
    (BidWiser.Game (seqZ 2 12) "Ann" (seqZ 1 13) 0%Qc None "Bob" false None
       (seqZ 1 13) 0%Qc None 0 [] 1 false)
    "Eve" 5
  = Py.Return
      (BidWiser.Game (seqZ 2 12) "Ann" (seqZ 1 13) 0%Qc None "Bob" false None
         (seqZ 1 13) 0%Qc None 0 [] 1 false, true).
Proof.
  apply (proj2 (proj2 register_move_result));
    [exact (BidSpec.reachable_init ["Ann"; "Bob"]%string (seqZ 1 13) _
              (Permutation_refl _) eq_refl)
    |reflexivity
    |left; split; discriminate].
Defined.

(** * Further properties *)

(** ** PickPass: seats, players and cards *)

Section Seats.
Import Py PickPass.

Lemma turn_seat (g g' : game) (action : string) (chk : option string) (p : player) :
  players g !! current_player_idx g = Some p →
  Spec.turn g action chk p g' →
  (current_player_idx g' < length (players g'))%nat.
Proof.
  intros Hp Ht.
  assert (Hidx : (current_player_idx g < length (players g))%nat)
    by (apply lookup_lt_is_Some_1; eauto).
  destruct Ht; [done|by apply take_branch_idx|by apply pass_branch_idx].
Qed.

Lemma reachable_seat (g : game) :
  Spec.reachable g → (current_player_idx g < length (players g))%nat.
Proof.
  induction 1 as [hp sh start g _ Hinit Hstart|g action chk g' st _ IH Hplay].
  - unfold init in Hinit. destruct (drop cards_removed sh); [done|].
    injection Hinit as <-. done.
  - apply play_turn_lookup in Hplay as (p & Hp & Ht). by eapply turn_seat.
Qed.

(** A transition changes the cards and the chips of the players, never
    their names, their kind or their number. *)
Lemma turn_identities (g g' : game) (action : string) (chk : option string)
    (p : player) :
  players g !! current_player_idx g = Some p →
  Spec.turn g action chk p g' →
  name <$> players g' = name <$> players g ∧
  is_human <$> players g' = is_human <$> players g.
Proof.
  intros Hp Ht. destruct Ht; [done| |].
  - rewrite take_branch_players, !list_fmap_insert. simpl.
    split; apply list_insert_id; by rewrite list_lookup_fmap, Hp.
  - unfold pass_branch. simpl. rewrite !list_fmap_insert. simpl.
    split; apply list_insert_id; by rewrite list_lookup_fmap, Hp.
Qed.

Lemma turn_next_seat (g g' : game) (action : string) (chk : option string)
    (p : player) :
  Spec.turn g action chk p g' →
  (Spec.accepted chk p ∧ (action = "take"%string ∨ action = "pass"%string) →
   current_player_idx g'
   = ((current_player_idx g + 1) `mod` length (players g))%nat) ∧
  (¬ (Spec.accepted chk p ∧ (action = "take"%string ∨ action = "pass"%string)) →
   g' = g).
Proof.
  intros Ht. destruct Ht as [Hig|Hacc Hact|Hacc Hact Hchips].
  - split; [|done]. intros [Hacc Hact]. destruct Hig as [?|[? ?]]; [done|].
    by destruct Hact.
  - split; [intros _|intros []; split; [done|tauto]].
    unfold take_branch. destruct (deck g); simpl; by rewrite length_insert.
  - split; [intros _|intros []; split; [done|tauto]].
    unfold pass_branch. simpl. by rewrite length_insert.
Qed.
End Seats.

(** X1. In every state of a game the seat at turn is a seat of the table,
    and [play_turn] returns for every action and identity, with a state of
    the game. *)
Theorem play_turn_never_raises (g : PickPass.game) (action : string)
    (chk : option string) :
  Spec.reachable g →
  (PickPass.current_player_idx g < length (PickPass.players g))%nat ∧
  ∃ g' st,
    PickPass.play_turn g action chk = Py.Return (g', st) ∧
    PickPass.get_state g' = Py.Return st ∧
    Spec.reachable g'.
Proof.
  intros Hreach. pose proof (reachable_seat g Hreach) as Hidx. split; [done|].
  apply lookup_lt_is_Some_2 in Hidx as [p Hp].
  destruct (play_turn_turn g action chk p Hp) as (g' & st & Hr & Hst & _).
  exists g', st. split_and!; [done..|]. by econstructor 2.
Qed.

(** X2. A transition keeps the names, the human flags and the number of the
    players; an accepted take or pass gives the turn to the next seat, in
    cyclic order, and every other call leaves the whole state as it is. *)
Theorem play_turn_rotates_seats (g : PickPass.game) (action : string)
    (chk : option string) (p : PickPass.player) :
  PickPass.players g !! PickPass.current_player_idx g = Some p →
  ∃ g' st,
    PickPass.play_turn g action chk = Py.Return (g', st) ∧
    PickPass.name <$> PickPass.players g' = PickPass.name <$> PickPass.players g ∧
    PickPass.is_human <$> PickPass.players g'
    = PickPass.is_human <$> PickPass.players g ∧
    length (PickPass.players g') = length (PickPass.players g) ∧
    (Spec.accepted chk p ∧ (action = "take"%string ∨ action = "pass"%string) →
     PickPass.current_player_idx g'
     = ((PickPass.current_player_idx g + 1) `mod` length (PickPass.players g))%nat) ∧
    (¬ (Spec.accepted chk p ∧ (action = "take"%string ∨ action = "pass"%string)) →
     g' = g).
Proof.
  intros Hp.
  destruct (play_turn_turn g action chk p Hp) as (g' & st & Hr & _ & Ht).
  destruct (turn_identities g g' action chk p Hp Ht) as [Hn Hh].
  destruct (turn_next_seat g g' action chk p Ht) as [Hnext Hsame].
  exists g', st. split_and!; try done.
  by rewrite <- (length_fmap PickPass.name), Hn, length_fmap.
Qed.

Lemma play_turn_rotates_seats_witness :
  let g := PickPass.Game
             [PickPass.Player "Ann" [] 11 true; PickPass.Player "Bob" [] 11 true]
             [4; 5] 2 7 1 false [] in
  ∃ g' st,
    PickPass.play_turn g "pass" (Some "Bob"%string) = Py.Return (g', st) ∧
    PickPass.current_player_idx g' = 0%nat.
Proof.
  destruct (play_turn_rotates_seats
              (PickPass.Game
                 [PickPass.Player "Ann" [] 11 true; PickPass.Player "Bob" [] 11 true]
                 [4; 5] 2 7 1 false [])
              "pass" (Some "Bob"%string) (PickPass.Player "Bob" [] 11 true) eq_refl)
    as (g' & st & Hr & _ & _ & _ & Hnext & _).
  exists g', st. split; [exact Hr|].
  apply Hnext. split; [right; reflexivity|right; reflexivity].
Defined.

Lemma play_turn_never_raises_witness :
  ∃ g' st,
    PickPass.play_turn
      (PickPass.Game
         [PickPass.Player "Ann" [] 11 true; PickPass.Player "Bob" [] 11 true;
          PickPass.Player "Cy" [] 11 true; PickPass.Player "Di" [] 11 true;
          PickPass.Player "Ed" [] 11 true]
         (seqZ 13 23) 0 12 0 false [])
      "pass" None
    = Py.Return (g', st).
Proof.
  destruct (play_turn_never_raises _ "pass" None
              (Spec.reachable_init ["Ann"; "Bob"; "Cy"; "Di"; "Ed"]%string
                 PickPass.full_deck 0 _ (Permutation_refl _) eq_refl
                 (Nat.lt_0_succ 4)))
    as (_ & g' & st & Hr & _).
  exists g', st. exact Hr.
Defined.

(** ** PickPass: the deal *)

Section Deal.
Import Py PickPass.

Lemma dealt_cards (shuffled : list Z) :
  shuffled ≡ₚ full_deck →
  ∃ c rest,
    drop cards_removed shuffled = c :: rest ∧ length rest = 23%nat ∧
    NoDup (c :: rest) ∧ Forall Laws.card_range (c :: rest).
Proof.
  intros Hperm.
  assert (Hlen : length (drop cards_removed shuffled) = 24%nat).
  { rewrite length_drop, Hperm. done. }
  assert (Hnd : NoDup (drop cards_removed shuffled)).
  { apply (sublist_NoDup _ shuffled); [|apply sublist_drop].
    rewrite Hperm. apply NoDup_seqZ. }
  assert (Hall : Forall Laws.card_range (drop cards_removed shuffled)).
  { apply Forall_drop. rewrite Hperm. apply Forall_forall.
    intros c Hc%elem_of_seqZ. unfold Laws.card_range, min_card, max_card in *. lia. }
  destruct (drop cards_removed shuffled) as [|c rest]; [done|].
  exists c, rest. split_and!; try done. simpl in Hlen. lia.
Qed.
End Deal.

Section Cards.
Import Py PickPass.

(** The pile of one seat grows by [extra]; so do the cards won. *)
Lemma won_insert (l : list player) (i : nat) (p p' : player) (extra : list Z) :
  l !! i = Some p → cards p' = cards p ++ extra →
  concat (cards <$> <[i:=p']> l) ≡ₚ concat (cards <$> l) ++ extra.
Proof.
  revert i. induction l as [|q t IH]; intros [|i] Hp Hc; simplify_eq/=.
  - rewrite Hc. by rewrite <- !(assoc app), (comm app extra).
  - rewrite (IH i Hp Hc). by rewrite (assoc app).
Qed.

Lemma take_branch_won (g : game) (p : player) :
  players g !! current_player_idx g = Some p →
  Laws.won (take_branch g p) ≡ₚ Laws.won g ++ [current_card g].
Proof.
  intros Hp. unfold Laws.won. rewrite take_branch_players.
  by apply (won_insert _ _ p).
Qed.

Lemma pass_branch_won (g : game) (p : player) :
  players g !! current_player_idx g = Some p →
  Laws.won (pass_branch g p) = Laws.won g.
Proof.
  intros Hp. unfold Laws.won, pass_branch. simpl.
  rewrite list_fmap_insert. simpl. f_equal. apply list_insert_id.
  by rewrite list_lookup_fmap, Hp.
Qed.

Lemma turn_in_play (g g' : game) (action : string) (chk : option string) (p : player) :
  players g !! current_player_idx g = Some p →
  Spec.turn g action chk p g' →
  (deck g ≠ [] → Laws.in_play g' ≡ₚ Laws.in_play g) ∧
  (deck g = [] →
   Spec.accepted chk p →
   action = "take"%string ∨ (action = "pass"%string ∧ chips p ≤ 0) →
   Laws.won g' ≡ₚ Laws.in_play g ∧ game_over g' = true) ∧
  (game_over g' = false → game_over g = false ∧ Laws.in_play g' ≡ₚ Laws.in_play g).
Proof.
  intros Hp Ht.
  assert (Hpass : Laws.in_play (pass_branch g p) = Laws.in_play g).
  { unfold Laws.in_play. fold (Laws.won (pass_branch g p)). by rewrite pass_branch_won. }
  assert (Htake : deck g ≠ [] → Laws.in_play (take_branch g p) ≡ₚ Laws.in_play g).
  { intros Hd. unfold Laws.in_play. fold (Laws.won (take_branch g p)).
    rewrite take_branch_won by done. unfold Laws.won, take_branch.
    destruct (deck g) as [|c rest]; [done|]. simpl.
    by rewrite <- (assoc app). }
  assert (Hlast : deck g = [] →
                  Laws.won (take_branch g p) ≡ₚ Laws.in_play g
                  ∧ game_over (take_branch g p) = true).
  { intros Hd. split; [|by apply take_branch_last].
    rewrite take_branch_won by done. unfold Laws.in_play. by rewrite Hd. }
  destruct Ht as [Hig|Hacc Hact|Hacc Hact Hchips].
  - split_and!; try done. intros Hd Hacc Hact. destruct Hig as [?|[? ?]]; [done|].
    destruct Hact as [?|[? _]]; done.
  - split_and!; [done|by auto|]. intros Hrun.
    destruct (decide (deck g = [])) as [Hd|Hd].
    + destruct (Hlast Hd) as [_ Hover]. congruence.
    + destruct (take_branch_draw g p Hd) as [Hg _]. split; [congruence|auto].
  - split_and!; [by rewrite Hpass| |by rewrite Hpass].
    intros _ _ [?|[_ ?]]; [by subst|lia].
Qed.
End Cards.

Section NewGame.
Import Py PickPass.

Lemma sum_replicate (n : nat) (x : Z) :
  foldr Z.add 0 (replicate n x) = x * Z.of_nat n.
Proof. induction n as [|n IH]; simpl; [lia|]. rewrite IH. lia. Qed.

Lemma init_players (human_players : list string) (shuffled : list Z) (start : nat)
    (g : game) :
  init human_players shuffled start = Return g →
  name <$> players g
  = human_players ++ take (5 - length human_players) bot_names ∧
  is_human <$> players g
  = replicate (length human_players) true
      ++ replicate (5 - length human_players) false ∧
  chips <$> players g = replicate (Nat.max 5 (length human_players)) start_chips ∧
  cards <$> players g = replicate (Nat.max 5 (length human_players)) [] ∧
  pot g = 0 ∧ game_over g = false ∧ leaderboard g = [] ∧
  current_player_idx g = start ∧
  current_card g :: deck g = drop cards_removed shuffled.
Proof.
  unfold init. destruct (drop cards_removed shuffled) as [|c rest]; [done|].
  intros [= <-]. simpl. rewrite !fmap_app, <- !list_fmap_compose, length_fmap.
  assert (Hbots : length (take (5 - length human_players) bot_names)
                  = (5 - length human_players)%nat).
  { rewrite length_take. simpl. lia. }
  assert (Hmax : Nat.max 5 (length human_players)
                 = (length human_players + (5 - length human_players))%nat) by lia.
  rewrite Hmax, !replicate_add.
  split_and!; try done.
  - by rewrite !list_fmap_id.
  - f_equal; [by apply const_fmap|]. rewrite <- Hbots at 2. by apply const_fmap.
  - f_equal; [by apply const_fmap|]. rewrite <- Hbots at 2. by apply const_fmap.
  - f_equal; [by apply const_fmap|]. rewrite <- Hbots at 2. by apply const_fmap.
Qed.
End NewGame.

(** X3. A new PickPass game over a shuffle of the cards 3 to 35 seats the
    humans first and bots up to five players, everyone with 11 chips and no
    card, with an empty pot and 55 or more chips in all; nine cards are set
    aside, one is face-up and 23 are in the draw pile, all different. A
    deck of nine cards or fewer raises [IndexError]. *)
Theorem init_new_game :
  (∀ (human_players : list string) (shuffled : list Z) (start : nat),
     shuffled ≡ₚ PickPass.full_deck →
     ∃ g,
       PickPass.init human_players shuffled start = Py.Return g ∧
       PickPass.name <$> PickPass.players g
       = human_players ++ take (5 - length human_players) PickPass.bot_names ∧
       PickPass.is_human <$> PickPass.players g
       = replicate (length human_players) true
           ++ replicate (5 - length human_players) false ∧
       length (PickPass.players g) = Nat.max 5 (length human_players) ∧
       Forall (λ p, PickPass.cards p = [] ∧ PickPass.chips p = 11)
         (PickPass.players g) ∧
       PickPass.pot g = 0 ∧
       PickPass.total_chips g = 11 * Z.of_nat (Nat.max 5 (length human_players)) ∧
       PickPass.game_over g = false ∧ PickPass.leaderboard g = [] ∧
       PickPass.current_player_idx g = start ∧
       length (PickPass.deck g) = 23%nat ∧
       NoDup (PickPass.current_card g :: PickPass.deck g) ∧
       Forall Laws.card_range (PickPass.current_card g :: PickPass.deck g)) ∧
  (∀ (human_players : list string) (shuffled : list Z) (start : nat),
     (length shuffled ≤ 9)%nat →
     PickPass.init human_players shuffled start = Py.IndexError).
Proof.
  split.
  - intros hp shuffled start Hperm.
    destruct (dealt_cards shuffled Hperm) as (c & rest & Hdrop & Hlen & Hnd & Hall).
    assert (Hinit : ∃ g, PickPass.init hp shuffled start = Py.Return g).
    { unfold PickPass.init. rewrite Hdrop. eauto. }
    destruct Hinit as [g Hg]. exists g. split; [done|].
    destruct (init_players hp shuffled start g Hg)
      as (Hn & Hh & Hc & Hcs & Hpot & Hover & Hb & Hidx & Hdeal).
    rewrite Hdrop in Hdeal. injection Hdeal as Hcc Hdk.
    assert (Hl : length (PickPass.players g) = Nat.max 5 (length hp)).
    { by rewrite <- (length_fmap PickPass.chips), Hc, length_replicate. }
    split_and!; try done; try congruence.
    + apply Forall_lookup. intros i p Hp. split.
      * assert (H : (PickPass.cards <$> PickPass.players g) !! i
                    = Some (PickPass.cards p)) by (by rewrite list_lookup_fmap, Hp).
        rewrite Hcs in H. by apply lookup_replicate in H as [-> _].
      * assert (H : (PickPass.chips <$> PickPass.players g) !! i
                    = Some (PickPass.chips p)) by (by rewrite list_lookup_fmap, Hp).
        rewrite Hc in H. by apply lookup_replicate in H as [-> _].
    + unfold PickPass.total_chips. rewrite Hc, Hpot, sum_replicate.
      unfold PickPass.start_chips. lia.
  - intros hp shuffled start Hlen. unfold PickPass.init.
    rewrite drop_ge; [done|]. unfold PickPass.cards_removed. lia.
Qed.

Lemma init_new_game_witness :
  ∃ g,
    PickPass.init ["Ann"; "Bob"]%string PickPass.full_deck 1 = Py.Return g ∧
    length (PickPass.players g) = 5%nat ∧ length (PickPass.deck g) = 23%nat.
Proof.
  destruct (proj1 init_new_game ["Ann"; "Bob"]%string PickPass.full_deck 1%nat
              (Permutation_refl _))
    as (g & Hg & _ & _ & Hl & _ & _ & _ & _ & _ & _ & Hd & _).
  exists g. split; [exact Hg|]. split; [exact Hl|exact Hd].
Defined.

(** X4. The cards in play, those in the piles of the players, the face-up
    card and the draw pile, are the same after every transition made while
    the draw pile holds a card; the take of the last card moves it to a
    pile, so that the players hold all cards that were in play, and ends
    the game. *)
Theorem play_turn_keeps_cards (g : PickPass.game) (action : string)
    (chk : option string) (p : PickPass.player) :
  PickPass.players g !! PickPass.current_player_idx g = Some p →
  ∃ g' st,
    PickPass.play_turn g action chk = Py.Return (g', st) ∧
    (PickPass.deck g ≠ [] → Laws.in_play g' ≡ₚ Laws.in_play g) ∧
    (PickPass.deck g = [] →
     Spec.accepted chk p →
     action = "take"%string ∨ (action = "pass"%string ∧ PickPass.chips p ≤ 0) →
     Laws.won g' ≡ₚ Laws.in_play g ∧ PickPass.game_over g' = true).
Proof.
  intros Hp.
  destruct (play_turn_turn g action chk p Hp) as (g' & st & Hr & _ & Ht).
  destruct (turn_in_play g g' action chk p Hp Ht) as (H1 & H2 & _).
  by exists g', st.
Qed.

Lemma play_turn_keeps_cards_witness :
  let g := PickPass.Game
             [PickPass.Player "Ann" [30] 4 true; PickPass.Player "Bob" [8; 9] 15 true]
             [12] 3 7 0 false [] in
  ∃ g' st,
    PickPass.play_turn g "take" None = Py.Return (g', st) ∧
    Laws.in_play g' ≡ₚ Laws.in_play g.
Proof.
  destruct (play_turn_keeps_cards
              (PickPass.Game
                 [PickPass.Player "Ann" [30] 4 true; PickPass.Player "Bob" [8; 9] 15 true]
                 [12] 3 7 0 false [])
              "take" None (PickPass.Player "Ann" [30] 4 true) eq_refl)
    as (g' & st & Hr & Hkeep & _).
  exists g', st. split; [exact Hr|]. apply Hkeep. discriminate.
Defined.

(** X5. While a game runs, the 24 cards dealt are in play, each of them
    once and each between 3 and 35. *)
Theorem dealt_cards_stay_in_play (g : PickPass.game) :
  Spec.reachable g →
  PickPass.game_over g = false →
  NoDup (Laws.in_play g) ∧ length (Laws.in_play g) = 24%nat ∧
  Forall Laws.card_range (Laws.in_play g).
Proof.
  induction 1 as [hp sh start g Hperm Hinit _|g action chk g' st _ IH Hplay];
    intros Hrun.
  - destruct (dealt_cards sh Hperm) as (c & rest & Hdrop & Hlen & Hnd & Hall).
    destruct (init_players hp sh start g Hinit)
      as (_ & _ & _ & Hcs & _ & _ & _ & _ & Hdeal).
    assert (Hwon : Laws.won g = []).
    { unfold Laws.won. rewrite Hcs. generalize (Nat.max 5 (length hp)).
      intros n. induction n; simpl; done. }
    unfold Laws.in_play. fold (Laws.won g). rewrite Hwon, Hdeal, Hdrop. simpl.
    split_and!; [done|by rewrite Hlen|done].
  - apply play_turn_lookup in Hplay as (p & Hp & Ht).
    destruct (turn_in_play g g' action chk p Hp Ht) as (_ & _ & Hkeep).
    destruct (Hkeep Hrun) as [Hrun0 Hperm]. rewrite Hperm. by apply IH.
Qed.

Lemma dealt_cards_stay_in_play_witness :
  NoDup (Laws.in_play
           (PickPass.Game
              [PickPass.Player "Ann" [] 11 true; PickPass.Player "Bob" [] 11 true;
               PickPass.Player "Cy" [] 11 true; PickPass.Player "Di" [] 11 true;
               PickPass.Player "Ed" [] 11 true]
              (seqZ 13 23) 0 12 0 false [])).
Proof.
  apply (dealt_cards_stay_in_play _
           (Spec.reachable_init ["Ann"; "Bob"; "Cy"; "Di"; "Ed"]%string
              PickPass.full_deck 0 _ (Permutation_refl _) eq_refl (Nat.lt_0_succ 4))
           eq_refl).
Defined.

(** ** PickPass: the leaderboard and the end of the game *)

Section Leaderboard.
Import Py PickPass.

Lemma turn_leaderboard (g g' : game) (action : string) (chk : option string)
    (p : player) :
  players g !! current_player_idx g = Some p →
  Spec.turn g action chk p g' →
  (game_over g = false → leaderboard g = []) ∧
  (game_over g = true →
   deck g = [] ∧ length (leaderboard g) = length (players g)) →
  (game_over g' = false → leaderboard g' = []) ∧
  (game_over g' = true →
   deck g' = [] ∧ length (leaderboard g') = length (players g')).
Proof.
  intros Hp Ht [Hrun Hover]. destruct Ht as [_|_ _|_ _ _]; [done| |].
  - destruct (decide (deck g = [])) as [Hd|Hd].
    + destruct (take_branch_last g p Hd) as [Ho Hb]. rewrite Ho, Hb.
      split; [done|]. intros _. split.
      * unfold take_branch. by rewrite Hd.
      * by rewrite sort_by_length, length_fmap.
    + destruct (take_branch_draw g p Hd) as [Ho Hb]. rewrite Ho, Hb.
      split; [done|]. intros Hg. by destruct (Hover Hg).
  - unfold pass_branch. simpl. rewrite length_insert. done.
Qed.
End Leaderboard.

(** X6. The leaderboard is empty as long as the game runs; once the game is
    over the draw pile is empty and the leaderboard has one entry per
    player. *)
Theorem leaderboard_follows_game_over (g : PickPass.game) :
  Spec.reachable g →
  (PickPass.game_over g = false → PickPass.leaderboard g = []) ∧
  (PickPass.game_over g = true →
   PickPass.deck g = [] ∧
   length (PickPass.leaderboard g) = length (PickPass.players g)).
Proof.
  induction 1 as [hp sh start g _ Hinit _|g action chk g' st _ IH Hplay].
  - destruct (init_players hp sh start g Hinit)
      as (_ & _ & _ & _ & _ & Hover & Hb & _). rewrite Hover. done.
  - apply play_turn_lookup in Hplay as (p & Hp & Ht).
    by apply (turn_leaderboard g g' action chk p).
Qed.

Lemma leaderboard_follows_game_over_witness :
  PickPass.leaderboard
    (PickPass.Game
       [PickPass.Player "Ann" [] 11 true; PickPass.Player "Bob" [] 11 true;
        PickPass.Player "Cy" [] 11 true; PickPass.Player "Di" [] 11 true;
        PickPass.Player "Ed" [] 11 true]
       (seqZ 13 23) 0 12 0 false [])
  = [].
Proof.
  apply (proj1 (leaderboard_follows_game_over _
                  (Spec.reachable_init ["Ann"; "Bob"; "Cy"; "Di"; "Ed"]%string
                     PickPass.full_deck 0 _ (Permutation_refl _) eq_refl
                     (Nat.lt_0_succ 4)))).
  reflexivity.
Defined.

(** X7. [play_turn] does not look at [game_over]: a take after the end of
    the game is carried out like any other. The player at turn receives the
    last card once more, with the pot, and the leaderboard is computed
    again from the new piles. *)
Theorem play_turn_after_game_over (g : PickPass.game) (chk : option string)
    (p : PickPass.player) :
  PickPass.players g !! PickPass.current_player_idx g = Some p →
  Spec.accepted chk p →
  PickPass.game_over g = true →
  PickPass.deck g = [] →
  ∃ g' st,
    PickPass.play_turn g "take" chk = Py.Return (g', st) ∧
    PickPass.players g' !! PickPass.current_player_idx g
    = Some (PickPass.Player (PickPass.name p)
              (PickPass.cards p ++ [PickPass.current_card g])
              (PickPass.chips p + PickPass.pot g) (PickPass.is_human p)) ∧
    Laws.won g' ≡ₚ Laws.won g ++ [PickPass.current_card g] ∧
    PickPass.game_over g' = true ∧
    PickPass.leaderboard g'
    = Py.sort_by PickPass.final_score (PickPass.entry_of <$> PickPass.players g').
Proof.
  intros Hp Hacc Hover Hd.
  destruct (play_turn_turn g "take" chk p Hp) as (g' & st & Hr & _ & Ht).
  assert (g' = PickPass.take_branch g p) as ->.
  { destruct Ht as [[?|[? _]]|_ _|_ [=] _]; done. }
  exists (PickPass.take_branch g p), st.
  destruct (take_branch_last g p Hd) as [Ho Hb].
  split_and!; try done.
  - rewrite take_branch_players.
    apply list_lookup_insert_eq. apply lookup_lt_is_Some_1; eauto.
  - by apply take_branch_won.
Qed.

Lemma play_turn_after_game_over_witness :
  let g := PickPass.Game
             [PickPass.Player "Ann" [30; 7] 7 true; PickPass.Player "Bob" [8; 9] 15 true]
             [] 0 7 1 true
             [PickPass.Entry "Bob" 8 15 (-7) true; PickPass.Entry "Ann" 37 7 30 true] in
  ∃ g' st,
    PickPass.play_turn g "take" (Some "Bob"%string) = Py.Return (g', st) ∧
    PickPass.players g' !! 1%nat = Some (PickPass.Player "Bob" [8; 9; 7] 15 true).
Proof.
  destruct (play_turn_after_game_over
              (PickPass.Game
                 [PickPass.Player "Ann" [30; 7] 7 true;
                  PickPass.Player "Bob" [8; 9] 15 true]
                 [] 0 7 1 true
                 [PickPass.Entry "Bob" 8 15 (-7) true;
                  PickPass.Entry "Ann" 37 7 30 true])
              (Some "Bob"%string) (PickPass.Player "Bob" [8; 9] 15 true)
              eq_refl (or_intror eq_refl) eq_refl eq_refl)
    as (g' & st & Hr & Hp & _).
  exists g', st. split; [exact Hr|exact Hp].
Defined.

(** ** PickPass: bounds of the score *)

Section ScoreBounds.
Import Py PickPass.

Lemma sum_foldr (l : list Z) : sum l = foldr Z.add 0 l.
Proof.
  unfold sum. assert (H : ∀ a, foldl Z.add a l = a + foldr Z.add 0 l).
  { induction l as [|x t IH]; intros a; simpl; [lia|]. rewrite IH. lia. }
  rewrite H. lia.
Qed.

Lemma sum_perm (l1 l2 : list Z) : l1 ≡ₚ l2 → sum l1 = sum l2.
Proof.
  intros H. rewrite !sum_foldr.
  induction H; simpl; lia.
Qed.

Lemma openers_bounds (prev : option Z) (l : list Z) :
  Forall (λ c, 0 ≤ c) l →
  0 ≤ foldr Z.add 0 (Spec.run_openers prev l) ≤ foldr Z.add 0 l.
Proof.
  intros H. revert prev. induction H as [|c t Hc _ IH]; intros prev; simpl; [lia|].
  specialize (IH (Some c)). case_bool_decide; simpl; lia.
Qed.

Lemma follows_test (a b : Z) :
  bool_decide (Some a = Some b) = bool_decide (a = b).
Proof. apply bool_decide_ext. split; congruence. Qed.

(** One more card in an ascending list: the sum of the run openers grows by
    the card at most, and falls by the card and one at most. *)
Lemma openers_insert (c : Z) (l : list Z) (prev : option Z) :
  0 ≤ c → Forall (λ y, 0 ≤ y) l →
  (∀ p, prev = Some p → p ≤ c) →
  - (c + 1)
  ≤ foldr Z.add 0 (Spec.run_openers prev (insert_by id c l))
    - foldr Z.add 0 (Spec.run_openers prev l)
  ≤ c.
Proof.
  intros Hc Hl. revert prev. induction Hl as [|y t Hy _ IH]; intros prev Hprev.
  - simpl. case_bool_decide; simpl; lia.
  - change (insert_by id c (y :: t))
      with (if c <=? y then c :: y :: t else y :: insert_by id c t).
    destruct (Z.leb_spec c y) as [Hle|Hgt].
    + destruct prev as [p|]; [specialize (Hprev p eq_refl)|]; simpl;
        rewrite ?follows_test; repeat case_bool_decide; simpl; lia.
    + specialize (IH (Some y)).
      assert (Hy' : ∀ p, Some y = Some p → p ≤ c) by (intros ? [= <-]; lia).
      specialize (IH Hy'). cbn [Spec.run_openers]. rewrite !foldr_app.
      case_bool_decide; simpl; simpl in IH; lia.
Qed.

Lemma sorted_snoc (cards : list Z) (c : Z) :
  sorted (cards ++ [c]) = insert_by id c (sorted cards).
Proof.
  rewrite (sorted_of_perm (cards ++ [c]) (c :: cards)); [done|].
  by rewrite (comm app).
Qed.

Lemma Forall_sorted (P : Z → Prop) (l : list Z) : Forall P l → Forall P (sorted l).
Proof. intros H. by rewrite sorted_perm. Qed.
End ScoreBounds.

(** X8. The score of cards that are not negative lies between 0 and the sum
    of the cards. *)
Theorem calculate_score_bounds (cards : list Z) :
  Forall (λ c, 0 ≤ c) cards →
  0 ≤ PickPass.calculate_score cards ≤ Py.sum cards.
Proof.
  intros H.
  rewrite calculate_score_sorted, score_loop, run_openers_sentinel.
  rewrite <- (sum_perm _ _ (sorted_perm cards)), sum_foldr.
  pose proof (openers_bounds None (Py.sorted cards) (Forall_sorted _ _ H)). lia.
Qed.

Lemma calculate_score_bounds_witness :
  0 ≤ PickPass.calculate_score [30; 8; 9] ≤ Py.sum [30; 8; 9].
Proof.
  apply calculate_score_bounds. repeat constructor; discriminate.
Defined.

(** X9. One more card raises the score by its face value at most, and
    lowers it by its face value and one at most, the cards not being
    negative. *)
Theorem calculate_score_one_more_card (cards : list Z) (card : Z) :
  Forall (λ c, 0 ≤ c) cards →
  0 ≤ card →
  - (card + 1)
  ≤ PickPass.calculate_score (cards ++ [card]) - PickPass.calculate_score cards
  ≤ card.
Proof.
  intros H Hc.
  rewrite !calculate_score_sorted, !score_loop, !run_openers_sentinel, sorted_snoc.
  pose proof (openers_insert card (Py.sorted cards) None Hc (Forall_sorted _ _ H)) as Hi.
  lapply Hi; [lia|done].
Qed.

Lemma calculate_score_one_more_card_witness :
  - (5 + 1)
  ≤ PickPass.calculate_score ([4; 6] ++ [5]) - PickPass.calculate_score [4; 6]
  ≤ 5.
Proof.
  apply calculate_score_one_more_card; [repeat constructor; discriminate|discriminate].
Defined.

(** ** BidWiser: what a call of [register_move] changes *)

Section Effect.
Import Py BidWiser.

Lemma identify_with_moves (g : game) (player_name : string) (card : Z) :
  ∃ m1 m2, identify g player_name card = Laws.with_moves g m1 m2 (bot g).
Proof.
  destruct (identify_cases g player_name card) as [->|[[? ->]|(? & _ & ->)]].
  - exists (p1_move g), (p2_move g). by destruct g.
  - by exists (Some card), (p2_move g).
  - by exists (p1_move g), (Some card).
Qed.

Lemma with_moves_twice (g : game) (m1 m2 m1' m2' : option Z)
    (bt bt' : option smart_bot) :
  Laws.with_moves (Laws.with_moves g m1 m2 bt) m1' m2' bt' = Laws.with_moves g m1' m2' bt'.
Proof. done. Qed.

(** The reply of the bot leaves the table as it is, but for the move of the
    bot and its memory, which records the card of the opponent. *)
Lemma bot_reply_with_moves (o : oracle) (g : game) :
  BidSpec.sound g → game_over g = false →
  ∃ m2 bt,
    bot_reply o g = Return (Laws.with_moves g (p1_move g) m2 bt) ∧
    ((m2 = p2_move g ∧ bt = bot g ∧ (p2_is_bot g = false ∨ p1_move g = None)) ∨
     (∃ b b' c1 c2,
        p2_is_bot g = true ∧ bot g = Some b ∧ p1_move g = Some c1 ∧
        m2 = Some c2 ∧ c2 ∈ p2_hand g ∧
        record_move b (current_prize g) c1 = Return b' ∧ bt = Some b')).
Proof.
  intros Hs Hover. unfold bot_reply.
  destruct (p1_move g) as [m1|] eqn:Hm1.
  2:{ exists (p2_move g), (bot g). split; [|left; auto].
      f_equal. destruct g; simpl in *; by subst. }
  destruct (p2_is_bot g) eqn:Hbot.
  2:{ exists (p2_move g), (bot g). split; [|left; auto].
      f_equal. destruct g; simpl in *; by subst. }
  destruct (BidSpec.wf_bot g Hs Hbot) as [b Hb]. rewrite Hb.
  destruct (BidSpec.wf_hands g Hs Hover) as [_ Hlen].
  destruct (decide_move_in_hand o (p2_hand g) (p1_hand g)
              (current_prize g + carry_over_pot g) (prizes g) (p2_score g) (p1_score g))
    as (m2 & -> & Hin).
  { intros Hnil. by rewrite Hnil in Hlen. }
  destruct (BidSpec.wf_memory g Hs b Hb Hover) as [Hkey _].
  destruct (record_move_keys b (current_prize g) m1 Hkey) as (b' & Hrec & _).
  simpl. rewrite Hrec. simpl.
  exists (Some m2), (Some b'). split.
  - f_equal. unfold set_bot, set_p2_move, Laws.with_moves. simpl. by rewrite Hm1.
  - right. by exists b, b', m1, m2.
Qed.

(** The two ways a call of [register_move] on a running game ends: with the
    moves pending, or with a round resolved. *)
Lemma register_move_effect (o : oracle) (g : game) (player_name : string) (card : Z) :
  BidSpec.wf g → game_over g = false →
  ∃ g', register_move o g player_name card = Return (g', true) ∧
    ((∃ m1 m2, g' = Laws.with_moves g m1 m2 (bot g)) ∨
     (∃ c1 c2 bt s1 s2 carry label,
        g' = BidSpec.resolved (Laws.with_moves g (Some c1) (Some c2) bt)
               c1 c2 s1 s2 carry label ∧
        c1 ∈ p1_hand g ∧ c2 ∈ p2_hand g ∧
        ((p2_is_bot g = false ∧ bt = bot g) ∨
         (∃ b b', p2_is_bot g = true ∧ bot g = Some b ∧
                  record_move b (current_prize g) c1 = Return b' ∧ bt = Some b')) ∧
        (c1 ≠ c2 → carry = 0) ∧
        (c2 < c1 →
           s1 = (p1_score g + Qc_of_Z (current_prize g + carry_over_pot g))%Qc ∧
           s2 = p2_score g) ∧
        (c1 < c2 →
           s1 = p1_score g ∧
           s2 = (p2_score g + Qc_of_Z (current_prize g + carry_over_pot g))%Qc) ∧
        (c1 = c2 → prizes g ≠ [] →
           carry = carry_over_pot g + current_prize g ∧
           s1 = p1_score g ∧ s2 = p2_score g) ∧
        (c1 = c2 → prizes g = [] →
           carry = 0 ∧
           s1 = (p1_score g + Qc_of_Z (current_prize g + carry_over_pot g) / 2)%Qc ∧
           s2 = (p2_score g + Qc_of_Z (current_prize g + carry_over_pot g) / 2)%Qc))).
Proof.
  intros [Hs Hi] Hover. unfold register_move. rewrite Hover.
  pose proof (identify_sound g player_name card Hs) as Hs1.
  destruct (identify_with_moves g player_name card) as (m1 & m2 & Hid).
  rewrite Hid in *.
  destruct (bot_reply_sound o _ Hs1 Hover) as (g2 & Hrep & Hs2 & _).
  destruct (bot_reply_with_moves o _ Hs1 Hover) as (m2' & bt & Hrep' & Hbot).
  rewrite Hrep in Hrep'. injection Hrep' as ->. rewrite Hrep.
  rewrite with_moves_twice in *. simpl in Hbot. simpl.
  destruct m1 as [c1|]; [destruct m2' as [c2|]|]; simpl.
  - pose proof (BidSpec.wf_move1 _ Hs2 c1 eq_refl) as Hin1.
    pose proof (BidSpec.wf_move2 _ Hs2 c2 eq_refl) as Hin2.
    destruct (resolve_round_resolved (Laws.with_moves g (Some c1) (Some c2) bt)
                c1 c2 eq_refl eq_refl Hin1 Hin2)
      as (s1 & s2 & carry & label & -> & Hdec & Hw1 & Hw2 & Htie & Hsplit).
    simpl in *. eexists. split; [done|]. right.
    exists c1, c2, bt, s1, s2, carry, label.
    split_and!; try done.
    + destruct Hbot as [(_ & -> & [Hb|Hb])|(b & b' & c1' & c2' & Hb & Hbt & Hc1 & _ & _ & Hrec & ->)].
      * by left.
      * done.
      * right. exists b, b'. by simplify_eq.
    + intros Hlt. apply Hw1; [done|].
      pose proof (BidSpec.wf_carry g Hs). destruct (BidSpec.wf_prize g Hs Hover). lia.
  - eexists. split; [done|]. left.
    destruct Hbot as [(-> & -> & _)|(b & b' & c1' & c2' & _ & _ & _ & [=] & _)]. eauto.
  - eexists. split; [done|]. left.
    destruct Hbot as [(-> & -> & _)|(b & b' & c1' & c2' & _ & _ & [=] & _)]. eauto.
Qed.
End Effect.

(** ** BidWiser: the ledger of a game *)

Section Ledger.
Import Py BidWiser.

Lemma init_ledger (human_players : list string) (shuffled : list Z) (g : game) :
  shuffled ≡ₚ seqZ 1 13 → init human_players shuffled = Return g → Laws.ledger g.
Proof.
  intros Hperm. unfold init.
  destruct human_players as [|h0 others]; [done|].
  destruct shuffled as [|prize rest]; [by destruct others|].
  destruct others as [|h1 ?]; intros [= <-]; unfold Laws.ledger, Laws.prizes_won,
    Laws.prizes_left; simpl; split_and!; try done; ring.
Qed.

Lemma resolved_ledger (g : game) (c1 c2 : Z) (bt : option smart_bot) (s1 s2 : Qc)
    (carry : Z) (label : string) :
  Laws.ledger g → game_over g = false →
  c1 ∈ p1_hand g → c2 ∈ p2_hand g →
  (s1 + s2 + Qc_of_Z carry
   = p1_score g + p2_score g + Qc_of_Z (carry_over_pot g) + Qc_of_Z (current_prize g))%Qc →
  (prizes g = [] → carry = 0) →
  Laws.ledger (BidSpec.resolved (Laws.with_moves g (Some c1) (Some c2) bt)
            c1 c2 s1 s2 carry label).
Proof.
  intros (Hl1 & Hl2 & Hprizes & Hsum & _) Hover H1 H2 Hscores Hcarry.
  unfold Laws.ledger, Laws.prizes_won, Laws.prizes_left in *. simpl. rewrite Hover in *.
  rewrite (remove_length c1 _ H1) in Hl1. rewrite (remove_length c2 _ H2) in Hl2.
  rewrite length_app, fmap_app. simpl. split_and!; try lia.
  - rewrite <- Hprizes, <- (assoc app). f_equiv.
    destruct (prizes g) as [|n r]; simpl; done.
  - rewrite foldr_app. simpl.
    assert (Hf : ∀ (l : list Z) a, foldr Z.add a l = foldr Z.add 0 l + a).
    { induction l as [|x t IH]; intros a; simpl; [lia|]. rewrite IH. lia. }
    rewrite Hf, Z2Qc_inj_add, <- Hsum, Hscores. f_equal. f_equal. lia.
  - intros Hend. simpl in Hend. apply bool_decide_eq_true in Hend.
    rewrite Hend. auto.
Qed.

Lemma reachable_ledger (g : game) : BidSpec.reachable g → Laws.ledger g.
Proof.
  induction 1 as [hp sh g Hperm Hinit|o g n c g' changed Hreach IH Hreg].
  - by eapply init_ledger.
  - destruct (game_over g) eqn:Hover.
    { unfold register_move in Hreg. rewrite Hover in Hreg. by simplify_eq. }
    pose proof (reachable_wf g Hreach) as Hwf.
    destruct (register_move_effect o g n c Hwf Hover) as (g2 & Hr & Hcases).
    rewrite Hr in Hreg. injection Hreg as <- _.
    destruct Hcases as [(m1 & m2 & ->)|
      (c1 & c2 & bt & s1 & s2 & carry & label & -> & H1 & H2 & _
       & Hdec & Hw1 & Hw2 & Htie & Hsplit)]; [done|].
    apply resolved_ledger; try done.
    + destruct (Z.lt_trichotomy c1 c2) as [Hlt|[Heq|Hgt]].
      * destruct (Hw2 Hlt) as [-> ->]. rewrite (Hdec ltac:(lia)).
        rewrite Z2Qc_inj_add, Z2Qc_inj_0. ring.
      * destruct (decide (prizes g = [])) as [He|He].
        -- destruct (Hsplit Heq He) as (-> & -> & ->).
           rewrite Z2Qc_inj_add, Z2Qc_inj_0. field. done.
        -- destruct (Htie Heq He) as (-> & -> & ->). rewrite Z2Qc_inj_add. ring.
      * destruct (Hw1 Hgt) as [-> ->]. rewrite (Hdec ltac:(lia)).
        rewrite Z2Qc_inj_add, Z2Qc_inj_0. ring.
    + intros He. destruct (decide (c1 = c2)) as [Heq|Hne]; [|by apply Hdec].
      by destruct (Hsplit Heq He).
Qed.
End Ledger.

Lemma filter_key_once {A : Type} (f : A → Z) (l : list A) (z : Z) :
  NoDup (f <$> l) → (length (filter (λ r, f r = z) l) ≤ 1)%nat.
Proof.
  induction l as [|x t IH]; simpl; [lia|]. intros [Hx Ht]%NoDup_cons.
  rewrite filter_cons. case_decide as Hz; simpl; [|by apply IH].
  assert (Hnone : filter (λ r, f r = z) t = []); [|by rewrite Hnone].

  destruct (filter (λ r, f r = z) t) as [|y ?] eqn:Hf; [done|]. exfalso.
  assert (Hy : y ∈ filter (λ r, f r = z) t) by (rewrite Hf; by left).
  apply list_elem_of_filter in Hy as [Hfy Hyt]. apply Hx.
  rewrite Hz, <- Hfy. by apply list_elem_of_fmap_2.
Qed.

Section Replayed.
Import Py BidWiser.

Lemma reachable_replay (o : oracle) (calls : list (string * Z)) (g : game) :
  BidSpec.reachable g → BidSpec.reachable (Replay.bidwiser o calls g).
Proof.
  revert g. induction calls as [|[player_name card] rest IH]; intros g Hg; [done|].
  cbn [Replay.bidwiser].
  destruct (register_move o g player_name card) as [[g' changed]| | | | |] eqn:Hr;
    try done.
  apply IH. by econstructor 2.
Qed.

Lemma finished_reachable : BidSpec.reachable Replay.finished.
Proof.
  apply reachable_replay.
  by apply (BidSpec.reachable_init ["Ann"; "Bob"]%string (seqZ 1 13)).
Qed.

Lemma two_rounds_reachable : BidSpec.reachable Replay.two_rounds.
Proof.
  apply reachable_replay.
  by apply (BidSpec.reachable_init ["Ann"]%string (seqZ 1 13)).
Qed.
End Replayed.

(** X10. In every state of a BidWiser game each hand holds 13 cards less
    the number of rounds played. The game is over exactly when 13 rounds
    are in the history, and both hands are empty then. *)
Theorem game_lasts_thirteen_rounds (g : BidWiser.game) :
  BidSpec.reachable g →
  (length (BidWiser.round_history g) + length (BidWiser.p1_hand g) = 13)%nat ∧
  (length (BidWiser.round_history g) + length (BidWiser.p2_hand g) = 13)%nat ∧
  (BidWiser.game_over g = true ↔ length (BidWiser.round_history g) = 13%nat) ∧
  (BidWiser.game_over g = true →
   BidWiser.p1_hand g = [] ∧ BidWiser.p2_hand g = []).
Proof.
  intros Hreach.
  destruct (reachable_ledger g Hreach) as (Hl1 & Hl2 & Hprizes & _ & _).
  destruct (reachable_wf g Hreach) as [Hs _].
  assert (Hover : BidWiser.game_over g = true → length (BidWiser.round_history g) = 13%nat).
  { intros Ho. unfold Laws.prizes_left, Laws.prizes_won in Hprizes.
    rewrite Ho, app_nil_r in Hprizes.
    apply Permutation_length in Hprizes. by rewrite length_fmap in Hprizes. }
  split_and!; try done.
  - split; [done|]. intros Hlen.
    destruct (BidWiser.game_over g) eqn:Ho; [done|].
    destruct (BidSpec.wf_hands g Hs Ho). lia.
  - intros Ho. specialize (Hover Ho).
    split; apply length_zero_iff_nil; lia.
Qed.

Lemma game_lasts_thirteen_rounds_witness :
  BidWiser.game_over Replay.finished = true ∧
  length (BidWiser.round_history Replay.finished) = 13%nat ∧
  BidWiser.p1_hand Replay.finished = [] ∧ BidWiser.p2_hand Replay.finished = [].
Proof.
  destruct (game_lasts_thirteen_rounds Replay.finished finished_reachable)
    as (_ & _ & Hiff & Hend).
  assert (Hover : BidWiser.game_over Replay.finished = true)
    by (vm_compute; reflexivity).
  split; [exact Hover|]. split; [exact (proj1 Hiff Hover)|exact (Hend Hover)].
Defined.

(** X11. No prize is played for twice, and at the end of the game every
    prize from 1 to 13 was played for once: the prizes of the rounds
    played, the current prize and the prize queue together are the numbers
    1 to 13; while the game runs, the current prize is one of them and was
    not played for before; when the game is over, the prizes of the rounds
    played are the numbers 1 to 13. *)
Theorem every_prize_once (g : BidWiser.game) :
  BidSpec.reachable g →
  Laws.prizes_won g ++ Laws.prizes_left g ≡ₚ seqZ 1 13 ∧
  NoDup (Laws.prizes_won g) ∧
  (BidWiser.game_over g = false →
   1 ≤ BidWiser.current_prize g ≤ 13 ∧
   (BidWiser.current_prize g ∉ Laws.prizes_won g) ∧
   (BidWiser.current_prize g ∉ BidWiser.prizes g)) ∧
  (BidWiser.game_over g = true →
   Laws.prizes_won g ≡ₚ seqZ 1 13 ∧
   ∀ z, 1 ≤ z ≤ 13 →
        ∃ r, filter (λ r, BidWiser.r_prize r = z) (BidWiser.round_history g) = [r]).
Proof.
  intros Hreach.
  destruct (reachable_ledger g Hreach) as (_ & _ & Hprizes & _ & _).
  assert (Hnd : NoDup (Laws.prizes_won g ++ Laws.prizes_left g)).
  { rewrite Hprizes. apply NoDup_seqZ. }
  pose proof Hnd as Hnd'.
  apply NoDup_app in Hnd as (Hnd1 & Hdisj & Hnd2).
  split_and!; try done.
  - intros Hrun.
    unfold Laws.prizes_left in *. rewrite Hrun in *.
    apply NoDup_cons in Hnd2 as [Hfresh _].
    assert (Hin : BidWiser.current_prize g ∈ seqZ 1 13).
    { rewrite <- Hprizes. apply elem_of_app. right. by left. }
    apply elem_of_seqZ in Hin. split_and!; [lia..| |done].
    intros Hwon. apply (Hdisj _ Hwon). by left.
  - intros Hover. unfold Laws.prizes_left in Hprizes.
    rewrite Hover, app_nil_r in Hprizes. split; [done|].
    intros z Hz.
    assert (Hin : z ∈ Laws.prizes_won g).
    { rewrite Hprizes. apply elem_of_seqZ. lia. }
    pose proof (filter_key_once BidWiser.r_prize (BidWiser.round_history g) z Hnd1)
      as Hlen.
    apply list_elem_of_fmap in Hin as (r & Hr & Hin).
    assert (Hf : r ∈ filter (λ r, BidWiser.r_prize r = z) (BidWiser.round_history g)).
    { apply list_elem_of_filter. by split. }
    destruct (filter (λ r, BidWiser.r_prize r = z) (BidWiser.round_history g))
      as [|r1 [|r2 rest]]; [by apply elem_of_nil in Hf|eauto|simpl in Hlen; lia].
Qed.

Lemma every_prize_once_witness :
  Laws.prizes_won Replay.finished ≡ₚ seqZ 1 13.
Proof.
  apply (proj2 (proj2 (proj2 (every_prize_once Replay.finished finished_reachable)))).
  vm_compute. reflexivity.
Defined.

(** X12. The two scores and the carry-over add up to the prizes of the
    rounds played; when the game is over nothing is carried over and the
    two scores add up to 91. *)
Theorem scores_account_for_prizes (g : BidWiser.game) :
  BidSpec.reachable g →
  (BidWiser.p1_score g + BidWiser.p2_score g
   + Qc_of_Z (BidWiser.carry_over_pot g))%Qc
  = Qc_of_Z (foldr Z.add 0 (Laws.prizes_won g)) ∧
  (BidWiser.game_over g = true →
   BidWiser.carry_over_pot g = 0 ∧
   (BidWiser.p1_score g + BidWiser.p2_score g)%Qc = Qc_of_Z 91).
Proof.
  intros Hreach.
  destruct (reachable_ledger g Hreach) as (_ & _ & Hprizes & Hsum & Hend).
  split; [done|]. intros Hover. destruct (Hend Hover) as (Hc & _ & _).
  split; [done|]. rewrite Hc, Z2Qc_inj_0, Qcplus_0_r in Hsum. rewrite Hsum. f_equal.
  unfold Laws.prizes_left in Hprizes. rewrite Hover, app_nil_r in Hprizes.
  assert (Hp : ∀ l1 l2 : list Z, l1 ≡ₚ l2 → foldr Z.add 0 l1 = foldr Z.add 0 l2).
  { induction 1; simpl; lia. }
  by rewrite (Hp _ _ Hprizes).
Qed.

Lemma scores_account_for_prizes_witness :
  BidWiser.carry_over_pot Replay.finished = 0 ∧
  (BidWiser.p1_score Replay.finished + BidWiser.p2_score Replay.finished)%Qc
  = Qc_of_Z 91.
Proof.
  apply (proj2 (scores_account_for_prizes Replay.finished finished_reachable)).
  vm_compute. reflexivity.
Defined.

(** ** BidWiser: the memory of the bot *)

Section Memory.
Import Py BidWiser.

Lemma new_bot_remembers : Laws.remembers new_bot [].
Proof.
  intros z. unfold new_bot. cbn [opponent_history]. case_bool_decide as Hz.
  - apply elem_of_list_to_map_1.
    + rewrite <- list_fmap_compose. rewrite list_fmap_id. apply NoDup_seqZ.
    + by apply (list_elem_of_fmap_2 (λ i : Z, (i, @nil Z))).
  - apply not_elem_of_list_to_map_1.
    rewrite <- list_fmap_compose. by rewrite list_fmap_id.
Qed.

Lemma record_move_remembers (b b' : smart_bot) (history : list round)
    (prize c1 c2 : Z) (label : string) :
  Laws.remembers b history →
  record_move b prize c1 = Return b' →
  Laws.remembers b' (history ++ [Round prize c1 c2 label]).
Proof.
  intros Hrem. unfold record_move.
  destruct (opponent_history b !! prize) as [l|] eqn:Hl; [|done].
  intros [= <-] z. cbn [opponent_history].
  pose proof (Hrem prize) as Hprize. rewrite Hl in Hprize.
  rewrite filter_app, fmap_app.
  destruct (decide (prize = z)) as [<-|Hne].
  - rewrite lookup_insert_eq. case_bool_decide; [|done].
    injection Hprize as ->. rewrite filter_cons_True by done. done.
  - rewrite lookup_insert_ne by done. rewrite (Hrem z).
    rewrite filter_cons_False by done. simpl. by rewrite app_nil_r.
Qed.

Lemma reachable_memory (g : game) :
  BidSpec.reachable g →
  (p2_is_bot g = false → bot g = None) ∧
  (∀ b, bot g = Some b → Laws.remembers b (round_history g)).
Proof.
  induction 1 as [hp sh g Hperm Hinit|o g n c g' changed Hreach [IHn IHb] Hreg].
  - unfold init in Hinit. destruct hp as [|h0 others]; [done|].
    destruct sh as [|prize rest]; [by destruct others|].
    destruct others as [|h1 ?]; injection Hinit as <-; simpl; split; try done.
    intros b [= <-]. apply new_bot_remembers.
  - destruct (game_over g) eqn:Hover.
    { unfold register_move in Hreg. rewrite Hover in Hreg. by simplify_eq. }
    pose proof (reachable_wf g Hreach) as Hwf.
    destruct (register_move_effect o g n c Hwf Hover) as (g2 & Hr & Hcases).
    rewrite Hr in Hreg. injection Hreg as <- _.
    destruct Hcases as [(m1 & m2 & ->)|
      (c1 & c2 & bt & s1 & s2 & carry & label & -> & _ & _ & Hbot & _)]; [done|].
    simpl. destruct Hbot as [[Hnb ->]|(b & b' & Hyb & Hb & Hrec & ->)].
    + split; [done|]. intros b Hb. rewrite (IHn Hnb) in Hb. done.
    + split; [congruence|]. intros ? [= <-].
      eapply record_move_remembers; [by apply IHb|done].
Qed.

End Memory.

(** X13. In a game against the bot the memory of the bot holds, under each
    prize from 1 to 13 and under no other key, the card the opponent played
    in the round for that prize, one card at most; a game of two humans has
    no bot. *)
Theorem bot_memory_records_history (g : BidWiser.game) :
  BidSpec.reachable g →
  (BidWiser.p2_is_bot g = false → BidWiser.bot g = None) ∧
  (∀ b, BidWiser.bot g = Some b →
        Laws.remembers b (BidWiser.round_history g) ∧
        ∀ z l, BidWiser.opponent_history b !! z = Some l →
               1 ≤ z ≤ 13 ∧ (length l ≤ 1)%nat).
Proof.
  intros Hreach. destruct (reachable_memory g Hreach) as [Hn Hb].
  split; [done|]. intros b Hbot. specialize (Hb b Hbot). split; [done|].
  intros z l Hl. rewrite (Hb z) in Hl. case_bool_decide as Hz; [|done].
  injection Hl as <-. apply elem_of_seqZ in Hz. split; [lia|].
  rewrite length_fmap. apply filter_key_once.
  destruct (reachable_ledger g Hreach) as (_ & _ & Hprizes & _ & _).
  assert (Hnd : NoDup (Laws.prizes_won g ++ Laws.prizes_left g))
    by (rewrite Hprizes; apply NoDup_seqZ).
  by apply NoDup_app in Hnd as (Hnd1 & _ & _).
Qed.

Lemma bot_memory_records_history_witness :
  ∃ b, BidWiser.bot Replay.two_rounds = Some b ∧
       Laws.remembers b (BidWiser.round_history Replay.two_rounds) ∧
       length (BidWiser.round_history Replay.two_rounds) = 2%nat.
Proof.
  destruct (BidWiser.bot Replay.two_rounds) as [b|] eqn:Hbot.
  - exists b. split; [reflexivity|]. split; [|vm_compute; reflexivity].
    apply (proj2 (bot_memory_records_history Replay.two_rounds two_rounds_reachable)
             b Hbot).
  - vm_compute in Hbot. discriminate Hbot.
Defined.

(** X14. [record_move] appends the card to the list under the prize and
    leaves every other key as it is; it raises [KeyError] for a prize that
    is not a key, and a new bot has the keys 1 to 13, each with an empty
    list. *)
Theorem record_move_appends :
  (∀ (b : BidWiser.smart_bot) (prize_card opponent_move : Z) (l : list Z),
     BidWiser.opponent_history b !! prize_card = Some l →
     ∃ b',
       BidWiser.record_move b prize_card opponent_move = Py.Return b' ∧
       BidWiser.bot_name b' = BidWiser.bot_name b ∧
       BidWiser.opponent_history b' !! prize_card = Some (l ++ [opponent_move]) ∧
       ∀ z, z ≠ prize_card →
            BidWiser.opponent_history b' !! z = BidWiser.opponent_history b !! z) ∧
  (∀ (b : BidWiser.smart_bot) (prize_card opponent_move : Z),
     BidWiser.opponent_history b !! prize_card = None →
     BidWiser.record_move b prize_card opponent_move = Py.KeyError) ∧
  (∀ z, BidWiser.opponent_history BidWiser.new_bot !! z
        = if bool_decide (1 ≤ z ≤ 13) then Some [] else None).
Proof.
  split_and!.
  - intros b prize_card opponent_move l Hl. unfold BidWiser.record_move. rewrite Hl.
    eexists. split; [done|]. simpl. split; [done|]. split.
    + apply lookup_insert_eq.
    + intros z Hz. by apply lookup_insert_ne.
  - intros b prize_card opponent_move Hl. unfold BidWiser.record_move. by rewrite Hl.
  - intros z. rewrite (new_bot_remembers z). simpl.
    repeat case_bool_decide; try done;
      match goal with H : _ ∈ seqZ _ _ |- _ => apply elem_of_seqZ in H; lia
                    | H : ¬ _ ∈ seqZ _ _ |- _ => rewrite elem_of_seqZ in H; lia end.
Qed.

Lemma record_move_appends_witness :
  ∃ b',
    BidWiser.record_move BidWiser.new_bot 7 4 = Py.Return b' ∧
    BidWiser.opponent_history b' !! 7 = Some [4].
Proof.
  destruct (proj1 record_move_appends BidWiser.new_bot 7 4 [] eq_refl)
    as (b' & Hr & _ & Hl & _).
  exists b'. split; [exact Hr|exact Hl].
Defined.

(** ** BidWiser: the choice of [minimax_move] *)

Section Maximin.
Import Py BidWiser.

Lemma ext_eq_eq (a b : ext) : ext_eq a b = true → a = b.
Proof.
  destruct a, b; simpl; try done. intros H%bool_decide_eq_true. by subst.
Qed.

Lemma ext_le_refl (a : ext) : Laws.ext_le a a.
Proof.
  unfold Laws.ext_le. destruct a; simpl; try done.
  apply bool_decide_eq_false, Qcle_not_lt, Qcle_refl.
Qed.

Lemma ext_le_trans (a b c : ext) : Laws.ext_le a b → Laws.ext_le b c → Laws.ext_le a c.
Proof.
  unfold Laws.ext_le. destruct a, b, c; simpl; try done.
  rewrite !bool_decide_eq_false. intros H1%Qcnot_lt_le H2%Qcnot_lt_le.
  apply Qcle_not_lt. by eapply Qcle_trans.
Qed.

Lemma ext_lt_le (a b : ext) : ext_lt a b = true → Laws.ext_le a b.
Proof.
  unfold Laws.ext_le. destruct a, b; simpl; try done.
  rewrite bool_decide_eq_true, bool_decide_eq_false. intros H.
  apply Qcle_not_lt, Qclt_le_weak, H.
Qed.

(** The inner loop keeps the smallest utility met. *)
Lemma least_utility (f : Z → Qc) (l : list Z) (acc : ext) :
  let r := foldl (λ m p, if ext_lt (Fin (f p)) m then Fin (f p) else m) acc l in
  Laws.ext_le r acc ∧
  (∀ p, p ∈ l → Laws.ext_le r (Fin (f p))) ∧
  (r = acc ∨ ∃ p, p ∈ l ∧ r = Fin (f p)).
Proof.
  revert acc. induction l as [|p t IH]; intros acc; cbn [foldl].
  - split_and!; [apply ext_le_refl|by intros ? ?%elem_of_nil|by left].
  - specialize (IH (if ext_lt (Fin (f p)) acc then Fin (f p) else acc)).
    cbv zeta in IH. destruct IH as (Hacc & Hall & Hatt).
    destruct (ext_lt (Fin (f p)) acc) eqn:Hlt.
    + split_and!.
      * eapply ext_le_trans; [exact Hacc|]. by apply ext_lt_le.
      * intros q [->|Hq]%elem_of_cons; [done|by apply Hall].
      * right. destruct Hatt as [->|(q & Hq & ->)]; [exists p|exists q];
          (split; [|done]); [by left|by right].
    + split_and!; [done| |].
      * intros q [->|Hq]%elem_of_cons; [|by apply Hall].
        eapply ext_le_trans; [exact Hacc|exact Hlt].
      * destruct Hatt as [->|(q & Hq & ->)]; [by left|]. right. exists q.
        split; [by right|done].
Qed.

Lemma least_utility_attained (f : Z → Qc) (l : list Z) :
  l ≠ [] →
  ∃ p, p ∈ l ∧
       foldl (λ m p, if ext_lt (Fin (f p)) m then Fin (f p) else m) PosInf l
       = Fin (f p).
Proof.
  destruct l as [|p t]; [done|]. intros _.
  assert (Hfirst :
    foldl (λ m p, if ext_lt (Fin (f p)) m then Fin (f p) else m) PosInf (p :: t)
    = foldl (λ m p, if ext_lt (Fin (f p)) m then Fin (f p) else m) (Fin (f p)) t)
    by reflexivity.
  rewrite Hfirst.
  destruct (least_utility f t (Fin (f p))) as (_ & _ & [->|(q & Hq & ->)]).
  - exists p. split; [by left|done].
  - exists q. split; [by right|done].
Qed.

Section Outer.
Context (bh ph : list Z) (pot : Z) (rem : list Z) (bs ps : Qc).

(** The outer loop keeps the largest worst case met and the candidates that
    reach it. *)
Lemma best_utility (cs : list Z) (m : ext) (opts : list Z) :
  (∀ x, x ∈ opts → min_utility_of bh ph pot rem bs ps x = m) →
  let r := foldl (options_step bh ph pot rem bs ps) (m, opts) cs in
  Laws.ext_le m r.1 ∧
  (∀ c, c ∈ cs → Laws.ext_le (min_utility_of bh ph pot rem bs ps c) r.1) ∧
  (∀ x, x ∈ r.2 → min_utility_of bh ph pot rem bs ps x = r.1).
Proof.
  revert m opts. induction cs as [|c t IH]; intros m opts Hopts; cbn [foldl].
  - split_and!; [apply ext_le_refl|by intros ? ?%elem_of_nil|done].
  - assert (Hstep : options_step bh ph pot rem bs ps (m, opts) c
                    = if ext_lt m (min_utility_of bh ph pot rem bs ps c)
                      then (min_utility_of bh ph pot rem bs ps c, [c])
                      else if ext_eq (min_utility_of bh ph pot rem bs ps c) m
                           then (m, opts ++ [c]) else (m, opts)) by reflexivity.
    rewrite Hstep. clear Hstep.
    destruct (ext_lt m (min_utility_of bh ph pot rem bs ps c)) eqn:Hlt.
    + destruct (IH (min_utility_of bh ph pot rem bs ps c) [c]) as (Hm & Hall & Hbest).
      { by intros x ->%list_elem_of_singleton. }
      split_and!; [|intros q [->|Hq]%elem_of_cons; [done|by apply Hall]|done].
      eapply ext_le_trans; [by apply ext_lt_le|exact Hm].
    + destruct (ext_eq (min_utility_of bh ph pot rem bs ps c) m) eqn:Heq.
      * apply ext_eq_eq in Heq.
        destruct (IH m (opts ++ [c])) as (Hm & Hall & Hbest).
        { intros x [Hx | ->%list_elem_of_singleton]%elem_of_app; [by apply Hopts|done]. }
        split_and!; [done| |done].
        intros q [->|Hq]%elem_of_cons; [by rewrite Heq|by apply Hall].
      * destruct (IH m opts Hopts) as (Hm & Hall & Hbest).
        split_and!; [done| |done].
        intros q [->|Hq]%elem_of_cons; [|by apply Hall].
        eapply ext_le_trans; [exact Hlt|exact Hm].
Qed.
End Outer.
End Maximin.

(** X15. For a hand that is not empty [minimax_move] returns a card of the
    hand whose worst case is the best: the worst case of a card is the
    smallest outcome over the replies of the opponent, and no card of the
    hand has a larger one than the card returned. An empty hand raises
    [IndexError]. *)
Theorem minimax_move_maximin (o : BidWiser.oracle) (bh ph : list Z) (pot : Z)
    (rem : list Z) (bs ps : Qc) :
  let worst := BidWiser.min_utility_of bh ph pot rem bs ps in
  (bh ≠ [] →
   ∃ c, BidWiser.minimax_move o bh ph pot rem bs ps = Py.Return c ∧
        c ∈ bh ∧
        ∀ b, b ∈ bh → Laws.ext_le (worst b) (worst c)) ∧
  (∀ b p, p ∈ ph →
          Laws.ext_le (worst b)
            (BidWiser.Fin (BidWiser.total_outcome bh ph pot rem bs ps b p))) ∧
  (∀ b, ph ≠ [] →
        ∃ p, p ∈ ph ∧
             worst b = BidWiser.Fin (BidWiser.total_outcome bh ph pot rem bs ps b p)) ∧
  BidWiser.minimax_move o [] ph pot rem bs ps = Py.IndexError.
Proof.
  intros worst. subst worst. split_and!; [| | |done].
  - intros Hbh.
    destruct (minimax_move_in_hand o bh ph pot rem bs ps Hbh) as (c & Hr & Hc).
    exists c. split_and!; [done..|]. intros b Hb.
    unfold BidWiser.minimax_move in Hr. destruct bh as [|b0 bt]; [done|].
    unfold BidWiser.random_choice in Hr.
    destruct (_ !! _) as [x|] eqn:Hx; [|done]. injection Hr as ->.
    apply list_elem_of_lookup_2 in Hx.
    destruct (best_utility (b0 :: bt) ph pot rem bs ps
                (Py.sorted_reverse (b0 :: bt)) BidWiser.NegInf [])
      as (_ & Hall & Hbest); [by intros ? ?%elem_of_nil|].
    unfold BidWiser.best_options_of in Hx. rewrite (Hbest c Hx).
    apply Hall. by rewrite sorted_reverse_perm.
  - intros b p Hp. unfold BidWiser.min_utility_of.
    by apply (least_utility (BidWiser.total_outcome bh ph pot rem bs ps b) ph
                BidWiser.PosInf).
  - intros b Hph. unfold BidWiser.min_utility_of.
    by apply (least_utility_attained (BidWiser.total_outcome bh ph pot rem bs ps b)).
Qed.

Lemma minimax_move_maximin_witness :
  ∃ c, BidWiser.minimax_move (BidWiser.Oracle 0 (λ _, 0%Qc)) [1; 2] [1; 2] 2 [7]
         0%Qc 0%Qc = Py.Return c ∧ c ∈ [1; 2].
Proof.
  destruct (proj1 (minimax_move_maximin (BidWiser.Oracle 0 (λ _, 0%Qc)) [1; 2] [1; 2]
                     2 [7] 0%Qc 0%Qc) ltac:(discriminate))
    as (c & Hr & Hc & _).
  exists c. split; [exact Hr|exact Hc].
Defined.

(** ** PickPass: the decision of the bot *)

Section BotMove.
Import Py PickPass PickPassBot.

Lemma orbit_answers (g : game) (card : Z) (my_seat : nat) (steps : list nat)
    (prob : Qc) :
  players g ≠ [] →
  ∃ q, orbit g card my_seat (length (players g)) steps prob = Answer q.
Proof.
  intros Hne. revert prob. induction steps as [|i rest IH]; intros prob; simpl; [eauto|].
  destruct (lookup_lt_is_Some_2 (players g) ((my_seat + i) `mod` length (players g))%nat)
    as [opp Hopp].
  { apply Nat.mod_upper_bound. by destruct (players g). }
  rewrite Hopp. apply IH.
Qed.

Lemma bot_move_answers (g : game) :
  Flow.table_ok g → ∃ take, bot_move g = Answer take.
Proof.
  intros (Hidx & _ & Hall). unfold bot_move.
  destruct (lookup_lt_is_Some_2 _ _ Hidx) as [me Hme]. rewrite Hme.
  destruct (is_human me); [eauto|]. case_bool_decide; [eauto|].
  pose proof (Forall_lookup_1 _ _ _ _ Hall Hme) as Hchips. simpl in Hchips.
  rewrite bool_decide_eq_false_2 by lia.
  destruct (orbit_answers g (current_card g) (current_player_idx g)
              (seq 1 (length (players g) - 1)) 0%Qc) as [q Hq].
  { intros Hnil. by rewrite Hnil in Hme. }
  rewrite Hq. cbn [mbind PickPassBot.answer_bind]. eauto.
Qed.

Lemma reachable_table_ok (g : game) : Spec.reachable g → Flow.table_ok g.
Proof.
  intros H. split; [by apply reachable_seat|by apply reachable_nonneg].
Qed.
End BotMove.

(** X16. [bot_move] answers pass for a human at turn and take for a bot
    without chips; it raises [IndexError] for a seat that does not exist
    and [ZeroDivisionError] for a bot with -1 chips; in every state of a
    game it gives an answer. *)
Theorem bot_move_guards :
  (∀ g me,
     PickPass.players g !! PickPass.current_player_idx g = Some me →
     PickPass.is_human me = true →
     PickPassBot.bot_move g = PickPassBot.Answer false) ∧
  (∀ g me,
     PickPass.players g !! PickPass.current_player_idx g = Some me →
     PickPass.is_human me = false → PickPass.chips me = 0 →
     PickPassBot.bot_move g = PickPassBot.Answer true) ∧
  (∀ g me,
     PickPass.players g !! PickPass.current_player_idx g = Some me →
     PickPass.is_human me = false → PickPass.chips me = -1 →
     PickPassBot.bot_move g = PickPassBot.Raised PickPassBot.ZeroDivisionErr) ∧
  (∀ g,
     PickPass.players g !! PickPass.current_player_idx g = None →
     PickPassBot.bot_move g = PickPassBot.Raised PickPassBot.IndexErr) ∧
  (∀ g, Spec.reachable g → ∃ take, PickPassBot.bot_move g = PickPassBot.Answer take).
Proof.
  split_and!.
  - intros g me Hme Hh. unfold PickPassBot.bot_move. by rewrite Hme, Hh.
  - intros g me Hme Hh Hc. unfold PickPassBot.bot_move. rewrite Hme, Hh.
    by rewrite bool_decide_eq_true_2.
  - intros g me Hme Hh Hc. unfold PickPassBot.bot_move. rewrite Hme, Hh.
    rewrite bool_decide_eq_false_2 by lia. by rewrite bool_decide_eq_true_2 by lia.
  - intros g Hme. unfold PickPassBot.bot_move. by rewrite Hme.
  - intros g Hreach. by apply bot_move_answers, reachable_table_ok.
Qed.

Lemma bot_move_guards_witness :
  PickPassBot.bot_move
    (PickPass.Game
       [PickPass.Player "Ann" [] 11 true; PickPass.Player "Vector" [30] 0 false]
       [4; 5] 3 7 1 false [])
  = PickPassBot.Answer true.
Proof.
  apply (proj1 (proj2 bot_move_guards) _ (PickPass.Player "Vector" [30] 0 false));
    reflexivity.
Defined.

(** ** app.py: the turns of the bots *)

Section BotTurns.
Import Py PickPass PickPassBot.






End BotTurns.

Section HumanAhead.
Import Py PickPass PickPassBot.



End HumanAhead.



Section Interleaved.
Import Py PickPass PickPassBot.


End Interleaved.



(** ** app.py: joining a room *)

Section Join.
Import Py PickPassBot.

Lemma numbered_inj (original_name : string) (a b : N) :
  Flow.numbered original_name a = Flow.numbered original_name b → a = b.
Proof.
  unfold Flow.numbered. intros H.
  apply (inj (String.app original_name)) in H.
  apply (inj (String.app " #")) in H.
  by apply (inj pretty) in H.
Qed.

(** What the loop of [handle_join_room] answers: the first of the names
    [temp_name], [original_name #k], [original_name #(k+1)], ... that is
    not taken; without fuel, all names it tried are taken. *)
Lemma unique_name_first (fuel : nat) (original_name temp_name : string) (k : N)
    (members : list string) :
  match App.unique_name fuel original_name temp_name k members with
  | Answer name =>
      (name ∉ members) ∧
      ((name = temp_name) ∨
       (temp_name ∈ members ∧
        ∃ j, (k ≤ j)%N ∧ name = Flow.numbered original_name j ∧
             ∀ i, (k ≤ i < j)%N → Flow.numbered original_name i ∈ members))
  | Raised e =>
      e = FuelOut ∧
      ((0 < fuel)%nat → temp_name ∈ members) ∧
      ∀ i, (k ≤ i)%N → (N.to_nat i + 1 < N.to_nat k + fuel)%nat →
           Flow.numbered original_name i ∈ members
  end.
Proof.
  revert temp_name k. induction fuel as [|fuel IH]; intros temp_name k; simpl.
  { split; [done|]. split; [lia|]. intros i ? ?. lia. }
  case_bool_decide as Htaken; [|by auto].
  specialize (IH (original_name +:+ " #" +:+ pretty k) (k + 1)%N).
  destruct (App.unique_name fuel original_name _ (k + 1)%N members) as [name|e].
  - destruct IH as [Hfree Hwhich]. split; [done|]. right. split; [done|].
    destruct Hwhich as [->|(Hk & j & Hj & -> & Hbefore)].
    + exists k. split_and!; [lia|done|]. intros i ?. lia.
    + exists j. split_and!; [lia|done|]. intros i Hi.
      destruct (decide (i = k)) as [->|Hne]; [done|]. apply Hbefore. lia.
  - destruct IH as (-> & Hfirst & Hall). split; [done|]. split; [done|].
    intros i Hi Hfuel. destruct (decide (i = k)) as [->|Hne].
    + apply Hfirst. lia.
    + apply Hall; lia.
Qed.

(** The names of a room run out before the fuel does. *)
Lemma unique_name_answers (fuel : nat) (original_name temp_name : string) (k : N)
    (members : list string) :
  (length members + 2 ≤ fuel)%nat →
  ∃ name, App.unique_name fuel original_name temp_name k members = Answer name.
Proof.
  intros Hfuel.
  pose proof (unique_name_first fuel original_name temp_name k members) as Hspec.
  destruct (App.unique_name fuel original_name temp_name k members) as [name|e];
    [eauto|exfalso].
  destruct Hspec as (_ & _ & Hall).
  set (tried := (λ i : nat, Flow.numbered original_name (k + N.of_nat i))
                  <$> seq 0 (S (length members))).
  assert (Hnd : NoDup tried).
  { apply NoDup_fmap_2_strong; [|apply NoDup_seq].
    intros a b _ _ Hab. apply numbered_inj in Hab. lia. }
  assert (Hsub : ∀ x, x ∈ tried → x ∈ members).
  { intros x (i & -> & Hi)%list_elem_of_fmap. apply elem_of_seq in Hi.
    apply Hall; lia. }
  pose proof (submseteq_length _ _ (NoDup_submseteq _ _ Hnd Hsub)) as Hlen.
  unfold tried in Hlen. rewrite length_fmap, length_seq in Hlen. lia.
Qed.

(** X19. A join of a room in the lobby adds the user under a name no member
    has: the user name itself if it is free, and else the first of
    [name #2], [name #3], ... that is free. The members stay pairwise
    distinct, the session takes the new name and the room, and the room
    and the name are sent. The search for a name ends after at most one
    round more than there are members. *)
Theorem handle_join_room_unique_name (fuel : nat) (rooms : gmap string App.room)
    (sess : App.session) (code : string) (r : App.room) :
  rooms !! code = Some r →
  App.status r = "lobby"%string →
  (length (App.players r) + 2 ≤ fuel)%nat →
  ∃ name,
    let r' := App.Room (App.code r) (App.host r) (App.game_type r)
                (App.players r ++ [name]) (App.game_instance r) (App.status r) in
    App.handle_join_room fuel rooms sess code
    = App.Handled (<[code := r']> rooms) (App.Session name (Some code))
        [App.EmitRoomUpdate code r';
         App.EmitRoomJoined code (App.players r ++ [name]) (App.host r) name] None ∧
    (name ∉ App.players r) ∧
    (NoDup (App.players r) → NoDup (App.players r ++ [name])) ∧
    (App.username sess ∉ App.players r → name = App.username sess) ∧
    (App.username sess ∈ App.players r →
     ∃ j, (2 ≤ j)%N ∧ name = Flow.numbered (App.username sess) j ∧
          ∀ i, (2 ≤ i < j)%N → Flow.numbered (App.username sess) i ∈ App.players r).
Proof.
  intros Hroom Hlobby Hfuel. unfold App.handle_join_room. rewrite Hroom.
  rewrite bool_decide_eq_false_2 by (by intros []).
  destruct (unique_name_answers fuel (App.username sess) (App.username sess) 2
              (App.players r) Hfuel) as [name Hname].
  pose proof (unique_name_first fuel (App.username sess) (App.username sess) 2
                (App.players r)) as Hspec.
  rewrite Hname in Hspec |- *. destruct Hspec as [Hfree Hwhich].
  exists name. rewrite bool_decide_eq_true_2 by done. cbn zeta.
  split_and!; [done|done| | |].
  - intros Hnd. apply NoDup_app. split_and!; [done| |apply NoDup_singleton].
    intros x Hx ->%list_elem_of_singleton. done.
  - intros Hnew. destruct Hwhich as [->|[Hin _]]; done.
  - intros Hin. destruct Hwhich as [->|(_ & j & Hj & -> & Hbefore)]; [done|eauto].
Qed.

Lemma handle_join_room_unique_name_witness :
  ∃ name,
    (name ∉ ["Ann"; "Ann #2"]%string) ∧
    App.h_session
      (App.handle_join_room 4
         {[ "1234"%string :=
              App.Room "1234" "Ann" None ["Ann"; "Ann #2"]%string None "lobby" ]}
         (App.Session "Ann" None) "1234")
    = App.Session name (Some "1234"%string).
Proof.
  destruct (handle_join_room_unique_name 4
              {[ "1234"%string :=
                   App.Room "1234" "Ann" None ["Ann"; "Ann #2"]%string None "lobby" ]}
              (App.Session "Ann" None) "1234"
              (App.Room "1234" "Ann" None ["Ann"; "Ann #2"]%string None "lobby"))
    as (name & Heq & Hfree & _).
  - vm_compute. reflexivity.
  - reflexivity.
  - simpl. lia.
  - exists name. split; [exact Hfree|]. rewrite Heq. reflexivity.
Defined.

(** X20. [handle_join_room] changes no other room and takes nothing from
    the room of the code: the members stay, in their order, at most one is
    added at the end, and the code, the host, the game and the status stay.
    An unknown code and a room that is not in the lobby change nothing and
    send one error message. *)
Theorem handle_join_room_keeps_rooms (fuel : nat) (rooms : gmap string App.room)
    (sess : App.session) (code : string) :
  let h := App.handle_join_room fuel rooms sess code in
  (∀ c, c ≠ code → App.h_rooms h !! c = rooms !! c) ∧
  (rooms !! code = None →
   h = App.Handled rooms sess [App.EmitErrorMsg "Invalid Room Code"] None) ∧
  (∀ r, rooms !! code = Some r →
     (App.status r ≠ "lobby"%string →
      h = App.Handled rooms sess [App.EmitErrorMsg "Game already started!"] None) ∧
     ∃ r', App.h_rooms h !! code = Some r' ∧
           App.players r `prefix_of` App.players r' ∧
           (length (App.players r') ≤ length (App.players r) + 1)%nat ∧
           App.code r' = App.code r ∧ App.host r' = App.host r ∧
           App.game_type r' = App.game_type r ∧
           App.game_instance r' = App.game_instance r ∧
           App.status r' = App.status r).
Proof.
  cbn zeta. unfold App.handle_join_room. split_and!.
  - intros c Hc. destruct (rooms !! code) as [r|]; [|done].
    case_bool_decide; [done|].
    destruct (App.unique_name _ _ _ _ _); [|done]. simpl.
    by rewrite lookup_insert_ne.
  - by intros ->.
  - intros r Hr. rewrite Hr. split.
    + intros Hst. by rewrite bool_decide_eq_true_2.
    + assert (Hsame : ∃ r', rooms !! code = Some r' ∧
                  App.players r `prefix_of` App.players r' ∧
                  (length (App.players r') ≤ length (App.players r) + 1)%nat ∧
                  App.code r' = App.code r ∧ App.host r' = App.host r ∧
                  App.game_type r' = App.game_type r ∧
                  App.game_instance r' = App.game_instance r ∧
                  App.status r' = App.status r).
      { exists r. split_and!; [done|done|lia|done..]. }
      case_bool_decide; [done|].
      destruct (App.unique_name _ _ _ _ _); [|done]. simpl.
      rewrite lookup_insert_eq. eexists. split; [done|].
      case_bool_decide; simpl; [|split_and!; [done|lia|done..]].
      split_and!; [by apply prefix_app_r|rewrite length_app; simpl; lia|done..].
Qed.

Lemma handle_join_room_keeps_rooms_witness :
  App.handle_join_room 3
    {[ "1234"%string := App.Room "1234" "Ann" None ["Ann"]%string None "lobby" ]}
    (App.Session "Bob" None) "4321"
  = App.Handled
      {[ "1234"%string := App.Room "1234" "Ann" None ["Ann"]%string None "lobby" ]}
      (App.Session "Bob" None) [App.EmitErrorMsg "Invalid Room Code"] None.
Proof.
  apply (handle_join_room_keeps_rooms 3
           {[ "1234"%string := App.Room "1234" "Ann" None ["Ann"]%string None "lobby" ]}
           (App.Session "Bob" None) "4321").
  vm_compute. reflexivity.
Defined.
End Join.

(** ** app.py: creating a room *)

Section Create.
Import Py PickPassBot.

(** [generate_room_code] answers the first code drawn that no room has. *)
Lemma generate_room_code_first (draws : list string) (rooms : gmap string App.room) :
  match App.generate_room_code draws rooms with
  | Answer code =>
      ∃ taken rest, draws = taken ++ code :: rest ∧ rooms !! code = None ∧
                    Forall (λ c, is_Some (rooms !! c)) taken
  | Raised e => e = FuelOut ∧ Forall (λ c, is_Some (rooms !! c)) draws
  end.
Proof.
  induction draws as [|c rest IH]; simpl; [done|].
  case_bool_decide as Hc.
  - destruct (App.generate_room_code rest rooms) as [code|e].
    + destruct IH as (taken & rest' & -> & Hfree & Htaken).
      exists (c :: taken), rest'. split_and!; [done|done|by constructor].
    + destruct IH as [-> Hall]. split; [done|by constructor].
  - exists [], rest. split_and!; [done| |done].
    destruct (rooms !! c) eqn:Heq; [|done]. destruct Hc. eauto.
Qed.
End Create.

(** X21. [handle_create_room] opens a room under the first code drawn that
    no room has: every code drawn before it is the code of a room. The
    room is a lobby with the user as host and only member and no game, and
    its code is in the session. Every room that was there stays as it was.
    While a free code is among the draws the search ends. *)
Theorem handle_create_room_new_code (draws : list string)
    (rooms : gmap string App.room) (sess : App.session) (code : string) :
  code ∈ draws → rooms !! code = None →
  ∃ taken first rest,
    draws = taken ++ first :: rest ∧
    Forall (λ c, is_Some (rooms !! c)) taken ∧
    rooms !! first = None ∧
    App.handle_create_room draws rooms sess
    = App.Handled
        (<[first := App.Room first (App.username sess) None [App.username sess] None
                      "lobby"]> rooms)
        (App.Session (App.username sess) (Some first))
        [App.EmitRoomJoined first [App.username sess] (App.username sess)
           (App.username sess)] None ∧
    ∀ c r, rooms !! c = Some r →
           App.h_rooms (App.handle_create_room draws rooms sess) !! c = Some r.
Proof.
  intros Hin Hfree. unfold App.handle_create_room.
  pose proof (generate_room_code_first draws rooms) as Hspec.
  destruct (App.generate_room_code draws rooms) as [first|e].
  - destruct Hspec as (taken & rest & -> & Hnone & Htaken). exists taken, first, rest.
    split_and!; [done|done|done|done|].
    intros c r Hc. simpl. rewrite lookup_insert_ne; [done|]. congruence.
  - destruct Hspec as [_ Hall]. rewrite Forall_forall in Hall.
    apply Hall in Hin. rewrite Hfree in Hin. by destruct Hin.
Qed.

Lemma handle_create_room_new_code_witness :
  ∃ taken first rest,
    ["1234"; "1234"; "0042"; "0007"]%string = taken ++ first :: rest ∧
    Forall (λ c, is_Some
                   (({[ "1234"%string :=
                          App.Room "1234" "Ann" None ["Ann"]%string None "lobby" ]}
                     : gmap string App.room) !! c)) taken ∧
    App.h_session
      (App.handle_create_room ["1234"; "1234"; "0042"; "0007"]%string
         {[ "1234"%string := App.Room "1234" "Ann" None ["Ann"]%string None "lobby" ]}
         (App.Session "Bob" None))
    = App.Session "Bob" (Some first).
Proof.
  destruct (handle_create_room_new_code ["1234"; "1234"; "0042"; "0007"]%string
              {[ "1234"%string := App.Room "1234" "Ann" None ["Ann"]%string None "lobby" ]}
              (App.Session "Bob" None) "0007")
    as (taken & first & rest & Hsplit & Htaken & _ & Heq & _).
  - repeat constructor.
  - vm_compute. reflexivity.
  - exists taken, first, rest. split; [exact Hsplit|]. split; [exact Htaken|].
    rewrite Heq. reflexivity.
Defined.

(** ** app.py: the actions of the players *)

Section Actions.
Import Py PickPass PickPassBot.




End Actions.





(** ** app.py: starting a game *)



(** X25. A start with a game type that is neither PickPass nor BidWiser
    locks a room in the lobby: the handler marks the room as playing before
    it looks at the type, finds no game object and raises
    [AttributeError]; nothing is sent. From then on nobody can join the
    room, and the actions of its members do nothing. *)
Theorem handle_start_game_unknown_type (fuel : nat) (d : App.deal)
    (rooms : gmap string App.room) (sess : App.session) (code game_type : string)
    (r : App.room) :
  App.room_code sess = Some code → rooms !! code = Some r →
  App.host r = App.username sess →
  App.game_instance r = None →
  game_type ≠ "pickpass"%string → game_type ≠ "bidwiser"%string →
  let locked := App.Room (App.code r) (App.host r) (Some game_type) (App.players r)
                  None "playing" in
  let h := App.handle_start_game fuel d rooms sess game_type in
  h = App.Handled (<[code := locked]> rooms) sess [] (Some PickPassBot.AttributeErr) ∧
  (∀ fuel' guest,
     App.handle_join_room fuel' (App.h_rooms h) guest code
     = App.Handled (App.h_rooms h) guest [App.EmitErrorMsg "Game already started!"]
         None) ∧
  (∀ fuel' o member data,
     App.room_code member = Some code →
     App.handle_action fuel' o (App.h_rooms h) member data
     = App.Handled (App.h_rooms h) member [] None).
Proof.
  intros Hcode Hroom Hhost Hinst Hpick Hbid. cbn zeta.
  assert (Hstart : App.handle_start_game fuel d rooms sess game_type
                   = App.Handled
                       (<[code := App.Room (App.code r) (App.host r) (Some game_type)
                                    (App.players r) None "playing"]> rooms)
                       sess [] (Some PickPassBot.AttributeErr)).
  { unfold App.handle_start_game. rewrite Hcode, Hroom.
    rewrite bool_decide_eq_false_2 by (by intros []).
    rewrite !(bool_decide_eq_false_2 (game_type = _)) by done.
    cbn. by rewrite Hinst. }
  rewrite Hstart. cbn [App.h_rooms]. split_and!; [done| |].
  - intros fuel' guest. unfold App.handle_join_room. rewrite lookup_insert_eq.
    by rewrite bool_decide_eq_true_2.
  - intros fuel' o member data Hmember. unfold App.handle_action.
    rewrite Hmember, lookup_insert_eq. cbn [App.game_type].
    rewrite !bool_decide_eq_false_2; [done|by intros [=]..].
Qed.

Lemma handle_start_game_unknown_type_witness :
  App.handle_start_game 0 (App.Deal [] 0 [])
    {[ "1234"%string := App.Room "1234" "Ann" None ["Ann"]%string None "lobby" ]}
    (App.Session "Ann" (Some "1234"%string)) "chess"
  = App.Handled
      (<["1234"%string :=
           App.Room "1234" "Ann" (Some "chess"%string) ["Ann"]%string None "playing"]>
         {[ "1234"%string := App.Room "1234" "Ann" None ["Ann"]%string None "lobby" ]})
      (App.Session "Ann" (Some "1234"%string)) [] (Some PickPassBot.AttributeErr).
Proof.
  apply (handle_start_game_unknown_type 0 (App.Deal [] 0 [])
           {[ "1234"%string := App.Room "1234" "Ann" None ["Ann"]%string None "lobby" ]}
           (App.Session "Ann" (Some "1234"%string)) "1234" "chess"
           (App.Room "1234" "Ann" None ["Ann"]%string None "lobby")).
  - reflexivity.
  - vm_compute. reflexivity.
  - reflexivity.
  - reflexivity.
  - done.
  - done.
Defined.

(** X26. When the host starts BidWiser the first member of the room plays
    against the second, or against the bot when the host is alone; further
    members get no seat. The room is marked as playing, the state of the
    new game is sent once and nothing is raised. A user who is not the
    host, or whose session has no room, starts nothing. *)
Theorem handle_start_game_bidwiser (fuel : nat) (d : App.deal)
    (rooms : gmap string App.room) (sess : App.session) (code first : string)
    (others : list string) (r : App.room) :
  App.room_code sess = Some code → rooms !! code = Some r →
  App.players r = first :: others →
  App.shuffled_prizes d ≡ₚ seqZ 1 13 →
  (App.host r ≠ App.username sess →
   ∀ game_type, App.handle_start_game fuel d rooms sess game_type
                = App.Handled rooms sess [] None) ∧
  (App.host r = App.username sess →
   ∃ g,
     BidWiser.init (App.players r) (App.shuffled_prizes d) = Py.Return g ∧
     App.handle_start_game fuel d rooms sess "bidwiser"
     = App.Handled
         (<[code := App.Room (App.code r) (App.host r) (Some "bidwiser"%string)
                      (App.players r) (Some (App.BidWiserEngine g)) "playing"]> rooms)
         sess
         [App.EmitGameStarted code (App.BidWiserView (BidWiserState.get_state g))
            "bidwiser"] None ∧
     BidSpec.reachable g ∧
     BidWiser.p1_name g = first ∧
     BidWiser.p2_is_bot g = bool_decide (others = []) ∧
     BidWiser.p2_name g = default "DeepGoof (Bot)"%string (head others)).
Proof.
  intros Hcode Hroom Hplayers Hperm. split.
  - intros Hhost game_type. unfold App.handle_start_game. rewrite Hcode, Hroom.
    by rewrite bool_decide_eq_true_2.
  - intros Hhost.
    assert (Hinit : ∃ g, BidWiser.init (App.players r) (App.shuffled_prizes d)
                         = Py.Return g ∧
                         BidWiser.p1_name g = first ∧
                         BidWiser.p2_is_bot g = bool_decide (others = []) ∧
                         BidWiser.p2_name g
                         = default "DeepGoof (Bot)"%string (head others)).
    { rewrite Hplayers. unfold BidWiser.init.
      apply Permutation_length in Hperm.
      destruct (App.shuffled_prizes d) as [|prize rest]; [done|].
      destruct others; eauto. }
    destruct Hinit as (g & Hinit & Hp1 & Hbot & Hp2). exists g.
    split_and!; [done| |by econstructor 1|done..].
    unfold App.handle_start_game. rewrite Hcode, Hroom.
    rewrite bool_decide_eq_false_2 by (by intros []).
    rewrite bool_decide_eq_false_2 by done. rewrite bool_decide_eq_true_2 by done.
    cbn [App.set_game App.players]. rewrite Hinit. reflexivity.
Qed.

Lemma handle_start_game_bidwiser_witness :
  ∃ g,
    BidWiser.init ["Ann"; "Bob"; "Cid"]%string (seqZ 1 13) = Py.Return g ∧
    BidWiser.p2_name g = "Bob"%string.
Proof.
  destruct (handle_start_game_bidwiser 0 (App.Deal [] 0 (seqZ 1 13))
              {[ "1234"%string :=
                   App.Room "1234" "Ann" None ["Ann"; "Bob"; "Cid"]%string None "lobby" ]}
              (App.Session "Ann" (Some "1234"%string)) "1234" "Ann"
              ["Bob"; "Cid"]%string
              (App.Room "1234" "Ann" None ["Ann"; "Bob"; "Cid"]%string None "lobby"))
    as [_ Hstart].
  - reflexivity.
  - vm_compute. reflexivity.
  - reflexivity.
  - reflexivity.
  - destruct (Hstart eq_refl) as (g & Hinit & _ & _ & _ & _ & Hp2).
    exists g. split; [exact Hinit|exact Hp2].
Defined.

(** ** logic_bidwiser.py: the forecast of the heuristic *)

Section Heuristic.
Import Py BidWiser.




End Heuristic.



(** ** logic_pickpass.py: the equity of a run *)

Section Equity.
Import Py PickPass PickPassBot.



End Equity.


